(** * mup: the plugin manager, the account manager and the LDAP filter escaping

    A shallow embedding of [plugin.go], of the account manager
    ([accountManager.loop] and [accountManager.tail], whose code the sources
    hold in the second half of [plugger_test.go]) and of [ldap/ldap.go],
    with the properties of the message bus stated over it.

    Conventions.
    - A Go [string] is a [string] of bytes ([ascii]); [bson.ObjectId] is a Go
      string type, compared with Go's byte-wise lexicographic order, which is
      [String.compare].
    - Go maps are [gmap]s.  The iteration order of a Go [range] over a map is
      unspecified; the model iterates in [map_to_list] order.
    - Effects (handler calls, database writes, channel sends) are recorded,
      in program order, as a list of [Event]s.
    - [logf]/[debugf] only write to the logger and are left out. *)

From Stdlib Require Import ZArith NArith Ascii String List Sorted Lia Bool.
From stdpp Require Import base option list sorting gmap strings fin_maps.

Local Open Scope string_scope.
Local Open Scope list_scope.

(* ===================================================================== *)
(** * Package ldap: [EscapeFilter] *)
(* ===================================================================== *)

Module ldap.

(** [var hex = "0123456789abcdef"] *)
Definition hex : string := "0123456789abcdef".

(** [func mustEscape(c byte) bool] *)
Definition mustEscape (c : ascii) : bool :=
  (127 <? N_of_ascii c)%N
  || Ascii.eqb c "("%char || Ascii.eqb c ")"%char
  || Ascii.eqb c "\"%char || Ascii.eqb c "*"%char
  || (N_of_ascii c =? 0)%N.

(** [buf[j] = c]: an indexed store into a byte slice; Go panics when the
    index is out of range, which is [None] here. *)
Definition store (buf : list ascii) (j : nat) (c : ascii) : option (list ascii) :=
  if (j <? length buf)%nat then Some (<[j := c]> buf) else None.

(** [hex[n]]: indexing a string; out of range panics. *)
Definition index (s : string) (n : N) : option ascii := String.get (N.to_nat n) s.

(** The first loop of [EscapeFilter]: [escape] counts the bytes to escape. *)
Fixpoint count_escape (filter : string) : nat :=
  match filter with
  | EmptyString => 0
  | String c rest =>
      if mustEscape c then S (count_escape rest) else count_escape rest
  end.

(** The second loop: [filter] is what is left to read, [j] the write index. *)
Fixpoint fill (filter : string) (j : nat) (buf : list ascii) : option (list ascii) :=
  match filter with
  | EmptyString => Some buf
  | String c rest =>
      if mustEscape c then
        buf ← store buf (j + 0) "\"%char;
        h ← index hex (N.shiftr (N_of_ascii c) 4);
        buf ← store buf (j + 1) h;
        l ← index hex (N.land (N_of_ascii c) 15);
        buf ← store buf (j + 2) l;
        fill rest (j + 3) buf
      else
        buf ← store buf j c;
        fill rest (j + 1) buf
  end.

(** [func EscapeFilter(filter string) string]; [None] is a run-time panic. *)
Definition EscapeFilter (filter : string) : option string :=
  let escape := count_escape filter in
  if (escape =? 0)%nat then Some filter
  else
    let buf := replicate (String.length filter + escape * 2) zero in
    string_of_list_ascii <$> fill filter 0 buf.

(** ** RFC 4515 escaping as the documentation words it, without the buffer *)

(** The bytes the documentation lists: out of the range [0 < c < 0x80], or
    one of [( ) \ *]. *)
Definition special (c : ascii) : bool :=
  let n := N_of_ascii c in
  (127 <? n)%N || (n =? 0)%N
  || (n =? 40)%N || (n =? 41)%N || (n =? 92)%N || (n =? 42)%N.

(** The lowercase hexadecimal digit of a value below 16. *)
Definition hex_digit (n : N) : ascii :=
  ascii_of_N (if (n <? 10)%N then 48 + n else 87 + n).

(** The value of a lowercase hexadecimal digit. *)
Definition hex_value (d : ascii) : option N :=
  let n := N_of_ascii d in
  if (48 <=? n)%N && (n <=? 57)%N then Some (n - 48)%N
  else if (97 <=? n)%N && (n <=? 102)%N then Some (n - 87)%N
  else None.

(** The bytes standing for one input byte. *)
Definition escape_byte (c : ascii) : list ascii :=
  if special c then
    ["\"%char; hex_digit (N_of_ascii c / 16); hex_digit (N_of_ascii c mod 16)]
  else [c].

Definition escaped (filter : string) : list ascii :=
  flat_map escape_byte (list_ascii_of_string filter).

(** The number of bytes of [filter] that are escaped. *)
Definition specials (filter : string) : nat :=
  length (List.filter special (list_ascii_of_string filter)).

End ldap.

(* ===================================================================== *)
(** * Package mup: data model *)
(* ===================================================================== *)

Module mup.

(** [bson.ObjectId] is a Go string type; its operators [<], [>], [>=] are
    Go's string comparisons. *)
Abbreviation ObjectId := string (only parsing).

(** [bson.Raw]: only the [Data] bytes matter here. *)
Abbreviation Raw := string (only parsing).

Definition zeros (n : nat) : string := string_of_list_ascii (replicate n zero).

(** [const zeroId = bson.ObjectId("\x00...\x00")], twelve zero bytes. *)
Definition zeroId : ObjectId := zeros 12.

(** [id.Valid()] of the bson package: an id has twelve bytes. *)
Definition Valid (id : ObjectId) : bool := (String.length id =? 12)%nat.

Definition byte_of (n : Z) : ascii := ascii_of_N (Z.to_N (n mod 256)).

(** [bson.NewObjectIdWithTime(t)]: the seconds of [t] as a big-endian
    [uint32], followed by eight zero bytes. *)
Definition NewObjectIdWithTime (unix : Z) : ObjectId :=
  let t := (unix mod 2 ^ 32)%Z in
  String (byte_of (Z.shiftr t 24))
    (String (byte_of (Z.shiftr t 16))
       (String (byte_of (Z.shiftr t 8))
          (String (byte_of t) (zeros 8)))).

(** [rollbackLimit = 10 * time.Second], in seconds. *)
Definition rollbackLimit : Z := 10.
Definition rollbackAccount : string := "<rollback>".
Definition rollbackText : string := "<rollback>".

(** The fields of [Message] that the managers read. *)
Record Message := {
  Id : ObjectId;
  Account : string;
  Command : string;
  Text : string;
  BotText : string;
  AsNick : string;
}.

(** [type pluginInfo struct] *)
Record pluginInfo := {
  Name : string;
  LastId : ObjectId;
  Config : Raw;
  Targets : Raw;
  State : Raw;
}.

Definition set_LastId (id : ObjectId) (info : pluginInfo) : pluginInfo :=
  {| Name := Name info; LastId := id; Config := Config info;
     Targets := Targets info; State := State info |}.

(** What [newPlugger] followed by [setConfig] and [setTargets] builds. *)
Record Plugger := {
  plugger_name : string;
  plugger_config : Raw;
  plugger_targets : Raw;
}.

(** A running plugin is a [Stopper] that implements zero or more of
    [MessageHandler], [OutgoingHandler] and [CommandHandler]; the three type
    assertions [state.plugin.(XHandler)] read these flags. *)
Record Stopper := {
  isMessageHandler : bool;
  isOutgoingHandler : bool;
  isCommandHandler : bool;
}.

(** [func pluginChanged(a, b *pluginInfo) bool] *)
Definition pluginChanged (a b : pluginInfo) : bool :=
  negb (String.eqb (Config a) (Config b))
  || negb (String.eqb (Targets a) (Targets b)).

(** [func pluginKey(pluginName string) string]: the name up to the first
    slash. *)
Fixpoint pluginKey (pluginName : string) : string :=
  match pluginName with
  | EmptyString => EmptyString
  | String c rest =>
      if Ascii.eqb c "/"%char then EmptyString else String c (pluginKey rest)
  end.

(** The body of the loop of [pluginOn] for one configured name. *)
Definition pluginOn_match (name cname : string) : bool :=
  String.eqb name cname
  || ((String.length cname <? String.length name)%nat
      && match String.get (String.length cname) name with
         | Some c => Ascii.eqb c "/"%char
         | None => false
         end
      && String.eqb (String.substring 0 (String.length cname) name) cname).

(** [func (m *pluginManager) pluginOn(name string) bool]; [None] is the nil
    slice of [config.Plugins]. *)
Definition pluginOn (Plugins : option (list string)) (name : string) : bool :=
  match Plugins with
  | None => true
  | Some cnames => existsb (pluginOn_match name) cnames
  end.

(** The tail position moved by a rollback request, lines 563-566 and
    586-588: [if rollbackId < lastId { lastId = rollbackId }]. *)
Definition rollbackTo (rollbackId lastId : ObjectId) : ObjectId :=
  if String.ltb rollbackId lastId then rollbackId else lastId.

(** The smaller of two ids in Go's string order. *)
Definition ObjectId_min (a b : ObjectId) : ObjectId :=
  match String.compare a b with
  | Gt => b
  | _ => a
  end.

(* --------------------------------------------------------------------- *)
(** ** The plugin manager *)
(* --------------------------------------------------------------------- *)

(** A Go error built by [fmt.Errorf] with one argument. *)
Inductive error := Errorf (format : string) (arg : string).

(** The ways a call ends: a value, an error value, or a panic. *)
Inductive Result (A : Type) :=
| Ok (a : A)
| Err (e : error)
| Panic (reason : string).
Arguments Ok {A} a.
Arguments Err {A} e.
Arguments Panic {A} reason.

(** Declarations of the repository that the managers use and that live in
    other files: the reply-pong verb [cmdPong]; the command-schema package
    ([schema.Commands], [schema.Command], [schema.CommandName],
    [Commands.Command], [Command.Parse], where an error is its message);
    [marshalRaw]; [Plugger.Target], as the test [Target(msg) != nil]; and
    the managed LDAP connection with its [Conn] method, whose result is a Go
    interface value and may be nil ([None]). *)
Class Externals := {
  cmdPong : string;
  Commands : Type;
  CommandSchema : Type;
  Args : Type;
  CommandName : string -> string;
  Commands_Command : Commands -> string -> option CommandSchema;
  Parse : CommandSchema -> string -> Args + string;
  marshalRaw : Args -> Raw;
  Target : Plugger -> Message -> bool;
  ManagedConn : Type;
  Conn : Type;
  mconn_Conn : ManagedConn -> option Conn;
}.

Section Manager.

Context `{Externals}.

(** [type PluginSpec struct] *)
Record PluginSpec := {
  spec_Name : string;
  spec_Help : string;
  spec_Start : Plugger -> Stopper;
  spec_Commands : Commands;
}.

(** [var registeredPlugins = make(map[string]*PluginSpec)] *)
Variable registeredPlugins : gmap string PluginSpec.

(** [type pluginState struct] *)
Record pluginState := {
  info : pluginInfo;
  spec : PluginSpec;
  plugger : Plugger;
  plugin : Stopper;
}.

Definition set_info (i : pluginInfo) (state : pluginState) : pluginState :=
  {| info := i; spec := spec state; plugger := plugger state; plugin := plugin state |}.

(** [type Command struct] *)
Record Command_ := {
  cmd_Message : Message;
  cmd_name : string;
  cmd_schema : CommandSchema;
  cmd_args : Raw;
}.

(** The fields of [pluginManager] that are state: [config.Plugins] (a nil
    slice is [None]), the running plugins, the LDAP lookup table (a nil map
    reads as the empty map) and whether the tomb is alive. *)
Record pluginManager := {
  config_Plugins : option (list string);
  plugins : gmap string pluginState;
  ldapConns : gmap string ManagedConn;
  alive : bool;
}.

Definition set_plugins (ps : gmap string pluginState) (m : pluginManager) : pluginManager :=
  {| config_Plugins := config_Plugins m; plugins := ps;
     ldapConns := ldapConns m; alive := alive m |}.

(** What the manager does to the world, in program order.  A plugin is named
    by the key it has in [m.plugins]. *)
Inductive Event :=
| PluginStop (name : string)                   (* state.plugin.Stop() *)
| PluginStart (name : string)                  (* spec.Start(plugger) *)
| UpdateCommands (name : string)               (* plugins.UpdateId(name, {$set: {commands}}) *)
| UpdateLastId (name : string) (id : ObjectId) (* plugins.UpdateId(name, {$set: {lastid}}) *)
| InsertIncoming (msg : Message)               (* incoming.Insert(msg) *)
| SendRollback (id : ObjectId)                 (* m.rollback <- id *)
| HandleMessage (name : string) (msg : Message)
| HandleOutgoing (name : string) (msg : Message)
| HandleCommand (name : string) (cmd : Command_)
| Sendf (name : string) (msg : Message) (text : string). (* state.plugger.Sendf(msg, ...) *)

(** The plugin an event belongs to, if any. *)
Definition event_plugin (e : Event) : option string :=
  match e with
  | PluginStop n | PluginStart n | UpdateCommands n | UpdateLastId n _
  | HandleMessage n _ | HandleOutgoing n _ | HandleCommand n _ | Sendf n _ _ => Some n
  | InsertIncoming _ | SendRollback _ => None
  end.

Definition of_plugin (name : string) (e : Event) : bool :=
  match event_plugin e with
  | Some n => String.eqb n name
  | None => false
  end.

(** The events of one plugin, in order. *)
Definition events_of (name : string) (tr : list Event) : list Event :=
  List.filter (of_plugin name) tr.

(** *** Handlers *)

(** [func (state *pluginState) handleMessage(msg *Message)] *)
Definition handleMessage (name : string) (state : pluginState) (msg : Message) : list Event :=
  if isMessageHandler (plugin state) then [HandleMessage name msg] else [].

(** [func (state *pluginState) handleOutgoing(msg *Message)] *)
Definition handleOutgoing (name : string) (state : pluginState) (msg : Message) : list Event :=
  if isOutgoingHandler (plugin state) then [HandleOutgoing name msg] else [].

(** [func (state *pluginState) handleCommand(msg *Message, cmdName string)];
    [fmt]'s [%v] of an error is its message. *)
Definition handleCommand (name : string) (state : pluginState) (msg : Message)
    (cmdName : string) : list Event :=
  if String.eqb cmdName EmptyString then []
  else if negb (isCommandHandler (plugin state)) then []
  else
    match Commands_Command (spec_Commands (spec state)) cmdName with
    | None => []
    | Some cmdSchema =>
        match Parse cmdSchema (BotText msg) with
        | inr err => [Sendf name msg (String.append "Oops: " err)]
        | inl args =>
            [HandleCommand name
               {| cmd_Message := msg; cmd_name := cmdName;
                  cmd_schema := cmdSchema; cmd_args := marshalRaw args |}]
        end
    end.

(** [func (state *pluginState) handle(msg *Message, cmdName string)] *)
Definition handle (name : string) (state : pluginState) (msg : Message)
    (cmdName : string) : list Event :=
  if String.eqb (AsNick msg) EmptyString then handleOutgoing name state msg
  else handleCommand name state msg cmdName ++ handleMessage name state msg.

(** *** The dispatch loop *)

(** The body of [for name, state := range m.plugins] in [loop], lines
    257-266.  [plugins.UpdateId] is recorded as the write it attempts; its
    error is only logged. *)
Definition dispatch (msg : Message) (cmdName : string) (name : string)
    (state : pluginState) : pluginState * list Event :=
  if String.leb (Id msg) (LastId (info state)) || negb (Target (plugger state) msg)
  then (state, [])
  else
    let state' := set_info (set_LastId (Id msg) (info state)) state in
    (state', handle name state' msg cmdName ++ [UpdateLastId name (Id msg)]).

(** [case msg := <-m.incoming] of [loop], lines 251-267. *)
Definition loop_incoming (m : pluginManager) (msg : Message) : pluginManager * list Event :=
  if String.eqb (Command msg) cmdPong then (m, [])
  else
    let cmdName := CommandName (BotText msg) in
    (set_plugins (map_imap (fun name state => Some (fst (dispatch msg cmdName name state)))
                    (plugins m)) m,
     concat ((fun ns => snd (dispatch msg cmdName (fst ns) (snd ns)))
               <$> map_to_list (plugins m))).

(** *** Reading a trace *)

(** [a] happens before [b] in a trace. *)
Definition precedes (a b : Event) (tr : list Event) : Prop :=
  exists l1 l2 l3, tr = l1 ++ a :: l2 ++ b :: l3.

(** A record is dispatched to a plugin in a pass of the loop when
    [state.handle] is called for it; the write of [lastid] that follows the
    call records it. *)
Definition dispatched (name : string) (msg : Message) (tr : list Event) : Prop :=
  UpdateLastId name (Id msg) ∈ tr.

(** The calls of a plugin's message and command handlers for a record. *)
Definition handler_call (name : string) (msg : Message) (e : Event) : Prop :=
  e = HandleMessage name msg
  \/ exists cmd, e = HandleCommand name cmd /\ cmd_Message cmd = msg.

(** *** Starting plugins and the refresh pass *)

(** The method [startPlugin(info *pluginInfo)] of [pluginManager];
    [now] is the reading of [time.Now()] in Unix seconds, and [None] the
    error of an unregistered plugin. *)
Definition startPlugin (now : Z) (i : pluginInfo) : option pluginState :=
  match registeredPlugins !! pluginKey (Name i) with
  | None => None
  | Some sp =>
      let pl := {| plugger_name := Name i; plugger_config := Config i;
                   plugger_targets := Targets i |} in
      let lastId := NewObjectIdWithTime (now - rollbackLimit) in
      Some {| info := if negb (Valid (LastId i)) || String.ltb (LastId i) lastId
                      then set_LastId lastId i else i;
              spec := sp; plugger := pl; plugin := spec_Start sp pl |}
  end.

(** What a refresh pass reads from outside the manager. *)
Record RefreshEnv := {
  (** the result of [plugins.Find(nil).Select(...).All(&infos)]; [None] is
      an error *)
  fetched : option (list pluginInfo);
  (** the reading of [time.Now()], in Unix seconds, when the named plugin is
      started *)
  clock : string -> Z;
  (** whether [incoming.Insert] of the wake-up message succeeds *)
  wake_inserted : bool;
  (** which case of the last [select] proceeds: the send on [m.rollback]
      ([true]) or [m.tomb.Dying()] ([false]) *)
  rollback_taken : bool;
}.

(** The local variables of [refreshPlugins], with [m.plugins] and the
    events so far. *)
Record refreshVars := {
  r_plugins : gmap string pluginState;
  r_seen : gset string;
  r_found : nat;
  r_rollbackId : ObjectId;
  r_trace : list Event;
}.

(** The wake-up message of line 459. *)
Definition wakeMessage : Message :=
  {| Id := EmptyString; Account := rollbackAccount; Command := cmdPong;
     Text := rollbackText; BotText := EmptyString; AsNick := EmptyString |}.

(** Lines 430-432: [rollbackId] takes the position of a started plugin when
    it is still empty or when the position is older. *)
Definition lower (rollbackId id : ObjectId) : ObjectId :=
  if String.eqb rollbackId EmptyString || String.ltb id rollbackId
  then id else rollbackId.

(** The body of [for i := range infos], lines 398-432. *)
Definition refresh_info (Plugins : option (list string)) (env : RefreshEnv)
    (v : refreshVars) (i : pluginInfo) : refreshVars :=
  if negb (pluginOn Plugins (Name i)) then v
  else
    let seen := {[ Name i ]} ∪ r_seen v in
    let start (ps : gmap string pluginState) (found : nat) (tr : list Event) :=
      match startPlugin (clock env (Name i)) i with
      | None =>
          {| r_plugins := ps; r_seen := seen; r_found := found;
             r_rollbackId := r_rollbackId v; r_trace := tr |}
      | Some state =>
          {| r_plugins := <[ Name i := state ]> ps; r_seen := seen; r_found := found;
             r_rollbackId := lower (r_rollbackId v) (LastId (info state));
             r_trace := tr ++ [PluginStart (Name i); UpdateCommands (Name i)] |}
      end in
    match r_plugins v !! Name i with
    | Some state =>
        if negb (pluginChanged (info state) i)
        then {| r_plugins := r_plugins v; r_seen := seen; r_found := S (r_found v);
                r_rollbackId := r_rollbackId v; r_trace := r_trace v |}
        else start (delete (Name i) (r_plugins v)) (S (r_found v))
                   (r_trace v ++ [PluginStop (Name i)])
    | None => start (r_plugins v) (r_found v) (r_trace v)
    end.

(** Lines 437-449: plugins that were not seen are stopped and removed. *)
Definition refresh_remove (known : nat) (v : refreshVars) : refreshVars :=
  if (known =? r_found v)%nat then v
  else
    {| r_plugins := filter (fun ns => fst ns ∈ r_seen v) (r_plugins v);
       r_seen := r_seen v; r_found := r_found v; r_rollbackId := r_rollbackId v;
       r_trace := r_trace v
                  ++ ((fun ns => PluginStop (fst ns))
                      <$> List.filter (fun ns => negb (bool_decide (fst ns ∈ r_seen v)))
                            (map_to_list (r_plugins v))) |}.

(** Lines 455-471: the wake-up message and the rollback request. *)
Definition refresh_rollback (env : RefreshEnv) (v : refreshVars) : list Event :=
  if String.eqb (r_rollbackId v) EmptyString then r_trace v
  else if negb (wake_inserted env) then r_trace v
  else if rollback_taken env
       then r_trace v ++ [InsertIncoming wakeMessage; SendRollback (r_rollbackId v)]
       else r_trace v ++ [InsertIncoming wakeMessage].

(** [func (m *pluginManager) refreshPlugins()] *)
Definition refreshPlugins (m : pluginManager) (env : RefreshEnv) : pluginManager * list Event :=
  match fetched env with
  | None => (m, [])
  | Some infos =>
      let known := size (plugins m) in
      let v0 := {| r_plugins := plugins m; r_seen := ∅; r_found := 0;
                   r_rollbackId := EmptyString; r_trace := [] |} in
      let v1 := foldl (refresh_info (config_Plugins m) env) v0 infos in
      let v2 := refresh_remove known v1 in
      (set_plugins (r_plugins v2) m, refresh_rollback env v2)
  end.

(** *** The LDAP lookup *)

(** [func (m *pluginManager) ldapConn(name string) (ldap.Conn, error)] *)
Definition ldapConn (m : pluginManager) (name : string) : Result Conn :=
  if negb (alive m)
  then Panic "plugin requested an LDAP connection after its Stop method returned"
  else
    let conn := match ldapConns m !! name with
                | Some mconn => mconn_Conn mconn
                | None => None
                end in
    match conn with
    | Some c => Ok c
    | None => Err (Errorf "LDAP connection %q not found" name)
    end.

(** *** Shutdown *)

(** What [die] does with the fields of this record, lines 188-202 and 213:
    every plugin is stopped (each in a goroutine of its own; the calls are
    listed in map order), the LDAP table is cleared, and the tomb is
    killed.  The loop of lines 204-211 closes the connections of [m.ldaps],
    a field this record does not hold; the whole of [die] is [ldaps.die]
    below, which has that field beside the manager as [refreshLdaps]
    has. *)
Definition die_plugins (m : pluginManager) : pluginManager * list Event :=
  ({| config_Plugins := config_Plugins m; plugins := plugins m;
      ldapConns := ∅; alive := false |},
   (fun ns => PluginStop (fst ns)) <$> map_to_list (plugins m)).

(** *** The states of a manager *)

(** The manager as [startPluginManager] builds it, then any sequence of
    inbound records and refresh passes, and its death.  ([refreshLdaps]
    fills the LDAP table; the table a state starts with stands for its
    result.) *)
Inductive reachable : pluginManager -> Prop :=
| reach_start (Plugins : option (list string)) (conns : gmap string ManagedConn) :
    reachable {| config_Plugins := Plugins; plugins := ∅; ldapConns := conns;
                 alive := true |}
| reach_incoming (m : pluginManager) (msg : Message) :
    reachable m -> reachable (fst (loop_incoming m msg))
| reach_refresh (m : pluginManager) (env : RefreshEnv) :
    reachable m -> reachable (fst (refreshPlugins m env))
| reach_die (m : pluginManager) :
    reachable m -> reachable (fst (die_plugins m)).

(** Every running plugin is enabled, registered under the key of its name,
    and stored under its own name. *)
Definition plugins_ok (Plugins : option (list string)) (ps : gmap string pluginState) : Prop :=
  forall name st,
    ps !! name = Some st ->
    pluginOn Plugins name = true
    /\ registeredPlugins !! pluginKey name = Some (spec st)
    /\ Name (info st) = name
    /\ plugger_name (plugger st) = name.

(** *** The rules the properties below are about *)

(** A record is dispatched to a plugin exactly when it is newer than the
    plugin's [LastId] and the plugin has a target for it. *)
Definition dispatch_rule (m : pluginManager) (msg : Message) (name : string)
    (st : pluginState) : Prop :=
  dispatched name msg (snd (loop_incoming m msg))
  <-> String.ltb (LastId (info st)) (Id msg) = true /\ Target (plugger st) msg = true.

(** The write of [lastid] comes before every call of a message or command
    handler of the plugin for the record. *)
Definition persisted_before_handlers (m : pluginManager) (msg : Message)
    (name : string) : Prop :=
  forall e, e ∈ snd (loop_incoming m msg) -> handler_call name msg e ->
    precedes (UpdateLastId name (Id msg)) e (snd (loop_incoming m msg)).

(** For a record dispatched to a plugin, with a text that names a command
    of the plugin's schema and fails to parse, the reply [Oops: ] with the
    error is sent on the record. *)
Definition oops_reply_rule (m : pluginManager) (name : string) (msg : Message) : Prop :=
  forall st cs err,
    plugins m !! name = Some st ->
    dispatched name msg (snd (loop_incoming m msg)) ->
    CommandName (BotText msg) <> EmptyString ->
    Commands_Command (spec_Commands (spec st)) (CommandName (BotText msg)) = Some cs ->
    Parse cs (BotText msg) = inr err ->
    Sendf name msg (String.append "Oops: " err) ∈ snd (loop_incoming m msg).

(** The position [startPlugin] gives a plugin: the persisted [LastId] when
    it is a valid id that is not older than the rollback limit, and the id
    of the limit otherwise. *)
Definition startedLastId (now : Z) (i : pluginInfo) : ObjectId :=
  let limit := NewObjectIdWithTime (now - rollbackLimit) in
  if Valid (LastId i) && String.leb limit (LastId i) then LastId i else limit.

(** Whether a pass over manager [m] starts or restarts the plugin of a
    fetched document: the plugin is enabled and registered, and is either
    not running or running with another configuration or other targets. *)
Definition starts (m : pluginManager) (i : pluginInfo) : bool :=
  pluginOn (config_Plugins m) (Name i)
  && bool_decide (is_Some (registeredPlugins !! pluginKey (Name i)))
  && match plugins m !! Name i with
     | Some st => pluginChanged (info st) i
     | None => true
     end.

Definition started (m : pluginManager) (infos : list pluginInfo) : list pluginInfo :=
  List.filter (starts m) infos.

(** [r] is the least of [ids] in Go's string order. *)
Definition is_min (r : ObjectId) (ids : list ObjectId) : Prop :=
  r ∈ ids /\ Forall (fun id => String.leb r id = true) ids.

(** A pass ends with the wake-up record followed by one rollback request,
    for the least of the positions of the plugins it started. *)
Definition rollback_request_rule (position : pluginInfo -> ObjectId)
    (m : pluginManager) (env : RefreshEnv) (infos : list pluginInfo) : Prop :=
  exists pre r,
    snd (refreshPlugins m env) = pre ++ [InsertIncoming wakeMessage; SendRollback r]
    /\ Forall (fun e => event_plugin e <> None) pre
    /\ is_min r (position <$> started m infos).

(** A pass stops the running instance of the plugin of document [i] and
    starts a new one under the same name, with the fetched configuration
    and targets, at position [position i]. *)
Definition restart_rule (position : pluginInfo -> ObjectId)
    (m : pluginManager) (env : RefreshEnv) (i : pluginInfo) : Prop :=
  exists st',
    plugins (fst (refreshPlugins m env)) !! Name i = Some st'
    /\ Name (info st') = Name i
    /\ Config (info st') = Config i
    /\ Targets (info st') = Targets i
    /\ plugger_name (plugger st') = Name i
    /\ LastId (info st') = position i
    /\ precedes (PluginStop (Name i)) (PluginStart (Name i)) (snd (refreshPlugins m env)).

(** The connection of a name of the table, or the error for a name that is
    not in it. *)
Definition ldap_lookup_rule (m : pluginManager) (name : string) : Prop :=
  match ldapConns m !! name with
  | Some mconn => forall c, mconn_Conn mconn = Some c -> ldapConn m name = Ok c
  | None => ldapConn m name = Err (Errorf "LDAP connection %q not found" name)
  end.

End Manager.

(* --------------------------------------------------------------------- *)
(** ** Tailing iterators *)
(* --------------------------------------------------------------------- *)

(** The query [{"_id": {"$gt": lastId}}]. *)
Definition newer (lastId : ObjectId) (msg : Message) : bool :=
  String.ltb lastId (Id msg).

(** [iter.Next(&msg)] on a tailing iterator sorted by [$natural]: [rest] is
    the part of the log the cursor has not scanned; the first record that
    satisfies the query is returned with what follows it, and [None] is the
    timeout of a cursor that found nothing. *)
Fixpoint iter_next (query : Message -> bool) (rest : list Message)
    : option (Message * list Message) :=
  match rest with
  | [] => None
  | msg :: rest' =>
      if query msg then Some (msg, rest') else iter_next query rest'
  end.

(* --------------------------------------------------------------------- *)
(** ** [pluginManager.tail] *)
(* --------------------------------------------------------------------- *)

(** Where the control of [tail] is. *)
Inductive tailPhase :=
| NextTail                                             (* head of the NextTail loop *)
| Iterating (bound : ObjectId) (rest : list Message)   (* iterator open, at iter.Next *)
| Delivering (bound : ObjectId) (rest : list Message) (msg : Message)
                                                       (* in the DeliverMsg select *)
| Backoff                                              (* iterator closed, in the last select *)
| Returned.

Record tailState := {
  lastId : ObjectId;
  phase : tailPhase;
  (** the messages sent on [m.incoming] so far *)
  delivered : list Message;
}.

(** What the environment lets happen next. *)
Inductive tailInput :=
| Rollback (rollbackId : ObjectId)  (* a value is received from m.rollback *)
| Idle                              (* no channel is ready: the default case *)
| Next                              (* iter.Next returns, with a record or by timeout *)
| Fail                              (* iter.Next returns false and it is not a timeout *)
| Accept                            (* the send on m.incoming proceeds *)
| Timer                             (* time.After(100 * time.Millisecond) fires *)
| Dying.                            (* m.tomb.Dying() is closed *)

(** One step of [func (m *pluginManager) tail() error] over the log
    [incoming]; an input that the current statement does not wait for
    leaves the state as it is. *)
Definition tail_step (incoming : list Message) (s : tailState) (i : tailInput) : tailState :=
  match phase s, i with
  (* lines 557-573 *)
  | NextTail, Dying =>
      {| lastId := lastId s; phase := Returned; delivered := delivered s |}
  | NextTail, Rollback rollbackId =>
      let lastId' := if String.ltb rollbackId (lastId s) then rollbackId else lastId s in
      {| lastId := lastId'; phase := Iterating lastId' incoming; delivered := delivered s |}
  | NextTail, Idle =>
      {| lastId := lastId s; phase := Iterating (lastId s) incoming; delivered := delivered s |}
  (* lines 576-601 *)
  | Iterating bound rest, Next =>
      match iter_next (newer bound) rest with
      | Some (msg, rest') =>
          {| lastId := lastId s; phase := Delivering bound rest' msg; delivered := delivered s |}
      | None =>
          {| lastId := lastId s; phase := Iterating bound []; delivered := delivered s |}
      end
  | Iterating _ _, Fail =>
      {| lastId := lastId s; phase := Backoff; delivered := delivered s |}
  | Iterating _ _, Dying =>
      {| lastId := lastId s; phase := Returned; delivered := delivered s |}
  (* lines 580-596 *)
  | Delivering bound rest msg, Accept =>
      {| lastId := Id msg; phase := Iterating bound rest; delivered := delivered s ++ [msg] |}
  | Delivering bound rest msg, Rollback rollbackId =>
      if String.ltb rollbackId (lastId s)
      then {| lastId := rollbackId; phase := NextTail; delivered := delivered s |}
      else s
  | Delivering _ _ _, Dying =>
      {| lastId := lastId s; phase := Returned; delivered := delivered s |}
  (* lines 603-611 *)
  | Backoff, Timer =>
      {| lastId := lastId s; phase := NextTail; delivered := delivered s |}
  | Backoff, Dying =>
      {| lastId := lastId s; phase := Returned; delivered := delivered s |}
  | _, _ => s
  end.

(** [tail] from its first statement, line 554. *)
Definition tail_start (now : Z) : tailState :=
  {| lastId := NewObjectIdWithTime (now - rollbackLimit); phase := NextTail;
     delivered := [] |}.

Definition tail_run (incoming : list Message) (s : tailState) (inputs : list tailInput)
    : tailState :=
  foldl (tail_step incoming) s inputs.

(* --------------------------------------------------------------------- *)
(** ** The account manager *)
(* --------------------------------------------------------------------- *)

Section Accounts.

Context `{Externals}.

(** [hex.DecodeString] and [bson.ObjectIdHex] of the libraries: two
    hexadecimal digits of either case for each byte; [ObjectIdHex] panics
    ([None]) unless the text decodes to twelve bytes. *)
Definition fromHexChar (c : ascii) : option N :=
  let n := N_of_ascii c in
  if (48 <=? n)%N && (n <=? 57)%N then Some (n - 48)%N
  else if (97 <=? n)%N && (n <=? 102)%N then Some (n - 87)%N
  else if (65 <=? n)%N && (n <=? 70)%N then Some (n - 55)%N
  else None.

Fixpoint hex_DecodeString (s : string) : option string :=
  match s with
  | EmptyString => Some EmptyString
  | String a (String b rest) =>
      h ← fromHexChar a;
      l ← fromHexChar b;
      d ← hex_DecodeString rest;
      Some (String (ascii_of_N (h * 16 + l)) d)
  | String _ EmptyString => None
  end.

Definition ObjectIdHex (s : string) : option ObjectId :=
  d ← hex_DecodeString s;
  if (String.length d =? 12)%nat then Some d else None.

(** [id.Hex()]: [hex.EncodeToString], lowercase. *)
Fixpoint Hex (id : ObjectId) : string :=
  match id with
  | EmptyString => EmptyString
  | String c rest =>
      String (ldap.hex_digit (N_of_ascii c / 16))
        (String (ldap.hex_digit (N_of_ascii c mod 16)) (Hex rest))
  end.

(** The persisted state the account manager works on: the [lastid] field of
    the documents of the [accounts] collection, by account name, and the
    [incoming] log. *)
Record accountDB := {
  accounts : gmap string ObjectId;
  incoming_log : list Message;
}.

(** How one pass of the [select] of [accountManager.loop] ends. *)
Inductive loopOutcome :=
| Continues (db : accountDB)
| Killed (db : accountDB)       (* am.tomb.Kill(err) *)
| Panics.                       (* bson.ObjectIdHex on a text that is no id *)

(** [case msg := <-am.incoming] of [accountManager.loop], lines 470-487 of
    [plugger_test.go]; the message field [Cmd] is [Command] here.
    [accounts.Update] fails when no document has the name. *)
Definition account_incoming (db : accountDB) (msg : Message) : loopOutcome :=
  if String.eqb (Command msg) cmdPong then
    if String.prefix "sent:" (Text msg) then
      match ObjectIdHex (String.substring 5 (String.length (Text msg) - 5) (Text msg)) with
      | None => Panics
      | Some id =>
          match accounts db !! Account msg with
          | Some _ =>
              Continues {| accounts := <[ Account msg := id ]> (accounts db);
                           incoming_log := incoming_log db |}
          | None => Killed db
          end
      end
    else Continues db
  else
    Continues {| accounts := accounts db; incoming_log := incoming_log db ++ [msg] |}.

(** The loop over a sequence of received messages, while it continues. *)
Fixpoint account_loop (db : accountDB) (msgs : list Message) : loopOutcome :=
  match msgs with
  | [] => Continues db
  | msg :: rest =>
      match account_incoming db msg with
      | Continues db' => account_loop db' rest
      | other => other
      end
  end.

(** The fields of [ircClient] that [tail] reads. *)
Record ircClient := {
  client_Account : string;
  client_LastId : ObjectId;
}.

(** Modelled from the spec: [startIrcClient], which is not among the
    sources; the outbound tail starts "from the account's persisted
    confirmed position", so the client carries the [lastid] of the account
    document read by [handleRefresh] (empty when the document has none). *)
Definition startIrcClient (db : accountDB) (account : string) : ircClient :=
  {| client_Account := account;
     client_LastId := default EmptyString (accounts db !! account) |}.

(** Modelled from the spec: the confirmation echo of a sent record, built by
    the connection layer, which is not among the sources: "a reply
    request whose payload embeds the record's id", echoed back verbatim; the
    tests read it as [PING :sent:<hex digits>]. *)
Definition echo (msg : Message) : Message :=
  {| Id := EmptyString; Account := Account msg; Command := cmdPong;
     Text := String.append "sent:" (Hex (Id msg)); BotText := EmptyString; AsNick := EmptyString |}.

(** The query of line 572 of [plugger_test.go]: [_id > lastId] and
    [account == client.Account]. *)
Definition outgoing_query (lastId : ObjectId) (account : string) (msg : Message) : bool :=
  newer lastId msg && String.eqb (Account msg) account.

Inductive outPhase :=
| OutPrepare                                             (* head of the outer loop *)
| OutIterating (bound : ObjectId) (rest : list Message)  (* at iter.Next *)
| OutDelivering (bound : ObjectId) (rest : list Message) (msg : Message)
| OutReturned.

Record outState := {
  out_lastId : ObjectId;
  out_phase : outPhase;
  (** the messages sent on [client.Outgoing] so far *)
  out_sent : list Message;
}.

Inductive outInput :=
| OutIdle          (* the loop head is passed with the tomb alive *)
| OutNext          (* iter.Next returns, with a record or by timeout *)
| OutFail          (* the iterator is not valid any more *)
| OutAccept        (* the send on client.Outgoing proceeds *)
| ClientDying      (* client.Dying is closed *)
| TombDying.       (* am.tomb is not alive *)

(** One step of [func (am *accountManager) tail(client *ircClient) error]
    over the log [outgoing]. *)
Definition out_step (client : ircClient) (outgoing : list Message) (s : outState)
    (i : outInput) : outState :=
  match out_phase s, i with
  | OutPrepare, TombDying =>
      {| out_lastId := out_lastId s; out_phase := OutReturned; out_sent := out_sent s |}
  | OutPrepare, OutIdle =>
      {| out_lastId := out_lastId s; out_phase := OutIterating (out_lastId s) outgoing;
         out_sent := out_sent s |}
  | OutIterating bound rest, OutNext =>
      match iter_next (outgoing_query bound (client_Account client)) rest with
      | Some (msg, rest') =>
          {| out_lastId := out_lastId s; out_phase := OutDelivering bound rest' msg;
             out_sent := out_sent s |}
      | None =>
          {| out_lastId := out_lastId s; out_phase := OutIterating bound [];
             out_sent := out_sent s |}
      end
  | OutIterating _ _, OutFail =>
      {| out_lastId := out_lastId s; out_phase := OutPrepare; out_sent := out_sent s |}
  | OutIterating _ _, TombDying =>
      {| out_lastId := out_lastId s; out_phase := OutReturned; out_sent := out_sent s |}
  | OutDelivering bound rest msg, OutAccept =>
      {| out_lastId := Id msg; out_phase := OutIterating bound rest;
         out_sent := out_sent s ++ [msg] |}
  | OutDelivering _ _ _, ClientDying =>
      {| out_lastId := out_lastId s; out_phase := OutReturned; out_sent := out_sent s |}
  | _, _ => s
  end.

(** [tail] from its first statements, lines 563-566 of [plugger_test.go]. *)
Definition out_start (client : ircClient) : outState :=
  {| out_lastId := if String.eqb (client_LastId client) EmptyString then zeroId
                   else client_LastId client;
     out_phase := OutPrepare; out_sent := [] |}.

Definition out_run (client : ircClient) (outgoing : list Message) (inputs : list outInput)
    : outState :=
  foldl (out_step client outgoing) (out_start client) inputs.

(** *** The rules the properties below are about *)

(** The store assigns ids that grow with the insertion order. *)
Definition sorted_by_id (log : list Message) : Prop :=
  StronglySorted (fun a b => String.ltb (Id a) (Id b) = true) log.

(** The records of the client's account that are after the position the
    tail starts from, in store order. *)
Definition unconfirmed (client : ircClient) (outgoing : list Message) : list Message :=
  List.filter (outgoing_query (out_lastId (out_start client)) (client_Account client))
    outgoing.

(** The inputs under which the tail opens its iterator and then delivers
    [n] records. *)
Definition deliveries (n : nat) : list outInput :=
  OutIdle :: concat (replicate n [OutNext; OutAccept]).

(** The records the tail has yet to send before it queries the log again,
    as its control stands. *)
Definition out_pending (account : string) (outgoing : list Message) (s : outState)
    : option (list Message) :=
  match out_phase s with
  | OutPrepare => Some (List.filter (outgoing_query (out_lastId s) account) outgoing)
  | OutIterating bound rest => Some (List.filter (outgoing_query bound account) rest)
  | OutDelivering bound rest msg =>
      Some (msg :: List.filter (outgoing_query bound account) rest)
  | OutReturned => None
  end.

(** The invariant of the tail over a log sorted by id: what was sent and
    what is pending make up the unconfirmed records, and the position is
    the id of the last record sent. *)
Definition out_invariant (client : ircClient) (outgoing : list Message) (s : outState) : Prop :=
  (exists pend,
     out_sent s ++ pend = unconfirmed client outgoing
     /\ forall p, out_pending (client_Account client) outgoing s = Some p -> p = pend)
  /\ ((out_sent s = [] /\ out_lastId s = out_lastId (out_start client))
      \/ exists sent' x, out_sent s = sent' ++ [x] /\ out_lastId s = Id x).

(** After the echoes of the records [echoed] have been received, in this
    order, a restarted tail of the account sends none of them again. *)
Definition never_resent_once_echoed (db : accountDB) (outgoing : list Message)
    (account : string) (echoed : list Message) (inputs : list outInput) : Prop :=
  forall db',
    account_loop db (echo <$> echoed) = Continues db' ->
    forall r, r ∈ echoed ->
      r ∉ out_sent (out_run (startIrcClient db' account) outgoing inputs).

End Accounts.

End mup.

(* ===================================================================== *)
(** * A concrete bus *)
(* ===================================================================== *)

(** One choice of the declarations of [Externals], and a small bus over it:
    an [echo] plugin on the account [freenode]. *)
Module examples.
Import mup.

(** The text up to the first space. *)
Fixpoint first_word (s : string) : string :=
  match s with
  | EmptyString => EmptyString
  | String c rest =>
      if Ascii.eqb c " "%char then EmptyString else String c (first_word rest)
  end.

(** A schema is the name of its command, which needs one argument; targets
    are an account name, or empty for every account. *)
Definition ext : Externals := {|
  cmdPong := "PONG";
  Commands := list string;
  CommandSchema := string;
  Args := string;
  CommandName := first_word;
  Commands_Command := fun cs name => List.find (String.eqb name) cs;
  Parse := fun schema text =>
    if String.eqb text schema then inr "missing input for argument: text" else inl text;
  marshalRaw := fun args => args;
  Target := fun pl msg =>
    String.eqb (plugger_targets pl) EmptyString
    || String.eqb (plugger_targets pl) (Account msg);
  ManagedConn := string;
  Conn := string;
  mconn_Conn := fun mconn => Some mconn;
|}.

#[local] Existing Instance ext.

Definition id_at (unix : Z) : ObjectId := NewObjectIdWithTime unix.

(** A plugin that handles messages and commands. *)
Definition echo_plugin : Stopper :=
  {| isMessageHandler := true; isOutgoingHandler := false; isCommandHandler := true |}.

Definition echo_spec : PluginSpec :=
  {| spec_Name := "echo"; spec_Help := "Repeats the text given.";
     spec_Start := fun _ => echo_plugin; spec_Commands := ["echo"] |}.

Definition registry : gmap string PluginSpec := {[ "echo" := echo_spec ]}.

Definition echo_info (config : Raw) (lastId : ObjectId) : pluginInfo :=
  {| Name := "echo"; LastId := lastId; Config := config;
     Targets := EmptyString; State := EmptyString |}.

Definition echo_plugger (config : Raw) : Plugger :=
  {| plugger_name := "echo"; plugger_config := config; plugger_targets := EmptyString |}.

(** The [echo] plugin running with configuration [v1], last record seen at
    time 1000. *)
Definition st_echo : pluginState :=
  {| info := echo_info "v1" (id_at 1000); spec := echo_spec;
     plugger := echo_plugger "v1"; plugin := echo_plugin |}.

Definition m_running : pluginManager :=
  {| config_Plugins := None; plugins := {[ "echo" := st_echo ]};
     ldapConns := {[ "corp" := "ldap://corp" ]}; alive := true |}.

(** The pass that started it: the manager as started, and the document of
    [echo] with configuration [v1] read at time 1005. *)
Definition m_start : pluginManager :=
  {| config_Plugins := None; plugins := ∅;
     ldapConns := {[ "corp" := "ldap://corp" ]}; alive := true |}.

Definition env_first : RefreshEnv :=
  {| fetched := Some [echo_info "v1" (id_at 1000)]; clock := fun _ => 1005%Z;
     wake_inserted := true; rollback_taken := true |}.

Definition m_empty : pluginManager :=
  {| config_Plugins := None; plugins := ∅; ldapConns := ∅; alive := true |}.

(** The running manager after [die]. *)
Definition m_dead : pluginManager := fst (die_plugins m_running).

Definition pong_msg : Message :=
  {| Id := id_at 2000; Account := "freenode"; Command := "PONG";
     Text := "lag"; BotText := EmptyString; AsNick := "mup" |}.

Definition hello_msg : Message :=
  {| Id := id_at 2000; Account := "freenode"; Command := "PRIVMSG";
     Text := "mup: hello"; BotText := "hello"; AsNick := "mup" |}.

(** The command [echo] without its argument. *)
Definition echo_msg : Message :=
  {| Id := id_at 2000; Account := "freenode"; Command := "PRIVMSG";
     Text := "mup: echo"; BotText := "echo"; AsNick := "mup" |}.

(** The same text in a record without a nick, as the bot's own outgoing
    records are. *)
Definition echo_out_msg : Message :=
  {| Id := id_at 2000; Account := "freenode"; Command := "PRIVMSG";
     Text := "echo"; BotText := "echo"; AsNick := EmptyString |}.

(** The stored document of [echo] with configuration [v2] and a position
    of time 50, read at time 1000. *)
Definition info_v2 : pluginInfo := echo_info "v2" (id_at 50).

Definition env_refresh : RefreshEnv :=
  {| fetched := Some [info_v2]; clock := fun _ => 1000%Z;
     wake_inserted := true; rollback_taken := true |}.

Definition tail_blocked : tailState :=
  {| lastId := id_at 2000; phase := Delivering (id_at 1500) [] hello_msg; delivered := [] |}.

(** Two outgoing records and an account that has confirmed nothing. *)
Definition out1 : Message :=
  {| Id := id_at 1000; Account := "freenode"; Command := "PRIVMSG";
     Text := "Hello there!"; BotText := EmptyString; AsNick := EmptyString |}.

Definition out2 : Message :=
  {| Id := id_at 2000; Account := "freenode"; Command := "PRIVMSG";
     Text := "Hello again!"; BotText := EmptyString; AsNick := EmptyString |}.

Definition db0 : accountDB :=
  {| accounts := {[ "freenode" := EmptyString ]}; incoming_log := [] |}.

Definition client0 : ircClient :=
  {| client_Account := "freenode"; client_LastId := id_at 1000 |}.

End examples.

(* ===================================================================== *)
(** * Package mup: the rest of the plugin manager *)
(* ===================================================================== *)

Module mup_ext.
Import mup.

Section Registry.

Context `{Externals}.

(** [func RegisterPlugin(spec *PluginSpec)] on the registry
    [registeredPlugins]; its two panics are [Panic]. *)
Definition RegisterPlugin (registered : gmap string PluginSpec) (sp : PluginSpec)
    : Result (gmap string PluginSpec) :=
  if String.eqb (spec_Name sp) EmptyString
  then Panic "cannot register plugin with an empty name"
  else
    match registered !! spec_Name sp with
    | Some _ => Panic (String.append "plugin already registered: " (spec_Name sp))
    | None => Ok (<[ spec_Name sp := sp ]> registered)
    end.

(** A sequence of registrations, as the [init] functions of the plugin
    packages make them; the first panic ends it. *)
Fixpoint RegisterPlugins (registered : gmap string PluginSpec) (sps : list PluginSpec)
    : Result (gmap string PluginSpec) :=
  match sps with
  | [] => Ok registered
  | sp :: rest =>
      match RegisterPlugin registered sp with
      | Ok registered' => RegisterPlugins registered' rest
      | other => other
      end
  end.

End Registry.

Section Reconciled.

Context `{Externals}.
Variable registeredPlugins : gmap string PluginSpec.

(** The running plugins agree with the fetched documents: every running
    plugin has an enabled document with its configuration and targets, and
    an enabled document without a running plugin is of a plugin that is not
    registered. *)
Definition settled (m : pluginManager) (infos : list pluginInfo) : Prop :=
  (forall name st,
     plugins m !! name = Some st ->
     exists i, i ∈ infos /\ Name i = name
               /\ pluginOn (config_Plugins m) name = true
               /\ pluginChanged (info st) i = false)
  /\ (forall i,
        i ∈ infos ->
        pluginOn (config_Plugins m) (Name i) = true ->
        plugins m !! Name i = None ->
        registeredPlugins !! pluginKey (Name i) = None).

(** The dispatch loop over a sequence of inbound records. *)
Definition loop_incomings (m : pluginManager) (msgs : list Message) : pluginManager :=
  foldl (fun m msg => fst (loop_incoming m msg)) m msgs.

(** The same with the events of the handlers, in the order of the
    records. *)
Fixpoint loop_run (m : pluginManager) (msgs : list Message) : pluginManager * list Event :=
  match msgs with
  | [] => (m, [])
  | msg :: rest =>
      let r := loop_incoming m msg in
      let r' := loop_run (fst r) rest in
      (fst r', snd r ++ snd r')
  end.

(** The test of line 258 sends [msg] to no running plugin. *)
Definition skipped_by_all (m : pluginManager) (msg : Message) : Prop :=
  forall name st,
    plugins m !! name = Some st ->
    String.leb (Id msg) (LastId (info st)) || negb (Target (plugger st) msg) = true.

(** The records the loop hands to a plugin whose state is [st]: no pong,
    newer than the position of the plugin, and with a target. *)
Definition received (st : pluginState) (msg : Message) : bool :=
  negb (String.eqb (Command msg) cmdPong)
  && String.ltb (LastId (info st)) (Id msg)
  && Target (plugger st) msg.

(** What the loop does for a plugin with a record it hands to it, lines
    261-266: the handlers, then the write of the position. *)
Definition delivery (name : string) (st : pluginState) (msg : Message) : list Event :=
  handle name (set_info (set_LastId (Id msg) (info st)) st) msg (CommandName (BotText msg))
  ++ [UpdateLastId name (Id msg)].

End Reconciled.

End mup_ext.

(** More of the concrete bus. *)
Module examples_ext.
Import mup mup_ext examples.

#[local] Existing Instance ext.

(** A pass that finds no document, and one that finds the document of a
    plugin that is not registered. *)
Definition env_gone : RefreshEnv :=
  {| fetched := Some []; clock := fun _ => 1000%Z;
     wake_inserted := true; rollback_taken := true |}.

Definition ghost_info : pluginInfo :=
  {| Name := "ghost/main"; LastId := EmptyString; Config := "v1";
     Targets := EmptyString; State := EmptyString |}.

Definition env_ghost : RefreshEnv :=
  {| fetched := Some [ghost_info]; clock := fun _ => 1000%Z;
     wake_inserted := true; rollback_taken := true |}.

End examples_ext.


(* --------------------------------------------------------------------- *)
(** ** [ldap.Result] and its accessors *)
(* --------------------------------------------------------------------- *)

Module ldap_ext.

(** [type Config struct] *)
Record Config := {
  URL : string;
  BaseDN : string;
  BindDN : string;
  BindPass : string;
}.

(** [type Attr struct] *)
Record Attr := {
  attr_Name : string;
  attr_Values : list string;
}.

(** [type Result struct] *)
Record Result := {
  DN : string;
  Attrs : list Attr;
}.

(** The loop of [Values] over [r.Attrs]; the nil slice is the empty list. *)
Fixpoint Values_loop (attrs : list Attr) (name : string) : list string :=
  match attrs with
  | [] => []
  | attr :: rest =>
      if String.eqb (attr_Name attr) name then attr_Values attr
      else Values_loop rest name
  end.

(** [func (r *Result) Values(name string) []string] *)
Definition Values (r : Result) (name : string) : list string :=
  Values_loop (Attrs r) name.

(** [func (r *Result) Value(name string) string] *)
Definition Value (r : Result) (name : string) : string :=
  match Values r name with
  | value :: _ => value
  | [] => EmptyString
  end.

End ldap_ext.

(* --------------------------------------------------------------------- *)
(** ** [pluginManager.refreshLdaps] *)
(* --------------------------------------------------------------------- *)

Module ldaps.
Import mup.

Section Ldaps.

Context `{Externals}.

(** [type ldapInfo struct] *)
Record ldapInfo := {
  ldap_Name : string;
  ldap_Config : ldap_ext.Config;
}.

(** [type ldapState struct]; [raw] is the [Data] of the document. *)
Record ldapState := {
  ldap_raw : Raw;
  ldap_info : ldapInfo;
  ldap_conn : ManagedConn;
}.

(** What a pass does to the connections, in program order:
    [state.conn.Close()] and [ldap.DialManaged(&info.Config)]. *)
Inductive LdapEvent :=
| LdapClose (name : string) (conn : ManagedConn)
| LdapDial (info : ldapInfo).

Definition ldap_event_name (e : LdapEvent) : string :=
  match e with
  | LdapClose name _ => name
  | LdapDial info => ldap_Name info
  end.

(** The events of the connection [name] in a trace. *)
Definition ldap_events_of (name : string) (tr : list LdapEvent) : list LdapEvent :=
  List.filter (fun e => String.eqb (ldap_event_name e) name) tr.

(** What a pass reads from outside the manager. *)
Record LdapEnv := {
  (** the documents [iter.Next(&raw)] yields, in order *)
  ldap_docs : list Raw;
  (** [raw.Unmarshal(&info)]; [None] is an error *)
  ldap_unmarshal : Raw -> option ldapInfo;
  (** whether [iter.Err()] is an error after the last document *)
  ldap_iter_err : bool;
  (** the connection [ldap.DialManaged(&info.Config)] returns for the
      document *)
  DialManaged : ldapInfo -> ManagedConn;
}.

(** The local variables of [refreshLdaps], with [m.ldaps] and the events so
    far. *)
Record ldapVars := {
  l_ldaps : gmap string ldapState;
  l_infos : list ldapInfo;
  l_found : nat;
  l_changed : bool;
  l_trace : list LdapEvent;
}.

(** The body of [for iter.Next(&raw)] after the document has been decoded,
    lines 315-337. *)
Definition ldap_document (env : LdapEnv) (v : ldapVars) (raw : Raw) (info : ldapInfo)
    : ldapVars :=
  let infos := l_infos v ++ [info] in
  let dial (ls : gmap string ldapState) (found : nat) (tr : list LdapEvent) :=
    {| l_ldaps := <[ ldap_Name info :=
                       {| ldap_raw := raw; ldap_info := info;
                          ldap_conn := DialManaged env info |} ]> ls;
       l_infos := infos; l_found := found; l_changed := true;
       l_trace := tr ++ [LdapDial info] |} in
  match l_ldaps v !! ldap_Name info with
  | Some state =>
      if String.eqb (ldap_raw state) raw
      then {| l_ldaps := l_ldaps v; l_infos := infos; l_found := S (l_found v);
              l_changed := l_changed v; l_trace := l_trace v |}
      else dial (delete (ldap_Name info) (l_ldaps v)) (S (l_found v))
                (l_trace v ++ [LdapClose (ldap_Name info) (ldap_conn state)])
  | None => dial (l_ldaps v) (l_found v) (l_trace v)
  end.

(** The body of [for iter.Next(&raw)], lines 309-337: a document that does
    not decode is passed over. *)
Definition ldap_next (env : LdapEnv) (v : ldapVars) (raw : Raw) : ldapVars :=
  match ldap_unmarshal env raw with
  | None => v
  | Some info => ldap_document env v raw info
  end.

(** Lines 346-362: the connections no document names are closed and
    removed. *)
Definition ldap_remove (known : nat) (v : ldapVars) : ldapVars :=
  if (known =? l_found v)%nat then v
  else
    let named (name : string) := bool_decide (name ∈ ldap_Name <$> l_infos v) in
    let gone := List.filter (fun ns => negb (named (fst ns))) (map_to_list (l_ldaps v)) in
    {| l_ldaps := filter (fun ns => fst ns ∈ ldap_Name <$> l_infos v) (l_ldaps v);
       l_infos := l_infos v; l_found := l_found v;
       l_changed := match gone with [] => l_changed v | _ :: _ => true end;
       l_trace := l_trace v
                  ++ ((fun ns => LdapClose (fst ns) (ldap_conn (snd ns))) <$> gone) |}.

Definition set_ldapConns (conns : gmap string ManagedConn) (m : pluginManager)
    : pluginManager :=
  {| config_Plugins := config_Plugins m; plugins := plugins m;
     ldapConns := conns; alive := alive m |}.

(** [func (m *pluginManager) refreshLdaps()], with the field [m.ldaps]
    beside the manager; the deferred function runs however the pass
    returns. *)
Definition refreshLdaps (ldaps : gmap string ldapState) (m : pluginManager) (env : LdapEnv)
    : gmap string ldapState * pluginManager * list LdapEvent :=
  let known := size ldaps in
  let v0 := {| l_ldaps := ldaps; l_infos := []; l_found := 0; l_changed := false;
               l_trace := [] |} in
  let v1 := foldl (ldap_next env) v0 (ldap_docs env) in
  let v2 := if ldap_iter_err env then v1 else ldap_remove known v1 in
  (l_ldaps v2,
   if l_changed v2 then set_ldapConns (ldap_conn <$> l_ldaps v2) m else m,
   l_trace v2).

(** [func (m *pluginManager) die()], the deferred call of [loop], with the
    field [m.ldaps] beside the manager: every plugin is stopped, the table
    plugins read is cleared, every connection of [m.ldaps] is closed, and
    the tomb is killed once all of them are done.  The stops and the closes
    run in goroutines of their own; each kind is listed in map order, and
    nothing orders one kind against the other. *)
Definition die (ldaps : gmap string ldapState) (m : pluginManager)
    : pluginManager * list Event * list LdapEvent :=
  (fst (die_plugins m), snd (die_plugins m),
   (fun ns => LdapClose (fst ns) (ldap_conn (snd ns))) <$> map_to_list ldaps).

(** The documents of a pass that decode, with what they decode to. *)
Definition ldap_decoded (env : LdapEnv) : list (Raw * ldapInfo) :=
  omap (fun raw => (fun info => (raw, info)) <$> ldap_unmarshal env raw) (ldap_docs env).

(** The state a document leaves under its name, given the state it finds
    there: the one it finds when the bytes are the same, a new connection
    otherwise. *)
Definition after_document (env : LdapEnv) (old : option ldapState) (raw : Raw)
    (info : ldapInfo) : ldapState :=
  match old with
  | Some st =>
      if String.eqb (ldap_raw st) raw then st
      else {| ldap_raw := raw; ldap_info := info; ldap_conn := DialManaged env info |}
  | None => {| ldap_raw := raw; ldap_info := info; ldap_conn := DialManaged env info |}
  end.

(** The events of the document. *)
Definition events_of_document (old : option ldapState) (raw : Raw) (info : ldapInfo)
    : list LdapEvent :=
  match old with
  | Some st =>
      if String.eqb (ldap_raw st) raw then []
      else [LdapClose (ldap_Name info) (ldap_conn st); LdapDial info]
  | None => [LdapDial info]
  end.

End Ldaps.

End ldaps.

(** The LDAP connections of the concrete bus. *)
Module ldaps_examples.
Import mup ldaps examples.

#[local] Existing Instance ext.

Definition corp_info : ldapInfo :=
  {| ldap_Name := "corp";
     ldap_Config := {| ldap_ext.URL := "ldap://corp"; ldap_ext.BaseDN := "dc=corp";
                       ldap_ext.BindDN := "cn=mup"; ldap_ext.BindPass := "secret" |} |}.

Definition lab_info : ldapInfo :=
  {| ldap_Name := "lab";
     ldap_Config := {| ldap_ext.URL := "ldap://lab"; ldap_ext.BaseDN := "dc=lab";
                       ldap_ext.BindDN := "cn=mup"; ldap_ext.BindPass := "secret" |} |}.

Definition st_corp : ldapState :=
  {| ldap_raw := "corp-v1"; ldap_info := corp_info; ldap_conn := "ldap://corp" |}.

Definition st_old : ldapState :=
  {| ldap_raw := "old-v1";
     ldap_info := {| ldap_Name := "old"; ldap_Config := ldap_Config corp_info |};
     ldap_conn := "ldap://old" |}.

(** A pass that reads the document of [corp] as it was dialled, a document
    that does not decode, and a document of [lab]. *)
Definition env_ldap : LdapEnv :=
  {| ldap_docs := ["corp-v1"; "junk"; "lab-v1"];
     ldap_unmarshal := fun raw =>
       if String.eqb raw "corp-v1" then Some corp_info
       else if String.eqb raw "lab-v1" then Some lab_info
       else None;
     ldap_iter_err := false;
     DialManaged := fun info => ldap_ext.URL (ldap_Config info) |}.

End ldaps_examples.

(* --------------------------------------------------------------------- *)
(** ** The Launchpad plugin: what [pollBugs] announces *)
(* --------------------------------------------------------------------- *)

Module launchpad.

(** The prefix [showBug] is called with: [p.settings.PrefixNew] or
    [p.settings.PrefixOld]. *)
Inductive Prefix := PrefixNew | PrefixOld.

(** The loop [for o < len(oldBugs) || n < len(newBugs)] of [pollBugs],
    lines 365-385 of [plugins/log/log.go]: the two lists are what is left
    of [oldBugs] from [o] and of [newBugs] from [n]; the result is the
    calls of [showBug], in order. *)
Fixpoint announce (oldBugs : list Z) : list Z -> list (Prefix * Z) :=
  fix from_new (newBugs : list Z) : list (Prefix * Z) :=
    match oldBugs, newBugs with
    | [], [] => []
    | [], bugId :: newBugs' => (PrefixNew, bugId) :: from_new newBugs'
    | bugId :: oldBugs', [] => (PrefixOld, bugId) :: announce oldBugs' []
    | o :: oldBugs', n :: newBugs' =>
        if (n <? o)%Z then (PrefixNew, n) :: from_new newBugs'
        else if (o <? n)%Z then (PrefixOld, o) :: announce oldBugs' newBugs
        else announce oldBugs' newBugs'
    end.

End launchpad.

(* ===================================================================== *)
(** * Properties of [EscapeFilter] *)
(* ===================================================================== *)

Module ldap_facts.
Import ldap.

Ltac each_byte c := destruct c as [[] [] [] [] [] [] [] []].

Lemma mustEscape_special (c : ascii) : mustEscape c = special c.
Proof. each_byte c; reflexivity. Qed.

Lemma hex_high (c : ascii) :
  index hex (N.shiftr (N_of_ascii c) 4) = Some (hex_digit (N_of_ascii c / 16)).
Proof. each_byte c; reflexivity. Qed.

Lemma hex_low (c : ascii) :
  index hex (N.land (N_of_ascii c) 15) = Some (hex_digit (N_of_ascii c mod 16)).
Proof. each_byte c; reflexivity. Qed.

Lemma hex_value_high (c : ascii) :
  hex_value (hex_digit (N_of_ascii c / 16)) = Some (N_of_ascii c / 16)%N.
Proof. each_byte c; reflexivity. Qed.

Lemma hex_value_low (c : ascii) :
  hex_value (hex_digit (N_of_ascii c mod 16)) = Some (N_of_ascii c mod 16)%N.
Proof. each_byte c; reflexivity. Qed.

Lemma store_middle (pre suf : list ascii) (x c : ascii) :
  store (pre ++ x :: suf) (length pre) c = Some (pre ++ c :: suf).
Proof.
  unfold store. rewrite length_app. simpl.
  destruct (Nat.ltb_spec (length pre) (length pre + S (length suf))) as [_|H]; [|lia].
  f_equal. replace (length pre) with (length pre + 0)%nat at 1 by lia.
  rewrite insert_app_r. reflexivity.
Qed.

Lemma count_escape_specials (filter : string) :
  count_escape filter = specials filter.
Proof.
  unfold specials. induction filter as [|c rest IH]; simpl; [reflexivity|].
  rewrite mustEscape_special. destruct (special c); simpl; congruence.
Qed.

Lemma length_escaped (filter : string) :
  length (escaped filter) = (String.length filter + 2 * specials filter)%nat.
Proof.
  unfold escaped, specials. induction filter as [|c rest IH]; simpl; [reflexivity|].
  rewrite length_app, IH. unfold escape_byte.
  destruct (special c); simpl; lia.
Qed.

Lemma escaped_no_specials (filter : string) :
  specials filter = 0%nat -> escaped filter = list_ascii_of_string filter.
Proof.
  unfold escaped, specials. induction filter as [|c rest IH]; simpl; [reflexivity|].
  unfold escape_byte. destruct (special c); simpl; [discriminate|].
  intros H. f_equal. auto.
Qed.

(** The second loop writes [escaped rest] at [j] and leaves the buffer
    around it as it is; it never indexes out of range when the buffer has
    room for [escaped rest]. *)
Lemma fill_writes (rest : string) :
  forall (pre suf : list ascii),
    (length (escaped rest) <= length suf)%nat ->
    fill rest (length pre) (pre ++ suf)
    = Some (pre ++ escaped rest ++ drop (length (escaped rest)) suf).
Proof.
  induction rest as [|c rest IH]; intros pre suf Hlen.
  - reflexivity.
  - cbn [fill]. unfold escaped in *. cbn [list_ascii_of_string flat_map] in *.
    rewrite length_app in Hlen. rewrite length_app.
    unfold escape_byte in *. rewrite mustEscape_special.
    destruct (special c); cbn [length app] in *.
    + destruct suf as [|x0 [|x1 [|x2 suf]]]; cbn [length] in Hlen; try lia.
      rewrite Nat.add_0_r, store_middle. cbn [mbind option_bind].
      rewrite hex_high. cbn [mbind option_bind].
      replace (pre ++ "\"%char :: x1 :: x2 :: suf)
        with ((pre ++ ["\"%char]) ++ x1 :: x2 :: suf) by (rewrite <- app_assoc; reflexivity).
      replace (length pre + 1)%nat with (length (pre ++ ["\"%char]))
        by (rewrite length_app; reflexivity).
      rewrite store_middle. cbn [mbind option_bind].
      rewrite hex_low. cbn [mbind option_bind].
      set (h := hex_digit (N_of_ascii c / 16)).
      set (l := hex_digit (N_of_ascii c mod 16)).
      replace ((pre ++ ["\"%char]) ++ h :: x2 :: suf)
        with ((pre ++ ["\"%char; h]) ++ x2 :: suf) by (rewrite <- !app_assoc; reflexivity).
      replace (length pre + 2)%nat with (length (pre ++ ["\"%char; h]))
        by (rewrite length_app; reflexivity).
      rewrite store_middle. cbn [mbind option_bind].
      replace ((pre ++ ["\"%char; h]) ++ l :: suf)
        with ((pre ++ ["\"%char; h; l]) ++ suf) by (rewrite <- !app_assoc; reflexivity).
      replace (length pre + 3)%nat with (length (pre ++ ["\"%char; h; l]))
        by (rewrite length_app; reflexivity).
      rewrite IH by (cbn [length] in Hlen; lia).
      rewrite <- !app_assoc. reflexivity.
    + destruct suf as [|x0 suf]; cbn [length] in Hlen; try lia.
      rewrite store_middle. cbn [mbind option_bind].
      replace (pre ++ c :: suf) with ((pre ++ [c]) ++ suf)
        by (rewrite <- app_assoc; reflexivity).
      replace (length pre + 1)%nat with (length (pre ++ [c]))
        by (rewrite length_app; reflexivity).
      rewrite IH by lia.
      rewrite <- !app_assoc. reflexivity.
Qed.

Lemma string_of_list_ascii_length (l : list ascii) :
  String.length (string_of_list_ascii l) = length l.
Proof. induction l; simpl; congruence. Qed.

Lemma EscapeFilter_escaped (filter : string) :
  EscapeFilter filter = Some (string_of_list_ascii (escaped filter)).
Proof.
  unfold EscapeFilter. rewrite count_escape_specials.
  destruct (Nat.eqb_spec (specials filter) 0) as [H0|Hn].
  - rewrite escaped_no_specials by assumption.
    rewrite string_of_list_ascii_of_string. reflexivity.
  - pose proof (fill_writes filter [] (replicate (String.length filter + specials filter * 2) zero)) as H.
    cbn [length app] in H. rewrite H.
    + cbn [fmap option_fmap option_map]. do 2 f_equal.
      rewrite drop_ge, app_nil_r; [reflexivity|].
      rewrite length_replicate, length_escaped. lia.
    + rewrite length_replicate, length_escaped. lia.
Qed.

(** C10. For every string [s], [EscapeFilter s] returns (without an index
    fault) the string in which exactly the bytes [c] with [c > 0x7f],
    [c = 0] or [c] one of [( ) \ *] are replaced by a backslash and the
    two lowercase hexadecimal digits of [c], every other byte staying in
    place; its length is [len s] plus twice the number of such bytes, and it
    is [s] itself when [s] has no such byte. *)
Theorem EscapeFilter_correct (s : string) :
  EscapeFilter s = Some (string_of_list_ascii (escaped s))
  /\ (forall c : ascii,
        hex_value (hex_digit (N_of_ascii c / 16)) = Some (N_of_ascii c / 16)%N
        /\ hex_value (hex_digit (N_of_ascii c mod 16)) = Some (N_of_ascii c mod 16)%N)
  /\ String.length (string_of_list_ascii (escaped s))
     = (String.length s + 2 * specials s)%nat
  /\ EscapeFilter s = Some (if (specials s =? 0)%nat then s else string_of_list_ascii (escaped s)).
Proof.
  split; [apply EscapeFilter_escaped|].
  split; [intros c; split; [apply hex_value_high | apply hex_value_low]|].
  split; [rewrite string_of_list_ascii_length; apply length_escaped|].
  rewrite EscapeFilter_escaped.
  destruct (Nat.eqb_spec (specials s) 0) as [H0|Hn]; [|reflexivity].
  rewrite escaped_no_specials by assumption.
  rewrite string_of_list_ascii_of_string. reflexivity.
Qed.

End ldap_facts.

(* ===================================================================== *)
(** * Go's string order on ids *)
(* ===================================================================== *)

Module order.

Lemma ascii_compare_refl (a : ascii) : Ascii.compare a a = Eq.
Proof. unfold Ascii.compare. apply N.compare_refl. Qed.

Lemma ascii_compare_lt_trans (a b c : ascii) :
  Ascii.compare a b = Lt -> Ascii.compare b c = Lt -> Ascii.compare a c = Lt.
Proof. unfold Ascii.compare. rewrite !N.compare_lt_iff. lia. Qed.

Lemma compare_refl (s : string) : String.compare s s = Eq.
Proof.
  induction s as [|a s IH]; simpl; [reflexivity|].
  rewrite ascii_compare_refl. exact IH.
Qed.

Lemma compare_eq (s t : string) : String.compare s t = Eq <-> s = t.
Proof.
  split; [apply String.compare_eq_iff|]. intros ->. apply compare_refl.
Qed.

Lemma compare_lt_trans (s : string) :
  forall t u, String.compare s t = Lt -> String.compare t u = Lt -> String.compare s u = Lt.
Proof.
  induction s as [|a s IH]; intros [|b t] [|c u]; simpl; try congruence.
  destruct (Ascii.compare a b) eqn:Hab; try discriminate;
    destruct (Ascii.compare b c) eqn:Hbc; try discriminate; intros H1 H2.
  - apply Ascii.compare_eq_iff in Hab, Hbc. subst.
    rewrite ascii_compare_refl. eauto.
  - apply Ascii.compare_eq_iff in Hab. subst. rewrite Hbc. reflexivity.
  - apply Ascii.compare_eq_iff in Hbc. subst. rewrite Hab. reflexivity.
  - rewrite (ascii_compare_lt_trans a b c Hab Hbc). reflexivity.
Qed.

Lemma leb_ltb (s t : string) : String.leb s t = negb (String.ltb t s).
Proof.
  unfold String.leb, String.ltb. rewrite (String.compare_antisym t s).
  destruct (String.compare s t); reflexivity.
Qed.

Lemma ltb_irrefl (s : string) : String.ltb s s = false.
Proof. unfold String.ltb. rewrite compare_refl. reflexivity. Qed.

Lemma leb_refl (s : string) : String.leb s s = true.
Proof. unfold String.leb. rewrite compare_refl. reflexivity. Qed.

Lemma ltb_leb (s t : string) : String.ltb s t = true -> String.leb s t = true.
Proof. unfold String.ltb, String.leb. destruct (String.compare s t); congruence. Qed.

Lemma ltb_trans (s t u : string) :
  String.ltb s t = true -> String.ltb t u = true -> String.ltb s u = true.
Proof.
  unfold String.ltb. intros H1 H2.
  destruct (String.compare s t) eqn:E1; try discriminate.
  destruct (String.compare t u) eqn:E2; try discriminate.
  rewrite (compare_lt_trans s t u E1 E2). reflexivity.
Qed.

Lemma leb_cases (s t : string) :
  String.leb s t = true <-> String.ltb s t = true \/ s = t.
Proof.
  unfold String.leb, String.ltb.
  destruct (String.compare s t) eqn:E; split; intros H; try auto; try discriminate.
  - right. apply compare_eq. exact E.
  - destruct H as [H|H]; [discriminate|]. apply compare_eq in H. congruence.
Qed.

Lemma leb_ltb_trans (s t u : string) :
  String.leb s t = true -> String.ltb t u = true -> String.ltb s u = true.
Proof.
  intros H1 H2. apply leb_cases in H1 as [H1| ->]; [|exact H2].
  exact (ltb_trans s t u H1 H2).
Qed.

Lemma ltb_leb_trans (s t u : string) :
  String.ltb s t = true -> String.leb t u = true -> String.ltb s u = true.
Proof.
  intros H1 H2. apply leb_cases in H2 as [H2| <-]; [|exact H1].
  exact (ltb_trans s t u H1 H2).
Qed.

Lemma leb_trans (s t u : string) :
  String.leb s t = true -> String.leb t u = true -> String.leb s u = true.
Proof.
  intros H1 H2. apply leb_cases in H1 as [H1| ->]; [|exact H2].
  apply ltb_leb. exact (ltb_leb_trans s t u H1 H2).
Qed.

Lemma ltb_false_leb (s t : string) : String.ltb s t = false -> String.leb t s = true.
Proof. intros H. rewrite leb_ltb, H. reflexivity. Qed.

(** [rollbackTo] is the minimum of Go's string order. *)
Lemma rollbackTo_min (rollbackId lastId : string) :
  mup.rollbackTo rollbackId lastId = mup.ObjectId_min rollbackId lastId.
Proof.
  unfold mup.rollbackTo, mup.ObjectId_min, String.ltb.
  destruct (String.compare rollbackId lastId) eqn:E; try reflexivity.
  apply compare_eq in E. congruence.
Qed.

Lemma min_leb_r (a b : string) : String.leb (mup.ObjectId_min a b) b = true.
Proof.
  unfold mup.ObjectId_min, String.leb.
  destruct (String.compare a b) eqn:E; rewrite ?E, ?compare_refl; reflexivity.
Qed.

Lemma min_leb_l (a b : string) : String.leb (mup.ObjectId_min a b) a = true.
Proof.
  unfold mup.ObjectId_min.
  destruct (String.compare a b) eqn:E; try apply leb_refl.
  unfold String.leb. rewrite String.compare_antisym, E. reflexivity.
Qed.

End order.

(* ===================================================================== *)
(** * Properties of the plugin manager *)
(* ===================================================================== *)

Module mup_facts.
Import mup.

Section Dispatch.

Context `{Externals}.

Implicit Types (m : pluginManager) (msg : Message) (name : string)
  (st : pluginState) (tr : list Event).

(** ** Events and the plugins they belong to *)

Lemma of_plugin_same name (e : Event) :
  event_plugin e = Some name -> of_plugin name e = true.
Proof. unfold of_plugin. intros ->. apply String.eqb_refl. Qed.

Lemma of_plugin_other name n (e : Event) :
  n <> name -> event_plugin e = Some n -> of_plugin name e = false.
Proof. unfold of_plugin. intros Hn ->. apply String.eqb_neq. exact Hn. Qed.

Lemma events_of_all name tr :
  Forall (fun e => event_plugin e = Some name) tr -> events_of name tr = tr.
Proof.
  unfold events_of. induction 1 as [|e tr He _ IH]; simpl; [reflexivity|].
  rewrite (of_plugin_same _ _ He), IH. reflexivity.
Qed.

Lemma events_of_none name n tr :
  n <> name -> Forall (fun e => event_plugin e = Some n) tr -> events_of name tr = [].
Proof.
  unfold events_of. intros Hn. induction 1 as [|e tr He _ IH]; simpl; [reflexivity|].
  rewrite (of_plugin_other _ _ _ Hn He), IH. reflexivity.
Qed.

Lemma events_of_app name tr1 tr2 :
  events_of name (tr1 ++ tr2) = events_of name tr1 ++ events_of name tr2.
Proof. apply List.filter_app. Qed.

Lemma handle_events name st msg cmdName :
  Forall (fun e => event_plugin e = Some name) (handle name st msg cmdName).
Proof.
  unfold handle, handleOutgoing, handleCommand, handleMessage.
  repeat match goal with
         | |- context [if ?b then _ else _] => destruct b
         | |- context [match ?x with _ => _ end] => destruct x
         end;
    repeat constructor.
Qed.

Lemma dispatch_events msg cmdName name st :
  Forall (fun e => event_plugin e = Some name) (snd (dispatch msg cmdName name st)).
Proof.
  unfold dispatch.
  destruct (_ || _); simpl; [constructor|].
  apply Forall_app. split; [apply handle_events | repeat constructor].
Qed.

(** The events of one plugin in a pass over a list of map entries with
    distinct keys are those of its own iteration. *)
Lemma events_of_pass msg cmdName name (l : list (string * pluginState)) :
  NoDup l.*1 ->
  events_of name
    (concat ((fun ns => snd (dispatch msg cmdName (fst ns) (snd ns))) <$> l))
  = match list_to_map (M := gmap string pluginState) l !! name with
    | Some st => snd (dispatch msg cmdName name st)
    | None => []
    end.
Proof.
  induction l as [|[n st] l IH]; intros Hnd.
  - reflexivity.
  - rewrite fmap_cons in Hnd. apply NoDup_cons in Hnd as [Hn Hnd]. cbn [fst] in Hn.
    apply (not_elem_of_list_to_map_1 (M := gmap string)) in Hn.
    rewrite fmap_cons. cbn [concat fst snd].
    rewrite events_of_app, (IH Hnd). cbn [list_to_map foldr fst snd uncurry].
    destruct (decide (n = name)) as [->|Hne].
    + rewrite lookup_insert_eq.
      rewrite (events_of_all _ _ (dispatch_events msg cmdName name st)).
      rewrite Hn, app_nil_r. reflexivity.
    + rewrite lookup_insert_ne by exact Hne.
      rewrite (events_of_none _ _ _ Hne (dispatch_events msg cmdName n st)).
      reflexivity.
Qed.

Lemma loop_incoming_events m msg name :
  String.eqb (Command msg) cmdPong = false ->
  events_of name (snd (loop_incoming m msg))
  = match plugins m !! name with
    | Some st => snd (dispatch msg (CommandName (BotText msg)) name st)
    | None => []
    end.
Proof.
  intros Hp. unfold loop_incoming. rewrite Hp. cbn [snd].
  rewrite events_of_pass by apply NoDup_fst_map_to_list.
  rewrite list_to_map_to_list. reflexivity.
Qed.

Lemma loop_incoming_plugins m msg name :
  String.eqb (Command msg) cmdPong = false ->
  plugins (fst (loop_incoming m msg)) !! name
  = (fun st => fst (dispatch msg (CommandName (BotText msg)) name st)) <$> plugins m !! name.
Proof.
  intros Hp. unfold loop_incoming. rewrite Hp. cbn [fst plugins set_plugins].
  rewrite map_lookup_imap. destruct (plugins m !! name); reflexivity.
Qed.

(** The test of line 257, read as the condition to dispatch. *)
Lemma dispatch_test msg st :
  String.leb (Id msg) (LastId (info st)) || negb (Target (plugger st) msg)
  = negb (String.ltb (LastId (info st)) (Id msg) && Target (plugger st) msg).
Proof. rewrite order.leb_ltb. rewrite negb_andb. reflexivity. Qed.

(** ** Order in a filtered trace *)

Lemma filter_cons_inv (p : Event -> bool) (a : Event) :
  forall (l ys : list Event),
    List.filter p l = a :: ys ->
    exists l1 l2, l = l1 ++ a :: l2 /\ List.filter p l2 = ys.
Proof.
  induction l as [|x l IH]; intros ys Hf; simpl in Hf; [discriminate|].
  destruct (p x).
  - injection Hf as -> <-. exists [], l. split; reflexivity.
  - destruct (IH ys Hf) as (l1 & l2 & -> & H2). exists (x :: l1), l2. split; [reflexivity|exact H2].
Qed.

Lemma filter_app_inv (p : Event -> bool) :
  forall (xs l ys : list Event),
    List.filter p l = xs ++ ys ->
    exists l1 l2, l = l1 ++ l2 /\ List.filter p l2 = ys.
Proof.
  induction xs as [|x xs IH]; intros l ys Hf.
  - exists [], l. split; [reflexivity|exact Hf].
  - simpl in Hf. apply filter_cons_inv in Hf as (k1 & k2 & -> & Hk).
    destruct (IH k2 ys Hk) as (j1 & j2 & -> & Hj).
    exists (k1 ++ x :: j1), j2. split; [|exact Hj].
    rewrite <- app_assoc. reflexivity.
Qed.

Lemma precedes_filter (p : Event -> bool) (a b : Event) (tr : list Event) :
  precedes a b (List.filter p tr) -> precedes a b tr.
Proof.
  intros (l1 & l2 & l3 & Hf).
  apply filter_app_inv in Hf as (k1 & k2 & -> & Hf).
  apply filter_cons_inv in Hf as (j1 & j2 & -> & Hf).
  apply filter_app_inv in Hf as (i1 & i2 & -> & Hf).
  apply filter_cons_inv in Hf as (h1 & h2 & -> & _).
  exists (k1 ++ j1), (i1 ++ h1), h2. rewrite <- !app_assoc. reflexivity.
Qed.

(** ** The dispatch loop *)

Lemma handle_no_write name st msg cmdName :
  Forall (fun e => forall id, e <> UpdateLastId name id) (handle name st msg cmdName).
Proof.
  unfold handle, handleOutgoing, handleCommand, handleMessage.
  repeat match goal with
         | |- context [if ?b then _ else _] => destruct b
         | |- context [match ?x with _ => _ end] => destruct x
         end;
    repeat constructor; discriminate.
Qed.

(** What a pass of the loop over a record that is not a pong does to one
    plugin. *)
Lemma dispatch_pass m msg name st :
  Command msg <> cmdPong ->
  plugins m !! name = Some st ->
  let go := String.ltb (LastId (info st)) (Id msg) && Target (plugger st) msg in
  let st' := set_info (set_LastId (Id msg) (info st)) st in
  events_of name (snd (loop_incoming m msg))
  = (if go then handle name st' msg (CommandName (BotText msg))
                ++ [UpdateLastId name (Id msg)]
     else [])
  /\ plugins (fst (loop_incoming m msg)) !! name = Some (if go then st' else st).
Proof.
  intros Hc Hst go st'. apply String.eqb_neq in Hc. split.
  - rewrite loop_incoming_events, Hst by exact Hc.
    unfold dispatch. rewrite dispatch_test. fold go. destruct go; reflexivity.
  - rewrite loop_incoming_plugins, Hst by exact Hc. cbn [fmap option_fmap option_map].
    unfold dispatch. rewrite dispatch_test. fold go. destruct go; reflexivity.
Qed.

Lemma elem_of_events_of name (e : Event) tr :
  e ∈ events_of name tr <-> e ∈ tr /\ of_plugin name e = true.
Proof. unfold events_of. rewrite !list_elem_of_In. apply List.filter_In. Qed.

(** C2, amended. For every inbound record that is not a pong and every
    active plugin, the record is dispatched to the plugin exactly when its
    id is strictly greater than the plugin's [LastId] and the plugin has a
    target for it; then the plugin's events are the calls of its handlers
    followed by the write of [lastid], and otherwise the plugin has no event
    and its state, [LastId] included, is unchanged. *)
Theorem dispatch_iff_newer_and_targeted m msg name st :
  Command msg <> cmdPong ->
  plugins m !! name = Some st ->
  let go := String.ltb (LastId (info st)) (Id msg) && Target (plugger st) msg in
  let st' := set_info (set_LastId (Id msg) (info st)) st in
  dispatch_rule m msg name st
  /\ events_of name (snd (loop_incoming m msg))
     = (if go then handle name st' msg (CommandName (BotText msg))
                   ++ [UpdateLastId name (Id msg)]
        else [])
  /\ plugins (fst (loop_incoming m msg)) !! name = Some (if go then st' else st).
Proof.
  intros Hc Hst go st'.
  destruct (dispatch_pass m msg name st Hc Hst) as [Hev Hpl].
  fold go st' in Hev, Hpl.
  split; [|split; [exact Hev | exact Hpl]].
  unfold dispatch_rule, dispatched. rewrite <- andb_true_iff. fold go.
  assert (Hw : UpdateLastId name (Id msg) ∈ snd (loop_incoming m msg)
               <-> UpdateLastId name (Id msg) ∈ events_of name (snd (loop_incoming m msg))).
  { rewrite elem_of_events_of. split; [|tauto].
    intros Hin. split; [exact Hin|]. apply of_plugin_same. reflexivity. }
  rewrite Hw, Hev. destruct go.
  - split; [reflexivity|]. intros _. apply elem_of_app. right. constructor.
  - split; [|discriminate]. intros Hin. inversion Hin.
Qed.

(** C7, amended. When a record is dispatched to a plugin, the plugin's
    [LastId] in memory becomes the record's id, the plugin's handlers are
    called with that state, and the id is written to the plugin's stored
    record after they return: the write is the plugin's last event of the
    pass, and every handler call comes before it. *)
Theorem handlers_run_before_lastid_is_persisted m msg name st :
  Command msg <> cmdPong ->
  plugins m !! name = Some st ->
  String.ltb (LastId (info st)) (Id msg) = true ->
  Target (plugger st) msg = true ->
  let st' := set_info (set_LastId (Id msg) (info st)) st in
  plugins (fst (loop_incoming m msg)) !! name = Some st'
  /\ LastId (info st') = Id msg
  /\ events_of name (snd (loop_incoming m msg))
     = handle name st' msg (CommandName (BotText msg)) ++ [UpdateLastId name (Id msg)]
  /\ (UpdateLastId name (Id msg) ∉ handle name st' msg (CommandName (BotText msg)))
  /\ forall e, e ∈ handle name st' msg (CommandName (BotText msg)) ->
       precedes e (UpdateLastId name (Id msg)) (snd (loop_incoming m msg)).
Proof.
  intros Hc Hst Hlt Htg st'.
  destruct (dispatch_pass m msg name st Hc Hst) as [Hev Hpl].
  rewrite Hlt, Htg in Hev, Hpl. cbn [andb] in Hev, Hpl. fold st' in Hev, Hpl.
  split; [exact Hpl|]. split; [reflexivity|]. split; [exact Hev|]. split.
  - intros Hin. pose proof (handle_no_write name st' msg (CommandName (BotText msg))) as Hf.
    rewrite Forall_forall in Hf. apply (Hf _ Hin (Id msg)). reflexivity.
  - intros e He. apply (precedes_filter (of_plugin name)).
    unfold events_of in Hev. rewrite Hev. apply list_elem_of_split in He as (l1 & l2 & ->).
    exists l1, l2, []. rewrite <- app_assoc. reflexivity.
Qed.

(** ** Commands that fail to parse *)

Lemma prefix_append (s t : string) : String.prefix s (String.append s t) = true.
Proof.
  induction s as [|a s IH]; simpl; [destruct t; reflexivity|].
  destruct (ascii_dec a a); [exact IH|congruence].
Qed.

Lemma dispatched_pass m msg name st :
  plugins m !! name = Some st ->
  dispatched name msg (snd (loop_incoming m msg)) ->
  events_of name (snd (loop_incoming m msg))
  = handle name (set_info (set_LastId (Id msg) (info st)) st) msg (CommandName (BotText msg))
    ++ [UpdateLastId name (Id msg)]
  /\ plugins (fst (loop_incoming m msg)) !! name
     = Some (set_info (set_LastId (Id msg) (info st)) st).
Proof.
  intros Hst Hd. unfold dispatched in Hd.
  destruct (String.eqb (Command msg) cmdPong) eqn:Hp.
  { unfold loop_incoming in Hd. rewrite Hp in Hd. inversion Hd. }
  apply String.eqb_neq in Hp. destruct (dispatch_pass m msg name st Hp Hst) as [Hev Hpl].
  assert (Hin : UpdateLastId name (Id msg) ∈ events_of name (snd (loop_incoming m msg))).
  { apply elem_of_events_of. split; [exact Hd|]. apply of_plugin_same. reflexivity. }
  rewrite Hev in Hin.
  destruct (String.ltb (LastId (info st)) (Id msg) && Target (plugger st) msg);
    [auto|inversion Hin].
Qed.

(** C8, amended. For every record dispatched to a plugin whose text names a
    command of the plugin's schema and fails to parse: the reply [Oops: ]
    followed by the error is sent through [Sendf] on the record exactly
    when the record has a nick, so that it is not one of the bot's own
    outgoing records, and the plugin implements the command handler.  The
    events of the plugin are then the reply, the call of the message
    handler if the plugin has one, and the write of the position.  A
    plugin without the command handler gets the message handler and the
    write only, and a record without a nick goes to the handler of
    outgoing records and the write only.  In every case the command
    handler is not called and control returns: the position is written and
    the plugin stays in the table, at the id of the record. *)
Theorem parse_failure_is_replied m name st msg cs err :
  plugins m !! name = Some st ->
  dispatched name msg (snd (loop_incoming m msg)) ->
  CommandName (BotText msg) <> EmptyString ->
  Commands_Command (spec_Commands (spec st)) (CommandName (BotText msg)) = Some cs ->
  Parse cs (BotText msg) = inr err ->
  (Sendf name msg (String.append "Oops: " err) ∈ snd (loop_incoming m msg)
   <-> AsNick msg <> EmptyString /\ isCommandHandler (plugin st) = true)
  /\ (AsNick msg <> EmptyString ->
      isCommandHandler (plugin st) = true ->
      events_of name (snd (loop_incoming m msg))
      = Sendf name msg (String.append "Oops: " err)
        :: handleMessage name st msg ++ [UpdateLastId name (Id msg)])
  /\ (AsNick msg <> EmptyString ->
      isCommandHandler (plugin st) = false ->
      events_of name (snd (loop_incoming m msg))
      = handleMessage name st msg ++ [UpdateLastId name (Id msg)])
  /\ (AsNick msg = EmptyString ->
      events_of name (snd (loop_incoming m msg))
      = handleOutgoing name st msg ++ [UpdateLastId name (Id msg)])
  /\ (forall cmd, HandleCommand name cmd ∉ snd (loop_incoming m msg))
  /\ String.prefix "Oops: " (String.append "Oops: " err) = true
  /\ plugins (fst (loop_incoming m msg)) !! name
     = Some (set_info (set_LastId (Id msg) (info st)) st)
  /\ handleCommand name st msg (CommandName (BotText msg))
     = (if isCommandHandler (plugin st)
        then [Sendf name msg (String.append "Oops: " err)] else []).
Proof.
  intros Hst Hd Hn Hcs Hp.
  destruct (dispatched_pass m msg name st Hst Hd) as [Hev Hpl].
  assert (Hmem : forall e, event_plugin e = Some name ->
            (e ∈ snd (loop_incoming m msg)
             <-> e ∈ events_of name (snd (loop_incoming m msg)))).
  { intros e He. rewrite elem_of_events_of. split; [|tauto].
    intros Hin. split; [exact Hin|]. apply of_plugin_same, He. }
  assert (Hh : handle name (set_info (set_LastId (Id msg) (info st)) st) msg
                 (CommandName (BotText msg))
               = if String.eqb (AsNick msg) EmptyString then handleOutgoing name st msg
                 else (if isCommandHandler (plugin st)
                       then [Sendf name msg (String.append "Oops: " err)] else [])
                      ++ handleMessage name st msg).
  { unfold handle, handleCommand, handleOutgoing, handleMessage.
    cbn [set_info spec plugin]. apply String.eqb_neq in Hn. rewrite Hn, Hcs, Hp.
    destruct (String.eqb (AsNick msg) EmptyString); [reflexivity|].
    destruct (isCommandHandler (plugin st)); reflexivity. }
  rewrite Hh in Hev. clear Hh.
  assert (Hcases : String.eqb (AsNick msg) EmptyString = true /\ AsNick msg = EmptyString
                   \/ String.eqb (AsNick msg) EmptyString = false /\ AsNick msg <> EmptyString).
  { destruct (String.eqb_spec (AsNick msg) EmptyString); auto. }
  split; [|split; [|split; [|split; [|split; [|split; [apply prefix_append|split; [exact Hpl|]]]]]]].
  6: { unfold handleCommand. apply String.eqb_neq in Hn. rewrite Hn, Hcs, Hp.
       destruct (isCommandHandler (plugin st)); reflexivity. }
  - rewrite (Hmem (Sendf name msg (String.append "Oops: " err)) eq_refl), Hev.
    destruct Hcases as [[Ha Ha'] | [Ha Ha']]; rewrite Ha.
    + unfold handleOutgoing. split; [|tauto].
      destruct (isOutgoingHandler (plugin st)); cbn [app]; intros Hin;
        repeat (apply elem_of_cons in Hin as [Hin | Hin]; [discriminate Hin|]);
        inversion Hin.
    + unfold handleMessage.
      destruct (isCommandHandler (plugin st)); cbn [app].
      * split; [auto|]. intros _. left.
      * split; [|intros [_ Hf]; discriminate Hf].
        destruct (isMessageHandler (plugin st)); cbn [app]; intros Hin;
          repeat (apply elem_of_cons in Hin as [Hin | Hin]; [discriminate Hin|]);
          inversion Hin.
  - intros Ha' Hc. rewrite Hev. apply String.eqb_neq in Ha'. rewrite Ha', Hc. reflexivity.
  - intros Ha' Hc. rewrite Hev. apply String.eqb_neq in Ha'. rewrite Ha', Hc. reflexivity.
  - intros Ha'. rewrite Hev. apply String.eqb_eq in Ha'. rewrite Ha'. reflexivity.
  - intros cmd. rewrite (Hmem (HandleCommand name cmd) eq_refl), Hev.
    unfold handleOutgoing, handleMessage.
    destruct (String.eqb (AsNick msg) EmptyString), (isCommandHandler (plugin st)),
      (isOutgoingHandler (plugin st)), (isMessageHandler (plugin st)); cbn [app]; intros Hin;
      repeat (apply elem_of_cons in Hin as [Hin | Hin]; [discriminate Hin|]);
      inversion Hin.
Qed.

(** ** The LDAP lookup *)

(** C9, amended. While the manager's tomb is alive, a request for the LDAP
    connection of a name returns the connection handle of the managed
    connection the lookup table has for the name, and for a name that is
    not in the table the error [LDAP connection %q not found]; the call is a
    lookup under the mutex and always returns.  (Once the tomb is dead the
    call panics.) *)
Theorem ldapConn_lookup m name :
  alive m = true ->
  ldap_lookup_rule m name
  /\ (forall r, ldapConn m name = r ->
        (exists c, r = Ok c)
        \/ r = Err (Errorf "LDAP connection %q not found" name)).
Proof.
  intros Ha. unfold ldap_lookup_rule, ldapConn. rewrite Ha. cbn [negb].
  split.
  - destruct (ldapConns m !! name) as [mconn|]; [|reflexivity].
    intros c ->. reflexivity.
  - intros r <-. destruct (ldapConns m !! name) as [mconn|]; [|right; reflexivity].
    destruct (mconn_Conn mconn) as [c|]; [left; exists c|right]; reflexivity.
Qed.

End Dispatch.

(** ** The refresh pass *)

Section Refresh.

Context `{Externals}.
Variable registeredPlugins : gmap string PluginSpec.

Implicit Types (m : pluginManager) (env : RefreshEnv) (v : refreshVars)
  (i : pluginInfo) (infos : list pluginInfo) (n : string).

Lemma NewObjectIdWithTime_Valid (t : Z) : Valid (NewObjectIdWithTime t) = true.
Proof. reflexivity. Qed.

Lemma startedLastId_Valid (now : Z) i : Valid (startedLastId now i) = true.
Proof.
  unfold startedLastId.
  destruct (Valid (LastId i)) eqn:Hv; cbn [andb]; [|reflexivity].
  destruct (String.leb _ _); [exact Hv | reflexivity].
Qed.

Lemma Valid_not_empty (id : ObjectId) : Valid id = true -> id <> EmptyString.
Proof. intros Hv ->. discriminate. Qed.

Lemma set_LastId_same i : set_LastId (LastId i) i = i.
Proof. destruct i; reflexivity. Qed.

(** [startPlugin] succeeds exactly for registered plugins, and starts the
    plugin with the fetched document at position [startedLastId]. *)
Lemma startPlugin_registered (now : Z) i (sp : PluginSpec) :
  registeredPlugins !! pluginKey (Name i) = Some sp ->
  startPlugin registeredPlugins now i
  = Some {| info := set_LastId (startedLastId now i) i; spec := sp;
            plugger := {| plugger_name := Name i; plugger_config := Config i;
                          plugger_targets := Targets i |};
            plugin := spec_Start sp {| plugger_name := Name i; plugger_config := Config i;
                                       plugger_targets := Targets i |} |}.
Proof.
  intros Hr. unfold startPlugin, startedLastId. rewrite Hr.
  rewrite order.leb_ltb.
  destruct (Valid (LastId i)); cbn [negb orb andb]; [|reflexivity].
  destruct (String.ltb (LastId i) _); cbn [negb]; [reflexivity|].
  rewrite set_LastId_same. reflexivity.
Qed.

Lemma startPlugin_unregistered (now : Z) i :
  registeredPlugins !! pluginKey (Name i) = None ->
  startPlugin registeredPlugins now i = None.
Proof. intros Hr. unfold startPlugin. rewrite Hr. reflexivity. Qed.

(** *** One document *)

Lemma refresh_info_rollbackId m env v i :
  r_plugins v !! Name i = plugins m !! Name i ->
  r_rollbackId (refresh_info registeredPlugins (config_Plugins m) env v i)
  = if starts registeredPlugins m i
    then lower (r_rollbackId v) (startedLastId (clock env (Name i)) i)
    else r_rollbackId v.
Proof.
  intros Hl. unfold refresh_info, starts. rewrite Hl.
  destruct (pluginOn (config_Plugins m) (Name i)); cbn [negb andb]; [|reflexivity].
  destruct (registeredPlugins !! pluginKey (Name i)) as [sp|] eqn:Hr.
  - rewrite (startPlugin_registered _ _ _ Hr).
    rewrite bool_decide_true by eauto. cbn [andb].
    destruct (plugins m !! Name i) as [st|]; [|reflexivity].
    destruct (pluginChanged (info st) i); reflexivity.
  - rewrite (startPlugin_unregistered _ _ Hr).
    rewrite bool_decide_false by (intros [? ?]; discriminate). cbn [andb].
    destruct (plugins m !! Name i) as [st|]; [|reflexivity].
    destruct (pluginChanged (info st) i); reflexivity.
Qed.

Lemma refresh_info_other (Plugins : option (list string)) env v i n :
  Name i <> n ->
  r_plugins (refresh_info registeredPlugins Plugins env v i) !! n = r_plugins v !! n.
Proof.
  intros Hn. unfold refresh_info.
  destruct (pluginOn Plugins (Name i)); cbn [negb]; [|reflexivity].
  destruct (r_plugins v !! Name i) as [st|];
    [destruct (pluginChanged (info st) i); cbn [negb]; [|reflexivity]|];
    destruct (startPlugin registeredPlugins (clock env (Name i)) i); cbn [r_plugins];
    rewrite ?lookup_insert_ne, ?lookup_delete_ne by exact Hn; reflexivity.
Qed.

Lemma refresh_info_seen (Plugins : option (list string)) env v i n :
  n ∈ r_seen v -> n ∈ r_seen (refresh_info registeredPlugins Plugins env v i).
Proof.
  intros Hn. unfold refresh_info.
  destruct (pluginOn Plugins (Name i)); cbn [negb]; [|exact Hn].
  destruct (r_plugins v !! Name i) as [st|];
    [destruct (pluginChanged (info st) i); cbn [negb]|];
    try destruct (startPlugin registeredPlugins (clock env (Name i)) i); cbn [r_seen];
    set_solver.
Qed.

Lemma refresh_info_trace (Plugins : option (list string)) env v i :
  exists post,
    r_trace (refresh_info registeredPlugins Plugins env v i) = r_trace v ++ post
    /\ Forall (fun e => event_plugin e <> None) post.
Proof.
  unfold refresh_info.
  destruct (pluginOn Plugins (Name i)); cbn [negb];
    [|exists []; rewrite app_nil_r; split; [reflexivity|constructor]].
  destruct (r_plugins v !! Name i) as [st|];
    [destruct (pluginChanged (info st) i); cbn [negb]|];
    try destruct (startPlugin registeredPlugins (clock env (Name i)) i); cbn [r_trace];
    rewrite <- ?app_assoc;
    eexists; (split; [try reflexivity; symmetry; apply app_nil_r|]);
    repeat constructor; discriminate.
Qed.

(** *** The loop over the documents *)

Lemma refresh_fold_other (Plugins : option (list string)) env infos :
  forall v n,
    n ∉ Name <$> infos ->
    r_plugins (foldl (refresh_info registeredPlugins Plugins env) v infos) !! n
    = r_plugins v !! n.
Proof.
  induction infos as [|i infos IH]; intros v n Hn; [reflexivity|].
  rewrite fmap_cons in Hn. apply not_elem_of_cons in Hn as [Hi Hn].
  cbn [foldl]. rewrite (IH _ _ Hn). apply refresh_info_other. congruence.
Qed.

Lemma refresh_fold_seen (Plugins : option (list string)) env infos :
  forall v n,
    n ∈ r_seen v ->
    n ∈ r_seen (foldl (refresh_info registeredPlugins Plugins env) v infos).
Proof.
  induction infos as [|i infos IH]; intros v n Hn; [exact Hn|].
  cbn [foldl]. apply IH, refresh_info_seen, Hn.
Qed.

Lemma refresh_fold_trace (Plugins : option (list string)) env infos :
  forall v,
    exists post,
      r_trace (foldl (refresh_info registeredPlugins Plugins env) v infos)
      = r_trace v ++ post
      /\ Forall (fun e => event_plugin e <> None) post.
Proof.
  induction infos as [|i infos IH]; intros v.
  - exists []. rewrite app_nil_r. split; [reflexivity|constructor].
  - cbn [foldl].
    destruct (IH (refresh_info registeredPlugins Plugins env v i)) as (post2 & -> & H2).
    destruct (refresh_info_trace Plugins env v i) as (post1 & -> & H1).
    exists (post1 ++ post2). rewrite app_assoc. split; [reflexivity|].
    apply Forall_app. split; assumption.
Qed.

(** The lookups the rest of the loop still needs are those of the start of
    the pass. *)
Lemma refresh_info_keeps m env v i infos :
  Name i ∉ Name <$> infos ->
  (forall j, j ∈ i :: infos -> r_plugins v !! Name j = plugins m !! Name j) ->
  forall j, j ∈ infos ->
    r_plugins (refresh_info registeredPlugins (config_Plugins m) env v i) !! Name j
    = plugins m !! Name j.
Proof.
  intros Hi Hv j Hj. rewrite refresh_info_other.
  - apply Hv. right. exact Hj.
  - intros Heq. apply Hi. rewrite Heq. apply list_elem_of_fmap_2. exact Hj.
Qed.

Lemma refresh_fold_rollbackId m env infos :
  forall v,
    NoDup (Name <$> infos) ->
    (forall j, j ∈ infos -> r_plugins v !! Name j = plugins m !! Name j) ->
    r_rollbackId (foldl (refresh_info registeredPlugins (config_Plugins m) env) v infos)
    = foldl lower (r_rollbackId v)
        ((fun i => startedLastId (clock env (Name i)) i)
           <$> started registeredPlugins m infos).
Proof.
  induction infos as [|i infos IH]; intros v Hnd Hv; [reflexivity|].
  rewrite fmap_cons in Hnd. apply NoDup_cons in Hnd as [Hi Hnd].
  cbn [foldl]. rewrite IH; [|exact Hnd|exact (refresh_info_keeps m env v i infos Hi Hv)].
  rewrite refresh_info_rollbackId by (apply Hv; left).
  unfold started. cbn [List.filter].
  destruct (starts registeredPlugins m i); reflexivity.
Qed.

(** *** The least position *)

Lemma lower_empty (id : ObjectId) : lower EmptyString id = id.
Proof. reflexivity. Qed.

Lemma lower_min (acc id : ObjectId) :
  acc <> EmptyString -> lower acc id = ObjectId_min id acc.
Proof.
  intros Ha. unfold lower. apply String.eqb_neq in Ha. rewrite Ha. cbn [orb].
  apply order.rollbackTo_min.
Qed.

Lemma min_cases (a b : ObjectId) : ObjectId_min a b = a \/ ObjectId_min a b = b.
Proof. unfold ObjectId_min. destruct (String.compare a b); auto. Qed.

Lemma foldl_lower_least (ids : list ObjectId) :
  forall acc,
    acc <> EmptyString ->
    Forall (fun id => id <> EmptyString) ids ->
    let r := foldl lower acc ids in
    (r = acc \/ r ∈ ids)
    /\ String.leb r acc = true
    /\ Forall (fun id => String.leb r id = true) ids
    /\ r <> EmptyString.
Proof.
  induction ids as [|id ids IH]; intros acc Ha Hids r.
  - subst r. cbn [foldl]. repeat split; [left; reflexivity|apply order.leb_refl|constructor|exact Ha].
  - apply Forall_cons in Hids as [Hid Hids]. subst r. cbn [foldl].
    rewrite (lower_min _ _ Ha).
    assert (Hm : ObjectId_min id acc <> EmptyString)
      by (destruct (min_cases id acc) as [-> | ->]; assumption).
    destruct (IH _ Hm Hids) as (Hin & Hle & Hall & Hne).
    repeat split.
    + destruct Hin as [Hin|Hin].
      * rewrite Hin. destruct (min_cases id acc) as [-> | ->];
          [right; left|left; reflexivity].
      * right. right. exact Hin.
    + exact (order.leb_trans _ _ _ Hle (order.min_leb_r id acc)).
    + constructor; [|exact Hall].
      exact (order.leb_trans _ _ _ Hle (order.min_leb_l id acc)).
    + exact Hne.
Qed.

Lemma foldl_lower_is_min (ids : list ObjectId) :
  ids <> [] ->
  Forall (fun id => id <> EmptyString) ids ->
  is_min (foldl lower EmptyString ids) ids /\ foldl lower EmptyString ids <> EmptyString.
Proof.
  destruct ids as [|id ids]; [congruence|]. intros _ Hids.
  apply Forall_cons in Hids as [Hid Hids]. cbn [foldl]. rewrite lower_empty.
  destruct (foldl_lower_least ids id Hid Hids) as (Hin & Hle & Hall & Hne).
  split; [|exact Hne]. split.
  - destruct Hin as [-> | Hin]; [left|right; exact Hin].
  - constructor; assumption.
Qed.

(** *** Removal, and the pass as a whole *)

Lemma refresh_remove_rollbackId (known : nat) v :
  r_rollbackId (refresh_remove known v) = r_rollbackId v.
Proof. unfold refresh_remove. destruct (known =? r_found v)%nat; reflexivity. Qed.

Lemma refresh_remove_trace (known : nat) v :
  exists post,
    r_trace (refresh_remove known v) = r_trace v ++ post
    /\ Forall (fun e => event_plugin e <> None) post.
Proof.
  unfold refresh_remove. destruct (known =? r_found v)%nat.
  - exists []. rewrite app_nil_r. split; [reflexivity|constructor].
  - eexists. split; [reflexivity|].
    apply Forall_fmap, Forall_forall. intros ns _. discriminate.
Qed.

Lemma refresh_remove_seen (known : nat) v n :
  n ∈ r_seen v -> r_plugins (refresh_remove known v) !! n = r_plugins v !! n.
Proof.
  intros Hn. unfold refresh_remove. destruct (known =? r_found v)%nat; [reflexivity|].
  cbn [r_plugins]. destruct (r_plugins v !! n) as [st|] eqn:Hl.
  - apply map_lookup_filter_Some. split; [exact Hl | exact Hn].
  - apply map_lookup_filter_None. left. exact Hl.
Qed.

(** The events of a pass up to the wake-up record are events of plugins, and
    the id of the request is the least position of the started plugins. *)
Lemma refreshPlugins_trace m env infos :
  fetched env = Some infos ->
  NoDup (Name <$> infos) ->
  exists v,
    snd (refreshPlugins registeredPlugins m env) = refresh_rollback env v
    /\ Forall (fun e => event_plugin e <> None) (r_trace v)
    /\ r_rollbackId v
       = foldl lower EmptyString
           ((fun i => startedLastId (clock env (Name i)) i)
              <$> started registeredPlugins m infos).
Proof.
  intros Hf Hnd. unfold refreshPlugins. rewrite Hf. cbn [snd].
  set (v0 := {| r_plugins := plugins m; r_seen := ∅; r_found := 0;
                r_rollbackId := EmptyString; r_trace := [] |}).
  set (v1 := foldl (refresh_info registeredPlugins (config_Plugins m) env) v0 infos).
  exists (refresh_remove (size (plugins m)) v1). split; [reflexivity|]. split.
  - destruct (refresh_remove_trace (size (plugins m)) v1) as (post2 & -> & H2).
    destruct (refresh_fold_trace (config_Plugins m) env infos v0) as (post1 & H1e & H1).
    fold v1 in H1e. rewrite H1e. cbn [r_trace v0 app].
    apply Forall_app. split; assumption.
  - rewrite refresh_remove_rollbackId. unfold v1.
    rewrite (refresh_fold_rollbackId m env infos v0 Hnd); [reflexivity|].
    intros j _. reflexivity.
Qed.

(** C3, amended. When a refresh pass starts or restarts at least one plugin,
    the wake-up record is inserted and the rollback channel accepts the
    send, the pass ends with the insertion of the wake-up record followed
    by one rollback request, and these are its only writes to the incoming
    log and to the rollback channel; the id requested is the least of the
    positions of the plugins started in the pass, where the position of a
    plugin is its persisted [LastId] when that is a valid id not older than
    the rollback limit, and the id of the limit otherwise. *)
Theorem refresh_requests_rollback_to_least m env infos :
  fetched env = Some infos ->
  NoDup (Name <$> infos) ->
  started registeredPlugins m infos <> [] ->
  wake_inserted env = true ->
  rollback_taken env = true ->
  rollback_request_rule registeredPlugins
    (fun i => startedLastId (clock env (Name i)) i) m env infos.
Proof.
  intros Hf Hnd Hs Hw Ht.
  destruct (refreshPlugins_trace m env infos Hf Hnd) as (v & Htr & Hpl & Hrb).
  set (ids := (fun i => startedLastId (clock env (Name i)) i)
                <$> started registeredPlugins m infos) in *.
  destruct (foldl_lower_is_min ids) as [Hmin Hne].
  - unfold ids. destruct (started registeredPlugins m infos); [congruence|discriminate].
  - unfold ids. apply Forall_fmap, Forall_forall. intros i _.
    apply Valid_not_empty, startedLastId_Valid.
  - exists (r_trace v), (r_rollbackId v). split; [|split; [exact Hpl|]].
    + rewrite Htr. unfold refresh_rollback. rewrite Hrb.
      apply String.eqb_neq in Hne. rewrite Hne, Hw, Ht. reflexivity.
    + rewrite Hrb. exact Hmin.
Qed.

(** The only record a pass inserts into the incoming log is the wake-up
    record. *)
Lemma refreshPlugins_inserts_wake m env msg :
  InsertIncoming msg ∈ snd (refreshPlugins registeredPlugins m env) -> msg = wakeMessage.
Proof.
  unfold refreshPlugins. destruct (fetched env) as [infos|]; cbn [snd]; [|intros Hin; inversion Hin].
  set (v0 := {| r_plugins := plugins m; r_seen := ∅; r_found := 0;
                r_rollbackId := EmptyString; r_trace := [] |}).
  set (v1 := foldl (refresh_info registeredPlugins (config_Plugins m) env) v0 infos).
  destruct (refresh_remove_trace (size (plugins m)) v1) as (post2 & Ht2 & H2).
  destruct (refresh_fold_trace (config_Plugins m) env infos v0) as (post1 & Ht1 & H1).
  fold v1 in Ht1. cbn [r_trace v0 app] in Ht1.
  assert (Hpl : Forall (fun e => event_plugin e <> None)
                  (r_trace (refresh_remove (size (plugins m)) v1))).
  { rewrite Ht2, Ht1. apply Forall_app. split; assumption. }
  assert (Hno : InsertIncoming msg ∉ r_trace (refresh_remove (size (plugins m)) v1)).
  { intros Hin. rewrite Forall_forall in Hpl. exact (Hpl _ Hin eq_refl). }
  unfold refresh_rollback.
  destruct (String.eqb _ _); [intros Hin; contradiction|].
  destruct (negb _); [intros Hin; contradiction|].
  destruct (rollback_taken env); intros Hin;
    apply elem_of_app in Hin as [Hin|Hin]; try contradiction;
    repeat (apply elem_of_cons in Hin as [Hin|Hin]; [congruence|]); inversion Hin.
Qed.

(** C4. A record whose command is the pong marker reaches no handler: the
    pass of the loop that consumes it calls no message, command or outgoing
    handler, writes no [lastid], and leaves every plugin's [LastId] as it
    was.  The wake-up record carries the pong command and the reserved
    account, and it is the only record a refresh pass inserts, so no record
    inserted by the rollback coordinator reaches a handler. *)
Theorem pong_reaches_no_handler m msg :
  Command msg = cmdPong ->
  loop_incoming m msg = (m, [])
  /\ Command wakeMessage = cmdPong
  /\ Account wakeMessage = rollbackAccount
  /\ (forall m' env wake,
        InsertIncoming wake ∈ snd (refreshPlugins registeredPlugins m' env) ->
        Command wake = cmdPong /\ loop_incoming m wake = (m, [])).
Proof.
  intros Hc.
  assert (Hp : forall w, Command w = cmdPong -> loop_incoming m w = (m, [])).
  { intros w Hw. unfold loop_incoming. rewrite Hw, String.eqb_refl. reflexivity. }
  split; [exact (Hp msg Hc)|]. split; [reflexivity|]. split; [reflexivity|].
  intros m' env wake Hin. apply refreshPlugins_inserts_wake in Hin as ->.
  split; [reflexivity|]. apply Hp. reflexivity.
Qed.

(** *** What holds of every running plugin *)

Lemma plugins_ok_insert (Plugins : option (list string)) (ps : gmap string pluginState) n st :
  plugins_ok registeredPlugins Plugins ps ->
  pluginOn Plugins n = true ->
  registeredPlugins !! pluginKey n = Some (spec st) ->
  Name (info st) = n ->
  plugger_name (plugger st) = n ->
  plugins_ok registeredPlugins Plugins (<[ n := st ]> ps).
Proof.
  intros Hok H1 H2 H3 H4 name st' Hl.
  destruct (decide (n = name)) as [<-|Hne].
  - rewrite lookup_insert_eq in Hl. injection Hl as <-. auto.
  - rewrite lookup_insert_ne in Hl by exact Hne. exact (Hok _ _ Hl).
Qed.

Lemma plugins_ok_delete (Plugins : option (list string)) (ps : gmap string pluginState) n :
  plugins_ok registeredPlugins Plugins ps ->
  plugins_ok registeredPlugins Plugins (delete n ps).
Proof.
  intros Hok name st Hl. apply lookup_delete_Some in Hl as [_ Hl]. exact (Hok _ _ Hl).
Qed.

Lemma startPlugin_Some (now : Z) i st :
  startPlugin registeredPlugins now i = Some st ->
  registeredPlugins !! pluginKey (Name i) = Some (spec st)
  /\ Name (info st) = Name i
  /\ plugger_name (plugger st) = Name i.
Proof.
  destruct (registeredPlugins !! pluginKey (Name i)) as [sp|] eqn:Hr.
  - rewrite (startPlugin_registered _ _ _ Hr). intros [= <-]. auto.
  - rewrite (startPlugin_unregistered _ _ Hr). discriminate.
Qed.

Lemma refresh_info_ok (Plugins : option (list string)) env v i :
  plugins_ok registeredPlugins Plugins (r_plugins v) ->
  plugins_ok registeredPlugins Plugins
    (r_plugins (refresh_info registeredPlugins Plugins env v i)).
Proof.
  intros Hok. unfold refresh_info.
  destruct (pluginOn Plugins (Name i)) eqn:Hon; cbn [negb]; [|exact Hok].
  destruct (r_plugins v !! Name i) as [st|];
    [destruct (pluginChanged (info st) i); cbn [negb]; [|exact Hok]|];
    destruct (startPlugin registeredPlugins (clock env (Name i)) i) as [st'|] eqn:Hs;
    cbn [r_plugins]; try exact Hok; try (apply plugins_ok_delete; exact Hok);
    apply startPlugin_Some in Hs as (H2 & H3 & H4);
    apply plugins_ok_insert; auto using plugins_ok_delete.
Qed.

Lemma refreshPlugins_ok m env :
  plugins_ok registeredPlugins (config_Plugins m) (plugins m) ->
  plugins_ok registeredPlugins (config_Plugins m)
    (plugins (fst (refreshPlugins registeredPlugins m env))).
Proof.
  intros Hok. unfold refreshPlugins.
  destruct (fetched env) as [infos|]; cbn [fst plugins set_plugins]; [|exact Hok].
  set (v0 := {| r_plugins := plugins m; r_seen := ∅; r_found := 0;
                r_rollbackId := EmptyString; r_trace := [] |}).
  assert (H1 : forall v,
             plugins_ok registeredPlugins (config_Plugins m) (r_plugins v) ->
             plugins_ok registeredPlugins (config_Plugins m)
               (r_plugins (foldl (refresh_info registeredPlugins (config_Plugins m) env)
                             v infos))).
  { induction infos as [|i infos IH]; intros v Hv; [exact Hv|].
    cbn [foldl]. apply IH, refresh_info_ok, Hv. }
  specialize (H1 v0 Hok). revert H1.
  generalize (foldl (refresh_info registeredPlugins (config_Plugins m) env) v0 infos) as v1.
  intros v1 H1. unfold refresh_remove.
  destruct (size (plugins m) =? r_found v1)%nat; [exact H1|].
  cbn [r_plugins]. intros name st Hl.
  apply map_lookup_filter_Some in Hl as [Hl _]. exact (H1 _ _ Hl).
Qed.

Lemma loop_incoming_ok m msg :
  plugins_ok registeredPlugins (config_Plugins m) (plugins m) ->
  plugins_ok registeredPlugins (config_Plugins m) (plugins (fst (loop_incoming m msg))).
Proof.
  intros Hok. unfold loop_incoming.
  destruct (String.eqb (Command msg) cmdPong); cbn [fst plugins set_plugins]; [exact Hok|].
  intros name st Hl. rewrite map_lookup_imap in Hl.
  destruct (plugins m !! name) as [st0|] eqn:H0; [|discriminate].
  cbn [mbind option_bind] in Hl. injection Hl as <-.
  destruct (Hok _ _ H0) as (H1 & H2 & H3 & H4).
  unfold dispatch. destruct (_ || _); cbn [fst]; auto.
Qed.

Lemma loop_incoming_config m msg :
  config_Plugins (fst (loop_incoming m msg)) = config_Plugins m.
Proof. unfold loop_incoming. destruct (String.eqb _ _); reflexivity. Qed.

Lemma refreshPlugins_config m env :
  config_Plugins (fst (refreshPlugins registeredPlugins m env)) = config_Plugins m.
Proof. unfold refreshPlugins. destruct (fetched env); reflexivity. Qed.

Lemma reachable_ok m :
  reachable registeredPlugins m ->
  plugins_ok registeredPlugins (config_Plugins m) (plugins m).
Proof.
  induction 1 as [Plugins conns|m msg _ IH|m env _ IH|m _ IH].
  - intros name st Hl. cbn [plugins] in Hl. rewrite lookup_empty in Hl. discriminate.
  - rewrite loop_incoming_config. apply loop_incoming_ok, IH.
  - rewrite refreshPlugins_config. apply refreshPlugins_ok, IH.
  - exact IH.
Qed.

(** *** Restarting a changed plugin *)

Lemma refresh_info_restart (Plugins : option (list string)) env v i st sp :
  pluginOn Plugins (Name i) = true ->
  r_plugins v !! Name i = Some st ->
  pluginChanged (info st) i = true ->
  registeredPlugins !! pluginKey (Name i) = Some sp ->
  let v' := refresh_info registeredPlugins Plugins env v i in
  r_plugins v' !! Name i = startPlugin registeredPlugins (clock env (Name i)) i
  /\ Name i ∈ r_seen v'
  /\ r_trace v'
     = r_trace v ++ [PluginStop (Name i); PluginStart (Name i); UpdateCommands (Name i)].
Proof.
  intros Hon Hl Hch Hr. unfold refresh_info. rewrite Hon, Hl, Hch. cbn [negb].
  rewrite (startPlugin_registered _ _ _ Hr). cbn [r_plugins r_seen r_trace].
  rewrite lookup_insert_eq, <- app_assoc. repeat split. set_solver.
Qed.

Lemma refresh_fold_restart m env infos :
  forall v i st sp,
    NoDup (Name <$> infos) ->
    i ∈ infos ->
    (forall j, j ∈ infos -> r_plugins v !! Name j = plugins m !! Name j) ->
    pluginOn (config_Plugins m) (Name i) = true ->
    plugins m !! Name i = Some st ->
    pluginChanged (info st) i = true ->
    registeredPlugins !! pluginKey (Name i) = Some sp ->
    let v' := foldl (refresh_info registeredPlugins (config_Plugins m) env) v infos in
    r_plugins v' !! Name i = startPlugin registeredPlugins (clock env (Name i)) i
    /\ Name i ∈ r_seen v'
    /\ exists pre post,
         r_trace v'
         = pre ++ PluginStop (Name i) :: [] ++ PluginStart (Name i) :: post.
Proof.
  induction infos as [|i0 infos IH]; intros v i st sp Hnd Hin Hv Hon Hst Hch Hr v'.
  - inversion Hin.
  - rewrite fmap_cons in Hnd. apply NoDup_cons in Hnd as [Hi0 Hnd].
    subst v'. cbn [foldl].
    apply elem_of_cons in Hin as [-> | Hin].
    + assert (Hl : r_plugins v !! Name i0 = Some st) by (rewrite Hv; [exact Hst|left]).
      destruct (refresh_info_restart (config_Plugins m) env v i0 st sp Hon Hl Hch Hr)
        as (Hp & Hs & Ht).
      split; [|split].
      * rewrite refresh_fold_other by exact Hi0. exact Hp.
      * apply refresh_fold_seen. exact Hs.
      * destruct (refresh_fold_trace (config_Plugins m) env infos
                    (refresh_info registeredPlugins (config_Plugins m) env v i0))
          as (post & -> & _).
        rewrite Ht. exists (r_trace v), (UpdateCommands (Name i0) :: post).
        rewrite <- app_assoc. reflexivity.
    + apply (IH _ i st sp Hnd Hin); try assumption.
      exact (refresh_info_keeps m env v i0 infos Hi0 Hv).
Qed.

(** C6, amended. In every state the manager reaches, when the
    configuration or the targets of a running plugin differ from the
    fetched document, the pass stops the old instance and then starts a new
    one under the same name with the fetched configuration and targets; the
    position of the new instance is the persisted [LastId] of the document
    when that is a valid id not older than the rollback limit, and the id
    of the limit otherwise. *)
Theorem changed_plugin_is_restarted m env infos i st :
  reachable registeredPlugins m ->
  fetched env = Some infos ->
  NoDup (Name <$> infos) ->
  i ∈ infos ->
  plugins m !! Name i = Some st ->
  pluginChanged (info st) i = true ->
  restart_rule registeredPlugins (fun i => startedLastId (clock env (Name i)) i) m env i.
Proof.
  intros Hreach Hf Hnd Hin Hst Hch.
  destruct (reachable_ok m Hreach _ _ Hst) as (Hon & Hr & _).
  revert Hr. generalize (spec st) as sp. intros sp Hr.
  unfold restart_rule, refreshPlugins. rewrite Hf.
  cbn [fst snd plugins set_plugins].
  set (v0 := {| r_plugins := plugins m; r_seen := ∅; r_found := 0;
                r_rollbackId := EmptyString; r_trace := [] |}).
  destruct (refresh_fold_restart m env infos v0 i st sp Hnd Hin) as (Hp & Hs & pre & post & Ht);
    try assumption; [intros j _; reflexivity|].
  set (v1 := foldl (refresh_info registeredPlugins (config_Plugins m) env) v0 infos) in *.
  rewrite (startPlugin_registered _ _ _ Hr) in Hp.
  eexists. split; [rewrite refresh_remove_seen by exact Hs; exact Hp|].
  cbn [info plugger Name Config Targets LastId set_LastId plugger_name].
  do 5 (split; [reflexivity|]).
  destruct (refresh_remove_trace (size (plugins m)) v1) as (post2 & Ht2 & _).
  assert (Hext : exists post3,
             refresh_rollback env (refresh_remove (size (plugins m)) v1)
             = r_trace (refresh_remove (size (plugins m)) v1) ++ post3).
  { unfold refresh_rollback.
    destruct (String.eqb _ _); [exists []; symmetry; apply app_nil_r|].
    destruct (negb _); [exists []; symmetry; apply app_nil_r|].
    destruct (rollback_taken env); eexists; reflexivity. }
  destruct Hext as (post3 & ->). rewrite Ht2, Ht.
  exists pre, [], (post ++ post2 ++ post3).
  cbn [app]. rewrite <- !app_assoc. cbn [app]. reflexivity.
Qed.

End Refresh.

(** ** The tail loop and rollback requests *)

Section Tail.

Implicit Types (s : tailState) (R : ObjectId).

Lemma tail_step_rollback_lastId (incoming : list Message) s R :
  (phase s = NextTail \/ exists bound rest msg, phase s = Delivering bound rest msg) ->
  lastId (tail_step incoming s (Rollback R)) = rollbackTo R (lastId s).
Proof.
  unfold tail_step, rollbackTo.
  intros [Hp | (bound & rest & msg & Hp)]; rewrite Hp.
  - reflexivity.
  - destruct (String.ltb R (lastId s)); reflexivity.
Qed.

End Tail.

(** ** The account manager *)

Section Outbound.

Context `{Externals}.

Implicit Types (db : accountDB) (msg r : Message) (client : ircClient)
  (outgoing rest : list Message) (s : outState) (inputs : list outInput).

(** *** Ids in hexadecimal *)

Lemma hex_byte_roundtrip (c : ascii) :
  (h ← fromHexChar (ldap.hex_digit (N_of_ascii c / 16));
   l ← fromHexChar (ldap.hex_digit (N_of_ascii c mod 16));
   Some (ascii_of_N (h * 16 + l))) = Some c.
Proof. ldap_facts.each_byte c; reflexivity. Qed.

Lemma hex_DecodeString_Hex (id : ObjectId) : hex_DecodeString (Hex id) = Some id.
Proof.
  induction id as [|c id IH]; [reflexivity|].
  cbn [Hex hex_DecodeString]. rewrite IH.
  pose proof (hex_byte_roundtrip c) as Hc.
  destruct (fromHexChar (ldap.hex_digit (N_of_ascii c / 16))) as [h|]; [|discriminate].
  destruct (fromHexChar (ldap.hex_digit (N_of_ascii c mod 16))) as [l|]; [|discriminate].
  cbn [mbind option_bind] in *. congruence.
Qed.

Lemma ObjectIdHex_Hex (id : ObjectId) : Valid id = true -> ObjectIdHex (Hex id) = Some id.
Proof.
  intros Hv. unfold ObjectIdHex. rewrite hex_DecodeString_Hex. cbn [mbind option_bind].
  unfold Valid in Hv. rewrite Hv. reflexivity.
Qed.

Lemma substring_all (t : string) : String.substring 0 (String.length t) t = t.
Proof. induction t as [|c t IH]; simpl; congruence. Qed.

(** *** The loop *)

Lemma sent_text (h : string) :
  String.prefix "sent:" (String.append "sent:" h) = true
  /\ String.substring 5 (String.length (String.append "sent:" h) - 5)
       (String.append "sent:" h) = h.
Proof.
  split; [apply prefix_append|].
  change (String.append "sent:" h)
    with (String "s" (String "e" (String "n" (String "t" (String ":" h))))).
  cbn [String.length String.substring Nat.sub]. rewrite Nat.sub_0_r.
  apply substring_all.
Qed.

Lemma account_incoming_echo_cases db r :
  Valid (Id r) = true ->
  account_incoming db (echo r)
  = match accounts db !! Account r with
    | Some _ => Continues {| accounts := <[ Account r := Id r ]> (accounts db);
                             incoming_log := incoming_log db |}
    | None => Killed db
    end.
Proof.
  intros Hv. unfold account_incoming, echo. cbn [Command Text Account].
  rewrite String.eqb_refl.
  destruct (sent_text (Hex (Id r))) as [-> ->].
  rewrite (ObjectIdHex_Hex _ Hv). reflexivity.
Qed.

Lemma account_incoming_echo db r :
  is_Some (accounts db !! Account r) ->
  Valid (Id r) = true ->
  account_incoming db (echo r)
  = Continues {| accounts := <[ Account r := Id r ]> (accounts db);
                 incoming_log := incoming_log db |}.
Proof.
  intros [p Hp] Hv. rewrite (account_incoming_echo_cases db r Hv), Hp. reflexivity.
Qed.

Lemma account_incoming_positions db msg db' :
  account_incoming db msg = Continues db' ->
  accounts db' = accounts db
  \/ (Command msg = cmdPong
      /\ String.prefix "sent:" (Text msg) = true
      /\ exists id,
           ObjectIdHex (String.substring 5 (String.length (Text msg) - 5) (Text msg)) = Some id
           /\ accounts db' = <[ Account msg := id ]> (accounts db)).
Proof.
  unfold account_incoming.
  destruct (String.eqb (Command msg) cmdPong) eqn:Hc.
  - destruct (String.prefix "sent:" (Text msg)); [|intros [= <-]; left; reflexivity].
    destruct (ObjectIdHex _) as [id|] eqn:Hid; [|discriminate].
    destruct (accounts db !! Account msg); [|discriminate].
    intros [= <-]. right. apply String.eqb_eq in Hc.
    split; [exact Hc|]. split; [reflexivity|]. exists id. split; reflexivity.
  - intros [= <-]. left. reflexivity.
Qed.

Lemma account_loop_app db (msgs1 msgs2 : list Message) db' :
  account_loop db (msgs1 ++ msgs2) = Continues db' ->
  exists db1, account_loop db msgs1 = Continues db1 /\ account_loop db1 msgs2 = Continues db'.
Proof.
  revert db. induction msgs1 as [|msg msgs1 IH]; intros db Hl.
  - exists db. split; [reflexivity|exact Hl].
  - cbn [app account_loop] in *.
    destruct (account_incoming db msg) as [db1| |]; try discriminate.
    exact (IH db1 Hl).
Qed.

Lemma account_loop_last_echo db (msgs : list Message) r db' :
  account_loop db (msgs ++ [echo r]) = Continues db' ->
  Valid (Id r) = true ->
  accounts db' !! Account r = Some (Id r).
Proof.
  intros Hl Hv. apply account_loop_app in Hl as (db1 & _ & Hl).
  cbn [account_loop] in Hl.
  destruct (account_incoming db1 (echo r)) as [db2| |] eqn:He; try discriminate.
  injection Hl as ->.
  rewrite (account_incoming_echo_cases db1 r Hv) in He.
  destruct (accounts db1 !! Account r); [|discriminate].
  injection He as <-. cbn [accounts]. apply lookup_insert_eq.
Qed.

(** *** The tail *)

Lemma filter_all (q : Message -> bool) (l : list Message) :
  Forall (fun a => q a = true) l -> List.filter q l = l.
Proof. induction 1 as [|a l Ha _ IH]; simpl; [reflexivity|]. rewrite Ha, IH. reflexivity. Qed.

Lemma filter_none (q : Message -> bool) (l : list Message) :
  Forall (fun a => q a = false) l -> List.filter q l = [].
Proof. induction 1 as [|a l Ha _ IH]; simpl; [reflexivity|]. rewrite Ha, IH. reflexivity. Qed.

Lemma filter_filter (p q : Message -> bool) (l : list Message) :
  List.filter p (List.filter q l) = List.filter (fun a => q a && p a) l.
Proof.
  induction l as [|a l IH]; simpl; [reflexivity|].
  destruct (q a); simpl; [destruct (p a)|]; rewrite IH; reflexivity.
Qed.

Lemma Forall_filter_query (q : Message -> bool) (l : list Message) :
  Forall (fun a => q a = true) (List.filter q l).
Proof. apply Forall_forall. intros a Ha. apply list_elem_of_In, List.filter_In in Ha. tauto. Qed.

Lemma sorted_filter (q : Message -> bool) (l : list Message) :
  sorted_by_id l -> sorted_by_id (List.filter q l).
Proof.
  unfold sorted_by_id. induction 1 as [|a l Hs IH Ha]; simpl; [constructor|].
  destruct (q a); [|exact IH]. constructor; [exact IH|].
  apply List.Forall_forall. intros b Hb. apply List.filter_In in Hb as [Hb _].
  rewrite List.Forall_forall in Ha. exact (Ha b Hb).
Qed.

Lemma ltb_asym (a b : string) : String.ltb a b = true -> String.ltb b a = false.
Proof.
  intros Hab. apply order.ltb_leb in Hab. rewrite order.leb_ltb in Hab.
  destruct (String.ltb b a); [discriminate|reflexivity].
Qed.

(** [iter.Next] yields the records of the query in the order of the log. *)
Lemma iter_next_filter (q : Message -> bool) rest :
  match iter_next q rest with
  | Some (msg, rest') => List.filter q rest = msg :: List.filter q rest'
  | None => List.filter q rest = []
  end.
Proof.
  induction rest as [|a rest IH]; simpl; [reflexivity|].
  destruct (q a); [reflexivity|exact IH].
Qed.

(** A later query over a log sorted by id finds the records of an earlier
    query that are after its position. *)
Lemma query_again (account : string) (start lid : ObjectId) outgoing :
  String.leb start lid = true ->
  List.filter (outgoing_query lid account) outgoing
  = List.filter (newer lid) (List.filter (outgoing_query start account) outgoing).
Proof.
  intros Hle. rewrite filter_filter. apply List.filter_ext. intros a.
  unfold outgoing_query, newer.
  destruct (String.ltb lid (Id a)) eqn:Hl.
  - rewrite (order.leb_ltb_trans _ _ _ Hle Hl). cbn [andb].
    destruct (String.eqb _ _); reflexivity.
  - rewrite andb_false_r. reflexivity.
Qed.

Lemma resume_after_last client outgoing (sent' : list Message) x (pend : list Message) :
  sorted_by_id outgoing ->
  (sent' ++ [x]) ++ pend = unconfirmed client outgoing ->
  List.filter (outgoing_query (Id x) (client_Account client)) outgoing = pend.
Proof.
  intros Hs Hu.
  pose proof (sorted_filter (outgoing_query (out_lastId (out_start client))
                               (client_Account client)) outgoing Hs) as Hsf.
  pose proof (Forall_filter_query (outgoing_query (out_lastId (out_start client))
                               (client_Account client)) outgoing) as Hq.
  fold (unconfirmed client outgoing) in Hsf, Hq. rewrite <- Hu in Hsf, Hq.
  assert (Hx : String.ltb (out_lastId (out_start client)) (Id x) = true).
  { rewrite Forall_forall in Hq. specialize (Hq x).
    unfold outgoing_query, newer in Hq. apply andb_true_iff in Hq; [tauto|].
    apply elem_of_app. left. apply elem_of_app. right. constructor. }
  rewrite (query_again _ (out_lastId (out_start client))) by (apply order.ltb_leb, Hx).
  fold (unconfirmed client outgoing). rewrite <- Hu.
  unfold sorted_by_id in Hsf.
  rewrite !List.filter_app.
  rewrite (filter_none _ sent'), (filter_none _ [x]), (filter_all _ pend); [reflexivity| | |].
  - apply Forall_forall. intros b Hb. unfold newer.
    apply (StronglySorted_app_1_elem_of _ _ _ x b Hsf); [|exact Hb].
    apply elem_of_app. right. constructor.
  - constructor; [|constructor]. unfold newer. apply order.ltb_irrefl.
  - apply Forall_forall. intros a Ha. unfold newer. apply ltb_asym.
    apply StronglySorted_app_1_l in Hsf.
    apply (StronglySorted_app_1_elem_of _ _ _ a x Hsf); [exact Ha|constructor].
Qed.

Lemma out_start_invariant client outgoing :
  out_invariant client outgoing (out_start client).
Proof.
  split.
  - exists (unconfirmed client outgoing). split; [reflexivity|].
    intros p [= <-]. reflexivity.
  - left. split; reflexivity.
Qed.

Lemma out_step_invariant client outgoing s (i : outInput) :
  sorted_by_id outgoing ->
  out_invariant client outgoing s ->
  out_invariant client outgoing (out_step client outgoing s i).
Proof.
  intros Hs Hinv. pose proof Hinv as [(pend & Hsp & Hp) Hpos].
  destruct s as [lid ph sent]. unfold out_pending in Hp. cbn [out_phase out_sent out_lastId] in *.
  destruct ph as [|bound rest|bound rest msg|]; destruct i;
    unfold out_step; cbn [out_phase out_sent out_lastId]; try exact Hinv.
  - (* the tomb is dying at the head of the loop *)
    split; [|exact Hpos]. exists pend. split; [exact Hsp|]. intros p [=].
  - (* iter.Next *)
    pose proof (iter_next_filter (outgoing_query bound (client_Account client)) rest) as Hn.
    destruct (iter_next _ rest) as [[msg rest']|];
      (split; [|exact Hpos]); exists pend; (split; [exact Hsp|]);
      unfold out_pending; cbn [out_phase out_lastId]; intros p [= <-];
      apply Hp; rewrite Hn; reflexivity.
  - (* the iterator failed: back to the head of the loop *)
    split; [|exact Hpos]. exists pend. split; [exact Hsp|].
    unfold out_pending. cbn [out_phase out_lastId]. intros p [= <-].
    destruct Hpos as [[-> ->] | (sent' & x & -> & ->)].
    + symmetry. exact Hsp.
    + exact (resume_after_last client outgoing sent' x pend Hs Hsp).
  - (* the tomb is dying *)
    split; [|exact Hpos]. exists pend. split; [exact Hsp|]. intros p [=].
  - (* the record is sent *)
    split; [|right; exists sent, msg; split; reflexivity].
    exists (List.filter (outgoing_query bound (client_Account client)) rest). split.
    + cbn [out_sent]. rewrite <- app_assoc. cbn [app]. rewrite (Hp _ eq_refl). exact Hsp.
    + unfold out_pending. cbn [out_phase]. intros p [= <-]. reflexivity.
  - (* the client is dying *)
    split; [|exact Hpos]. exists pend. split; [exact Hsp|]. intros p [=].
Qed.

Lemma out_run_invariant client outgoing inputs :
  sorted_by_id outgoing ->
  out_invariant client outgoing (out_run client outgoing inputs).
Proof.
  intros Hs. unfold out_run.
  generalize (out_start_invariant client outgoing).
  generalize (out_start client) as s.
  induction inputs as [|i inputs IH]; intros s Hinv; [exact Hinv|].
  cbn [foldl]. apply IH, out_step_invariant; assumption.
Qed.

Lemma out_run_prefix client outgoing inputs :
  sorted_by_id outgoing ->
  out_sent (out_run client outgoing inputs) `prefix_of` unconfirmed client outgoing.
Proof.
  intros Hs. destruct (out_run_invariant client outgoing inputs Hs) as [(pend & Hsp & _) _].
  exists pend. symmetry. exact Hsp.
Qed.

(** Records are delivered as long as the iterator has some and the client
    takes them. *)
Lemma deliver_rest client outgoing (bound : ObjectId) (n : nat) :
  forall rest (lid : ObjectId) (sent : list Message),
    length (List.filter (outgoing_query bound (client_Account client)) rest) = n ->
    out_sent (foldl (out_step client outgoing)
                {| out_lastId := lid; out_phase := OutIterating bound rest; out_sent := sent |}
                (concat (replicate n [OutNext; OutAccept])))
    = sent ++ List.filter (outgoing_query bound (client_Account client)) rest.
Proof.
  induction n as [|n IH]; intros rest lid sent Hlen.
  - destruct (List.filter _ rest); [|discriminate]. cbn. rewrite app_nil_r. reflexivity.
  - cbn [replicate concat app foldl]. unfold out_step at 2 3. cbn [out_phase out_lastId out_sent].
    pose proof (iter_next_filter (outgoing_query bound (client_Account client)) rest) as Hn.
    destruct (iter_next _ rest) as [[msg rest']|].
    + cbn [out_phase out_lastId out_sent]. rewrite Hn in Hlen |- *.
      rewrite IH by (cbn [length] in Hlen; lia).
      rewrite <- app_assoc. reflexivity.
    + rewrite Hn in Hlen. discriminate.
Qed.

Lemma out_run_deliveries client outgoing :
  out_sent (out_run client outgoing (deliveries (length (unconfirmed client outgoing))))
  = unconfirmed client outgoing.
Proof.
  unfold out_run, deliveries. cbn [foldl]. unfold out_step at 2.
  cbn [out_phase out_start out_lastId out_sent].
  rewrite deliver_rest by reflexivity. reflexivity.
Qed.

Lemma ltb_empty (id : ObjectId) : id <> EmptyString -> String.ltb EmptyString id = true.
Proof. destruct id; [congruence|reflexivity]. Qed.

Lemma unconfirmed_newer client outgoing msg :
  msg ∈ unconfirmed client outgoing ->
  String.ltb (client_LastId client) (Id msg) = true
  /\ Account msg = client_Account client
  /\ msg ∈ outgoing.
Proof.
  unfold unconfirmed. intros Hin. apply list_elem_of_In, List.filter_In in Hin as [Hin Hq].
  unfold outgoing_query, newer in Hq. apply andb_true_iff in Hq as [Hn Ha].
  apply String.eqb_eq in Ha. split; [|split; [exact Ha|apply list_elem_of_In, Hin]].
  revert Hn. unfold out_start. cbn [out_lastId].
  destruct (String.eqb (client_LastId client) EmptyString) eqn:He; [|auto].
  apply String.eqb_eq in He. rewrite He. intros Hn. apply ltb_empty.
  intros Hid. rewrite Hid in Hn. discriminate.
Qed.

(** In what the tail sends, an unconfirmed record comes before any newer
    one that is sent. *)
Lemma older_sent_first client outgoing inputs r r' :
  sorted_by_id outgoing ->
  r ∈ unconfirmed client outgoing ->
  r' ∈ out_sent (out_run client outgoing inputs) ->
  String.ltb (Id r) (Id r') = true ->
  exists l1 l2 l3, out_sent (out_run client outgoing inputs) = l1 ++ r :: l2 ++ r' :: l3.
Proof.
  intros Hs Hr Hr' Hlt.
  destruct (out_run_prefix client outgoing inputs Hs) as [pend Hsp].
  pose proof (sorted_filter (outgoing_query (out_lastId (out_start client))
                               (client_Account client)) outgoing Hs) as Hsf.
  fold (unconfirmed client outgoing) in Hsf. rewrite Hsp in Hsf, Hr.
  unfold sorted_by_id in Hsf.
  apply list_elem_of_split in Hr' as (k1 & k2 & Hk). rewrite Hk in Hsf, Hr |- *.
  assert (Hnot : forall b, String.ltb (Id r') (Id b) = true -> r <> b).
  { intros b Hb ->. rewrite (ltb_asym _ _ Hb) in Hlt. discriminate. }
  apply elem_of_app in Hr as [Hr|Hr].
  - apply elem_of_app in Hr as [Hr|Hr].
    + apply list_elem_of_split in Hr as (l1 & l2 & ->).
      exists l1, l2, k2. rewrite <- !app_assoc. reflexivity.
    + exfalso. apply StronglySorted_app_1_l, StronglySorted_app_1_r in Hsf.
      apply StronglySorted_cons in Hsf as [Hall _].
      apply elem_of_cons in Hr as [-> | Hr].
      * rewrite order.ltb_irrefl in Hlt. discriminate.
      * rewrite Forall_forall in Hall. exact (Hnot r (Hall r Hr) eq_refl).
  - exfalso. refine (Hnot r _ eq_refl).
    apply (StronglySorted_app_1_elem_of _ _ _ r' r Hsf); [|exact Hr].
    apply elem_of_app. right. left.
Qed.

(** After echoes received in the order of the ids, which is the order the
    tail sends in, the position of the account is the id of the last one,
    and the restarted tail sends none of the records echoed. *)
Lemma echoed_in_order_not_resent db outgoing (account : string) (echoed : list Message)
    (inputs : list outInput) :
  sorted_by_id outgoing ->
  sorted_by_id echoed ->
  Forall (fun r => Account r = account /\ Valid (Id r) = true) echoed ->
  never_resent_once_echoed db outgoing account echoed inputs.
Proof.
  intros Hs He Hall db' Hl r Hr Hin.
  induction echoed as [|rl init _] using rev_ind; [inversion Hr|].
  rewrite fmap_app in Hl. cbn [fmap list_fmap] in Hl.
  apply Forall_app in Hall as [_ Hrl]. apply Forall_cons in Hrl as [[Ha Hv] _].
  pose proof (account_loop_last_echo db (echo <$> init) rl db' Hl Hv) as Hpos.
  destruct (out_run_prefix (startIrcClient db' account) outgoing inputs Hs) as [pend Hsp].
  assert (Hu : r ∈ unconfirmed (startIrcClient db' account) outgoing)
    by (rewrite Hsp; apply elem_of_app; left; exact Hin).
  apply unconfirmed_newer in Hu as [Hu _].
  unfold startIrcClient in Hu. cbn [client_LastId] in Hu.
  rewrite <- Ha, Hpos in Hu. change (String.ltb (Id rl) (Id r) = true) in Hu.
  apply elem_of_app in Hr as [Hr | Hr].
  - unfold sorted_by_id in He.
    pose proof (StronglySorted_app_1_elem_of _ _ _ r rl He Hr) as Hlt.
    rewrite (ltb_asym _ _ (Hlt ltac:(left))) in Hu. discriminate.
  - apply list_elem_of_singleton in Hr as ->.
    rewrite order.ltb_irrefl in Hu. discriminate.
Qed.

Lemma unconfirmed_iff client outgoing msg :
  msg ∈ unconfirmed client outgoing
  <-> msg ∈ outgoing
      /\ Account msg = client_Account client
      /\ String.ltb (if String.eqb (client_LastId client) EmptyString then zeroId
                     else client_LastId client) (Id msg) = true.
Proof.
  unfold unconfirmed, outgoing_query, newer, out_start. cbn [out_lastId].
  rewrite list_elem_of_In, List.filter_In, andb_true_iff, String.eqb_eq, list_elem_of_In.
  tauto.
Qed.

(** C5. Over an outgoing log sorted by id, the tail of an account sends
    records of the account with an id strictly greater than the position
    it starts from, which is the account's persisted position (the zero id
    when none is stored), in store order: what it sends is at any time a
    prefix of these unconfirmed records, an unconfirmed record before any
    newer one, and all of them when the client takes them.  The loop sets
    the persisted position of an account to a record's id when it receives
    the record's echo (a pong whose text is [sent:] and the id in
    hexadecimal), and a message changes a persisted position only in that
    way.  So a tail restarted after the echo of record [r] was the last
    message received sends exactly the records of the account newer than
    [r], in store order; and after the echoes of records of the account
    received in the order the tail sends them in, no record whose echo was
    received is sent again. *)
Theorem outbound_resumes_after_confirmed client outgoing :
  sorted_by_id outgoing ->
  (forall inputs,
     out_sent (out_run client outgoing inputs) `prefix_of` unconfirmed client outgoing)
  /\ (forall msg, msg ∈ unconfirmed client outgoing ->
        String.ltb (client_LastId client) (Id msg) = true
        /\ Account msg = client_Account client
        /\ msg ∈ outgoing)
  /\ sorted_by_id (unconfirmed client outgoing)
  /\ (forall inputs r r',
        r ∈ unconfirmed client outgoing ->
        r' ∈ out_sent (out_run client outgoing inputs) ->
        String.ltb (Id r) (Id r') = true ->
        exists l1 l2 l3, out_sent (out_run client outgoing inputs) = l1 ++ r :: l2 ++ r' :: l3)
  /\ out_sent (out_run client outgoing (deliveries (length (unconfirmed client outgoing))))
     = unconfirmed client outgoing
  /\ (forall db r,
        is_Some (accounts db !! Account r) ->
        Valid (Id r) = true ->
        account_incoming db (echo r)
        = Continues {| accounts := <[ Account r := Id r ]> (accounts db);
                       incoming_log := incoming_log db |})
  /\ (forall db msg db',
        account_incoming db msg = Continues db' ->
        accounts db' = accounts db
        \/ (Command msg = cmdPong
            /\ String.prefix "sent:" (Text msg) = true
            /\ exists id,
                 ObjectIdHex (String.substring 5 (String.length (Text msg) - 5) (Text msg))
                 = Some id
                 /\ accounts db' = <[ Account msg := id ]> (accounts db)))
  /\ (forall db (msgs : list Message) r db' inputs msg,
        account_loop db (msgs ++ [echo r]) = Continues db' ->
        Valid (Id r) = true ->
        client = startIrcClient db' (Account r) ->
        msg ∈ out_sent (out_run client outgoing inputs) ->
        String.ltb (Id r) (Id msg) = true)
  /\ (forall msg,
        msg ∈ unconfirmed client outgoing
        <-> msg ∈ outgoing
            /\ Account msg = client_Account client
            /\ String.ltb (if String.eqb (client_LastId client) EmptyString then zeroId
                           else client_LastId client) (Id msg) = true)
  /\ (forall db (msgs : list Message) r db',
        account_loop db (msgs ++ [echo r]) = Continues db' ->
        Valid (Id r) = true ->
        client = startIrcClient db' (Account r) ->
        unconfirmed client outgoing
        = List.filter (fun msg => String.ltb (Id r) (Id msg)
                                  && String.eqb (Account msg) (Account r)) outgoing)
  /\ (forall db (account : string) (echoed : list Message) (inputs : list outInput),
        sorted_by_id echoed ->
        Forall (fun r => Account r = account /\ Valid (Id r) = true) echoed ->
        never_resent_once_echoed db outgoing account echoed inputs).
Proof.
  intros Hs.
  split; [intros inputs; apply out_run_prefix, Hs|].
  split; [apply unconfirmed_newer|].
  split; [apply sorted_filter, Hs|].
  split; [intros inputs r r'; apply older_sent_first, Hs|].
  split; [apply out_run_deliveries|].
  split; [apply account_incoming_echo|].
  split; [apply account_incoming_positions|].
  split; [|split; [apply unconfirmed_iff|split]].
  - intros db msgs r db' inputs msg Hl Hv Hc Hin.
    destruct (out_run_prefix client outgoing inputs Hs) as [pend Hsp].
    assert (Hu : msg ∈ unconfirmed client outgoing)
      by (rewrite Hsp; apply elem_of_app; left; exact Hin).
    apply unconfirmed_newer in Hu as [Hu _].
    rewrite Hc in Hu. unfold startIrcClient in Hu. cbn [client_LastId] in Hu.
    rewrite (account_loop_last_echo db msgs r db' Hl Hv) in Hu. exact Hu.
  - intros db msgs r db' Hl Hv ->.
    unfold unconfirmed, out_start, startIrcClient. cbn [client_LastId client_Account out_lastId].
    rewrite (account_loop_last_echo db msgs r db' Hl Hv).
    change (default EmptyString (Some (Id r))) with (Id r).
    assert (He : String.eqb (Id r) EmptyString = false).
    { apply String.eqb_neq. intros Hid. rewrite Hid in Hv. discriminate. }
    rewrite He. reflexivity.
  - intros db account echoed inputs He Hall.
    apply echoed_in_order_not_resent; assumption.
Qed.

End Outbound.

(** ** What the tail reads after a rollback request *)

Section Replay.

Implicit Types (s : tailState) (R : ObjectId).

Lemma last_cons {A} (l : list A) :
  forall a d, List.last (a :: l) d = List.last l a.
Proof.
  induction l as [|b l IH]; intros a d; [reflexivity|].
  change (List.last (a :: b :: l) d) with (List.last (b :: l) d).
  rewrite !IH. reflexivity.
Qed.

(** The inner loop of [tail] delivers what its iterator finds, as long as
    the dispatch loop takes it. *)
Lemma tail_delivers (incoming : list Message) (bound : ObjectId) (n : nat) :
  forall rest (lid : ObjectId) (del : list Message),
    length (List.filter (newer bound) rest) = n ->
    delivered (foldl (tail_step incoming)
                 {| lastId := lid; phase := Iterating bound rest; delivered := del |}
                 (concat (replicate n [Next; Accept])))
    = del ++ List.filter (newer bound) rest
    /\ lastId (foldl (tail_step incoming)
                 {| lastId := lid; phase := Iterating bound rest; delivered := del |}
                 (concat (replicate n [Next; Accept])))
       = List.last (Id <$> List.filter (newer bound) rest) lid.
Proof.
  induction n as [|n IH]; intros rest lid del Hlen.
  - destruct (List.filter _ rest); [|discriminate]. cbn. rewrite app_nil_r. auto.
  - cbn [replicate concat app foldl]. unfold tail_step at 2 3 5 6.
    cbn [phase lastId delivered].
    pose proof (iter_next_filter (newer bound) rest) as Hn.
    destruct (iter_next _ rest) as [[msg rest']|].
    + rewrite Hn in Hlen |- *. cbn [length] in Hlen. injection Hlen as Hlen.
      cbn [phase lastId delivered].
      destruct (IH rest' (Id msg) (del ++ [msg]) Hlen) as [Hd Hl].
      rewrite Hd, Hl, <- app_assoc, fmap_cons, last_cons. auto.
    + rewrite Hn in Hlen. discriminate.
Qed.

(** C1. When the tail loop receives a rollback request [R], either at the
    head of the loop before it opens an iterator or while it is blocked
    delivering a record, its position becomes [min R lastId]: it is never
    raised, it is lowered only when [R] is strictly older, and then to [R];
    a request that is not older leaves the blocked delivery as it was, and
    the record is delivered when the dispatch loop takes it.  The position
    is where the tail reads from.  At the head of the loop the iterator is
    opened at the new position.  A request that is older, taken while
    blocked, abandons the delivery and the iterator: the record is not
    delivered, the loop is back at its head with the position [R], and its
    next pass opens a new iterator at [R] over the whole log.  In both
    places the tail then delivers, as long as the dispatch loop takes them,
    every record newer than the new position, in store order. *)
Theorem rollback_moves_tail_to_min (incoming : list Message) s R :
  (phase s = NextTail \/ exists bound rest msg, phase s = Delivering bound rest msg) ->
  let s' := tail_step incoming s (Rollback R) in
  lastId s' = ObjectId_min R (lastId s)
  /\ String.leb (lastId s') (lastId s) = true
  /\ (lastId s' <> lastId s -> String.ltb R (lastId s) = true)
  /\ (String.ltb R (lastId s) = true -> lastId s' = R)
  /\ (forall bound rest msg,
        phase s = Delivering bound rest msg ->
        String.ltb R (lastId s) = false ->
        s' = s
        /\ tail_step incoming s' Accept
           = {| lastId := Id msg; phase := Iterating bound rest;
                delivered := delivered s ++ [msg] |})
  /\ (phase s = NextTail -> phase s' = Iterating (lastId s') incoming)
  /\ delivered s' = delivered s
  /\ (forall bound rest msg,
        phase s = Delivering bound rest msg ->
        String.ltb R (lastId s) = true ->
        s' = {| lastId := R; phase := NextTail; delivered := delivered s |}
        /\ tail_step incoming s' Accept = s'
        /\ tail_step incoming s' Next = s'
        /\ tail_step incoming s' Idle
           = {| lastId := R; phase := Iterating R incoming; delivered := delivered s |}
        /\ delivered (tail_run incoming s
                        (Rollback R :: Idle
                         :: concat (replicate (length (List.filter (newer R) incoming))
                                      [Next; Accept])))
           = delivered s ++ List.filter (newer R) incoming)
  /\ (phase s = NextTail ->
      delivered (tail_run incoming s
                   (Rollback R
                    :: concat (replicate
                                 (length (List.filter (newer (ObjectId_min R (lastId s)))
                                            incoming))
                                 [Next; Accept])))
      = delivered s ++ List.filter (newer (ObjectId_min R (lastId s))) incoming).
Proof.
  intros Hp s'. pose proof (tail_step_rollback_lastId incoming s R Hp) as Hl.
  fold s' in Hl. repeat split.
  - rewrite Hl. apply order.rollbackTo_min.
  - rewrite Hl, order.rollbackTo_min. apply order.min_leb_r.
  - rewrite Hl. unfold rollbackTo. destruct (String.ltb R (lastId s)); congruence.
  - rewrite Hl. unfold rollbackTo. intros ->. reflexivity.
  - unfold s', tail_step. rewrite H, H0. reflexivity.
  - assert (Hs : s' = s) by (unfold s', tail_step; rewrite H, H0; reflexivity).
    rewrite Hs. unfold tail_step. rewrite H. reflexivity.
  - intros Hn. unfold s', tail_step. rewrite Hn. reflexivity.
  - unfold s', tail_step.
    destruct Hp as [Hp | (bound & rest & msg & Hp)]; rewrite Hp; [reflexivity|].
    destruct (String.ltb R (lastId s)); reflexivity.
  - unfold s', tail_step. rewrite H, H0. reflexivity.
  - assert (Hs : s' = {| lastId := R; phase := NextTail; delivered := delivered s |})
      by (unfold s', tail_step; rewrite H, H0; reflexivity).
    rewrite Hs. reflexivity.
  - assert (Hs : s' = {| lastId := R; phase := NextTail; delivered := delivered s |})
      by (unfold s', tail_step; rewrite H, H0; reflexivity).
    rewrite Hs. reflexivity.
  - assert (Hs : s' = {| lastId := R; phase := NextTail; delivered := delivered s |})
      by (unfold s', tail_step; rewrite H, H0; reflexivity).
    rewrite Hs. reflexivity.
  - unfold tail_run. cbn [foldl].
    assert (Hs : tail_step incoming (tail_step incoming s (Rollback R)) Idle
                 = {| lastId := R; phase := Iterating R incoming; delivered := delivered s |})
      by (unfold tail_step at 2; rewrite H, H0; reflexivity).
    rewrite Hs.
    exact (proj1 (tail_delivers incoming R _ incoming R (delivered s) eq_refl)).
  - intros Hn. unfold tail_run. cbn [foldl]. unfold tail_step at 2. rewrite Hn.
    rewrite <- order.rollbackTo_min. fold (rollbackTo R (lastId s)).
    exact (proj1 (tail_delivers incoming (rollbackTo R (lastId s)) _ incoming
                    (rollbackTo R (lastId s)) (delivered s) eq_refl)).
Qed.

End Replay.

End mup_facts.

(* ===================================================================== *)
(** * The concrete bus at work *)
(* ===================================================================== *)

Module examples_facts.
Import mup examples mup_facts.

#[local] Existing Instance ext.

(** The running manager is the manager as started after one refresh
    pass. *)
Lemma m_running_reachable : reachable registry m_running.
Proof.
  replace m_running with (fst (refreshPlugins registry m_start env_first))
    by (vm_compute; reflexivity).
  apply reach_refresh, reach_start.
Qed.

(** ** The tail *)

Lemma rollback_while_blocked_example :
  lastId (tail_step [out1; hello_msg] tail_blocked (Rollback (id_at 500)))
  = ObjectId_min (id_at 500) (lastId tail_blocked)
  /\ tail_step [out1; hello_msg] tail_blocked (Rollback (id_at 500))
     = {| lastId := id_at 500; phase := NextTail; delivered := [] |}
  /\ delivered (tail_run [out1; hello_msg] tail_blocked
                  [Rollback (id_at 500); Idle; Next; Accept; Next; Accept])
     = [out1; hello_msg].
Proof.
  assert (Hp : phase tail_blocked = NextTail
               \/ exists bound rest msg, phase tail_blocked = Delivering bound rest msg)
    by (right; exists (id_at 1500), [], hello_msg; reflexivity).
  pose proof (rollback_moves_tail_to_min [out1; hello_msg] tail_blocked (id_at 500) Hp) as H.
  cbv zeta in H. destruct H as (H1 & _ & _ & _ & _ & _ & _ & H8 & _).
  destruct (H8 (id_at 1500) [] hello_msg eq_refl eq_refl) as (Hs & _ & _ & _ & Hd).
  split; [exact H1|]. split; [exact Hs|exact Hd].
Defined.

(** ** The dispatch loop *)

Lemma pong_example :
  Command pong_msg = cmdPong /\ loop_incoming m_running pong_msg = (m_running, []).
Proof.
  split; [reflexivity|].
  refine (proj1 (pong_reaches_no_handler registry m_running pong_msg _)). reflexivity.
Defined.

Lemma hello_dispatched_example : dispatch_rule m_running hello_msg "echo" st_echo.
Proof.
  refine (proj1 (dispatch_iff_newer_and_targeted m_running hello_msg "echo" st_echo _ _)).
  - intros Hc. vm_compute in Hc. discriminate Hc.
  - vm_compute. reflexivity.
Defined.

(** C2 as it is worded, without the exception of pongs, fails: a pong
    that is newer than the plugin's [LastId] and that the plugin has a
    target for is not dispatched. *)
Lemma pong_newer_and_targeted_not_dispatched :
  reachable registry m_running
  /\ plugins m_running !! "echo" = Some st_echo
  /\ ~ dispatch_rule m_running pong_msg "echo" st_echo.
Proof.
  split; [exact m_running_reachable|].
  split; [vm_compute; reflexivity|].
  unfold dispatch_rule, dispatched. intros [_ Hback].
  assert (Hd := Hback (conj eq_refl eq_refl)).
  change (snd (loop_incoming m_running pong_msg)) with (@nil Event) in Hd.
  inversion Hd.
Qed.

Lemma hello_persisted_last_example :
  events_of "echo" (snd (loop_incoming m_running hello_msg))
  = handle "echo" (set_info (set_LastId (Id hello_msg) (info st_echo)) st_echo) hello_msg
      (CommandName (BotText hello_msg))
    ++ [UpdateLastId "echo" (Id hello_msg)].
Proof.
  refine (proj1 (proj2 (proj2
    (handlers_run_before_lastid_is_persisted m_running hello_msg "echo" st_echo _ _ _ _)))).
  - intros Hc. vm_compute in Hc. discriminate Hc.
  - vm_compute. reflexivity.
  - vm_compute. reflexivity.
  - vm_compute. reflexivity.
Defined.

(** C7 as it is worded fails: the message handler is called before the
    write of [lastid]. *)
Lemma handler_called_before_write :
  reachable registry m_running
  /\ ~ persisted_before_handlers m_running hello_msg "echo".
Proof.
  split; [exact m_running_reachable|].
  unfold persisted_before_handlers. intros Hc.
  specialize (Hc (HandleMessage "echo" hello_msg)).
  change (snd (loop_incoming m_running hello_msg))
    with [HandleMessage "echo" hello_msg; UpdateLastId "echo" (Id hello_msg)] in Hc.
  destruct Hc as (l1 & l2 & l3 & Heq).
  - left.
  - left. reflexivity.
  - destruct l1 as [|a [|b l1]]; cbn [app] in Heq.
    + discriminate Heq.
    + injection Heq as _ Heq. destruct l2; discriminate Heq.
    + injection Heq as _ _ Heq. destruct l1; discriminate Heq.
Qed.

(** ** Commands *)

Lemma echo_without_argument_example :
  Sendf "echo" echo_msg (String.append "Oops: " "missing input for argument: text")
    ∈ snd (loop_incoming m_running echo_msg)
  /\ events_of "echo" (snd (loop_incoming m_running echo_msg))
     = [Sendf "echo" echo_msg (String.append "Oops: " "missing input for argument: text");
        HandleMessage "echo" echo_msg; UpdateLastId "echo" (Id echo_msg)].
Proof.
  pose proof (parse_failure_is_replied m_running "echo" st_echo echo_msg "echo"
                "missing input for argument: text") as H.
  destruct H as (Hiff & Hev & _).
  - vm_compute. reflexivity.
  - unfold dispatched. vm_compute. apply list_elem_of_In. cbn. auto.
  - intros Hc. vm_compute in Hc. discriminate Hc.
  - vm_compute. reflexivity.
  - vm_compute. reflexivity.
  - assert (Ha : AsNick echo_msg <> EmptyString) by (intros Hc; discriminate Hc).
    split; [apply Hiff; split; [exact Ha|reflexivity]|].
    exact (Hev Ha eq_refl).
Defined.

(** C8 as it is worded fails for a record without a nick: the running
    plugin [echo] handles commands, the record is dispatched to it, its
    text names the command [echo] and fails to parse, and no reply is
    sent. *)
Lemma outgoing_record_gets_no_reply :
  reachable registry m_running
  /\ plugins m_running !! "echo" = Some st_echo
  /\ isCommandHandler (plugin st_echo) = true
  /\ dispatched "echo" echo_out_msg (snd (loop_incoming m_running echo_out_msg))
  /\ Parse "echo" (BotText echo_out_msg) = inr "missing input for argument: text"
  /\ snd (loop_incoming m_running echo_out_msg) = [UpdateLastId "echo" (Id echo_out_msg)]
  /\ ~ oops_reply_rule m_running "echo" echo_out_msg.
Proof.
  assert (Htr : snd (loop_incoming m_running echo_out_msg)
                = [UpdateLastId "echo" (Id echo_out_msg)]) by (vm_compute; reflexivity).
  split; [exact m_running_reachable|].
  split; [vm_compute; reflexivity|]. split; [reflexivity|].
  split; [unfold dispatched; rewrite Htr; left|].
  split; [vm_compute; reflexivity|]. split; [exact Htr|].
  unfold oops_reply_rule. intros Hc.
  specialize (Hc st_echo "echo" "missing input for argument: text").
  rewrite Htr in Hc.
  assert (Hin : Sendf "echo" echo_out_msg (String.append "Oops: " "missing input for argument: text")
                ∈ [UpdateLastId "echo" (Id echo_out_msg)]).
  { apply Hc.
    - vm_compute. reflexivity.
    - unfold dispatched. left.
    - intros Hn. vm_compute in Hn. discriminate Hn.
    - vm_compute. reflexivity.
    - vm_compute. reflexivity. }
  apply list_elem_of_singleton in Hin. discriminate Hin.
Qed.

(** ** The LDAP lookup *)

Lemma ldap_lookup_example : ldap_lookup_rule m_running "corp".
Proof.
  refine (proj1 (ldapConn_lookup m_running "corp" _)). reflexivity.
Defined.

(** C9 as it is worded fails once the manager is dead: the request panics
    instead of returning the error. *)
Lemma ldap_request_after_death_panics :
  reachable registry m_dead
  /\ ldapConn m_dead "corp"
     = Panic "plugin requested an LDAP connection after its Stop method returned"
  /\ ~ ldap_lookup_rule m_dead "corp".
Proof.
  split; [apply reach_die, m_running_reachable|].
  split; [reflexivity|].
  unfold ldap_lookup_rule. intros Hc. vm_compute in Hc. discriminate Hc.
Qed.

(** ** The refresh pass *)

Lemma refresh_rollback_example :
  rollback_request_rule registry (fun i => startedLastId (clock env_refresh (Name i)) i)
    m_empty env_refresh [info_v2].
Proof.
  apply (refresh_requests_rollback_to_least registry m_empty env_refresh [info_v2]).
  - reflexivity.
  - apply NoDup_singleton.
  - vm_compute. discriminate.
  - reflexivity.
  - reflexivity.
Defined.

(** C3 as it is worded fails: the plugin started has the persisted position
    of time 50, and the rollback requested at time 1000 is for the rollback
    limit, time 990. *)
Lemma rollback_is_not_to_persisted_position :
  reachable registry m_empty
  /\ started registry m_empty [info_v2] = [info_v2]
  /\ ~ rollback_request_rule registry LastId m_empty env_refresh [info_v2].
Proof.
  split; [apply reach_start|].
  split; [vm_compute; reflexivity|].
  intros (pre & r & Htr & _ & [Hin _]).
  change (snd (refreshPlugins registry m_empty env_refresh))
    with ([PluginStart "echo"; UpdateCommands "echo"]
          ++ [InsertIncoming wakeMessage; SendRollback (id_at 990)]) in Htr.
  apply app_inj_2 in Htr as [_ Htr]; [|reflexivity].
  injection Htr as <-.
  change (LastId <$> started registry m_empty [info_v2]) with [id_at 50] in Hin.
  apply list_elem_of_singleton in Hin. vm_compute in Hin. discriminate Hin.
Qed.

Lemma restart_example :
  restart_rule registry (fun i => startedLastId (clock env_refresh (Name i)) i)
    m_running env_refresh info_v2.
Proof.
  apply (changed_plugin_is_restarted registry m_running env_refresh [info_v2] info_v2
           st_echo).
  - replace m_running with (fst (refreshPlugins registry m_start env_first))
      by (vm_compute; reflexivity).
    apply reach_refresh, reach_start.
  - reflexivity.
  - apply NoDup_singleton.
  - apply list_elem_of_singleton. reflexivity.
  - vm_compute. reflexivity.
  - reflexivity.
Defined.

(** C6 as it is worded fails: the new instance does not start at the
    persisted position of time 50 but at the rollback limit, time 990. *)
Lemma restart_resets_old_position :
  reachable registry m_running
  /\ plugins m_running !! Name info_v2 = Some st_echo
  /\ pluginChanged (info st_echo) info_v2 = true
  /\ ~ restart_rule registry LastId m_running env_refresh info_v2.
Proof.
  split; [exact m_running_reachable|].
  split; [vm_compute; reflexivity|]. split; [reflexivity|].
  intros (st' & Hl & _ & _ & _ & _ & Hpos & _).
  vm_compute in Hl. injection Hl as <-.
  vm_compute in Hpos. discriminate Hpos.
Qed.

(** ** The account manager *)

Lemma outbound_example :
  out_sent (out_run client0 [out1; out2] (deliveries (length (unconfirmed client0 [out1; out2]))))
  = unconfirmed client0 [out1; out2]
  /\ never_resent_once_echoed db0 [out1; out2] "freenode" [out1] (deliveries 1).
Proof.
  pose proof (outbound_resumes_after_confirmed client0 [out1; out2]) as H.
  destruct H as (_ & _ & _ & _ & H5 & _ & _ & _ & _ & _ & H11).
  - repeat constructor.
  - split; [exact H5|]. apply H11.
    + repeat constructor.
    + repeat constructor.
Defined.

End examples_facts.

(* ===================================================================== *)
(** * Plugin names: keys, labels and the configured list *)
(* ===================================================================== *)

Module names_facts.
Import mup.

Implicit Types (name cname key label : string).

Lemma length_append (s t : string) :
  String.length (String.append s t) = (String.length s + String.length t)%nat.
Proof.
  induction s as [|a s IH]; [reflexivity|].
  change (String.append (String a s) t) with (String a (String.append s t)).
  cbn [String.length Nat.add]. congruence.
Qed.

Lemma get_append_at (s : string) (c : ascii) (t : string) :
  String.get (String.length s) (String.append s (String c t)) = Some c.
Proof. induction s as [|a s IH]; [reflexivity|exact IH]. Qed.

Lemma substring_append_front (s t : string) :
  String.substring 0 (String.length s) (String.append s t) = s.
Proof.
  induction s as [|a s IH]; [destruct t; reflexivity|].
  change (String.append (String a s) t) with (String a (String.append s t)).
  cbn [String.length String.substring]. rewrite IH. reflexivity.
Qed.

Lemma split_at_length cname :
  forall name (c : ascii),
    String.get (String.length cname) name = Some c ->
    String.substring 0 (String.length cname) name = cname ->
    exists label, name = String.append cname (String c label).
Proof.
  induction cname as [|a cname IH]; intros [|b name] c Hg Hs; simpl in *; try discriminate.
  - injection Hg as ->. exists name. reflexivity.
  - injection Hs as -> Hs. destruct (IH name c Hg Hs) as [label ->].
    exists label. reflexivity.
Qed.

(** The test of [pluginOn] for one configured name: the name itself, or the
    name followed by a slash and a label. *)
Lemma pluginOn_match_spec name cname :
  pluginOn_match name cname = true
  <-> name = cname \/ exists label, name = String.append cname (String "/" label).
Proof.
  unfold pluginOn_match. split.
  - intros Hm. apply orb_true_iff in Hm as [Hm|Hm].
    + left. apply String.eqb_eq. exact Hm.
    + right. apply andb_true_iff in Hm as [Hm Hs]. apply andb_true_iff in Hm as [_ Hg].
      apply String.eqb_eq in Hs.
      destruct (String.get (String.length cname) name) as [c|] eqn:Hc; [|discriminate].
      apply Ascii.eqb_eq in Hg. subst c. exact (split_at_length cname name _ Hc Hs).
  - intros [-> | [label ->]].
    + rewrite String.eqb_refl. reflexivity.
    + apply orb_true_iff. right.
      rewrite length_append, get_append_at, substring_append_front, String.eqb_refl.
      cbn [String.length]. rewrite Ascii.eqb_refl.
      destruct (Nat.ltb_spec (String.length cname) (String.length cname + S (String.length label)));
        [reflexivity|lia].
Qed.

Lemma pluginKey_split name :
  name = pluginKey name
  \/ exists label, name = String.append (pluginKey name) (String "/" label).
Proof.
  induction name as [|c name IH]; [left; reflexivity|]. cbn [pluginKey].
  destruct (Ascii.eqb c "/") eqn:Hc.
  - apply Ascii.eqb_eq in Hc. subst c. right. exists name. reflexivity.
  - destruct IH as [IH | [label IH]].
    + left. cbn [pluginKey]. congruence.
    + right. exists label.
      change (String.append (String c (pluginKey name)) (String "/" label))
        with (String c (String.append (pluginKey name) (String "/" label))).
      congruence.
Qed.

Lemma pluginKey_no_slash name : ~ In "/"%char (list_ascii_of_string (pluginKey name)).
Proof.
  induction name as [|c name IH]; [intros []|]. cbn [pluginKey].
  destruct (Ascii.eqb c "/") eqn:Hc; [intros []|].
  cbn [list_ascii_of_string]. intros [Hin|Hin]; [|exact (IH Hin)].
  subst c. rewrite Ascii.eqb_refl in Hc. discriminate.
Qed.

Lemma pluginKey_of_key key :
  ~ In "/"%char (list_ascii_of_string key) ->
  forall rest, pluginKey (String.append key (String "/" rest)) = key /\ pluginKey key = key.
Proof.
  induction key as [|c key IH]; intros Hno rest; [split; reflexivity|].
  cbn [list_ascii_of_string] in Hno.
  change (String.append (String c key) (String "/" rest))
    with (String c (String.append key (String "/" rest))).
  cbn [pluginKey]. destruct (Ascii.eqb c "/") eqn:Hc.
  - apply Ascii.eqb_eq in Hc. exfalso. apply Hno. left. exact Hc.
  - destruct (IH (fun Hin => Hno (or_intror Hin)) rest) as [-> ->]. split; reflexivity.
Qed.

(** X1. The key of a plugin name holds no slash, and the name is the key
    itself or the key followed by a slash and a label; taking the key
    twice changes nothing. *)
Theorem pluginKey_is_the_part_before_the_slash name :
  ~ In "/"%char (list_ascii_of_string (pluginKey name))
  /\ (name = pluginKey name
      \/ exists label, name = String.append (pluginKey name) (String "/" label))
  /\ pluginKey (pluginKey name) = pluginKey name.
Proof.
  split; [apply pluginKey_no_slash|]. split; [apply pluginKey_split|].
  exact (proj2 (pluginKey_of_key _ (pluginKey_no_slash name) EmptyString)).
Qed.

(** X2. For a key without a slash, the key of [key/label] is [key], whatever
    the label, slashes included. *)
Theorem pluginKey_of_labelled_name key label :
  ~ In "/"%char (list_ascii_of_string key) ->
  pluginKey (String.append key (String "/" label)) = key.
Proof. intros Hno. exact (proj1 (pluginKey_of_key key Hno label)). Qed.

Lemma pluginKey_of_labelled_name_witness :
  pluginKey (String.append "echo" (String "/" "main/2")) = "echo".
Proof.
  apply (pluginKey_of_labelled_name "echo" "main/2").
  cbn. intros Hin. repeat (destruct Hin as [Hin|Hin]; [discriminate Hin|]). exact Hin.
Defined.

Lemma pluginOn_listed (cnames : list string) name :
  pluginOn (Some cnames) name = true
  <-> exists cname,
        In cname cnames
        /\ (name = cname \/ exists label, name = String.append cname (String "/" label)).
Proof.
  cbn [pluginOn]. rewrite existsb_exists. split.
  - intros (cname & Hin & Hm). exists cname. split; [exact Hin|].
    apply pluginOn_match_spec. exact Hm.
  - intros (cname & Hin & Hm). exists cname. split; [exact Hin|].
    apply pluginOn_match_spec. exact Hm.
Qed.

(** X3. [pluginOn]: with no list configured every plugin is on; with a list,
    a plugin is on exactly when some configured name is its name or is
    followed in its name by a slash and a label.  So an empty list turns
    every plugin off. *)
Theorem pluginOn_iff_configured (Plugins : option (list string)) name :
  pluginOn Plugins name = true
  <-> match Plugins with
      | None => True
      | Some cnames =>
          exists cname,
            In cname cnames
            /\ (name = cname \/ exists label, name = String.append cname (String "/" label))
      end.
Proof.
  destruct Plugins as [cnames|]; [apply pluginOn_listed|].
  cbn [pluginOn]. tauto.
Qed.

(** X4. When no configured name holds a slash, a plugin is on exactly when
    its key, under which [startPlugin] looks it up in the registry, is in
    the configured list. *)
Theorem pluginOn_iff_key_configured (cnames : list string) name :
  Forall (fun cname => ~ In "/"%char (list_ascii_of_string cname)) cnames ->
  pluginOn (Some cnames) name = true <-> In (pluginKey name) cnames.
Proof.
  intros Hno. rewrite pluginOn_listed. split.
  - intros (cname & Hin & Hm).
    rewrite List.Forall_forall in Hno. specialize (Hno cname Hin).
    destruct Hm as [-> | [label ->]].
    + rewrite (proj2 (pluginKey_of_key cname Hno EmptyString)). exact Hin.
    + rewrite (proj1 (pluginKey_of_key cname Hno label)). exact Hin.
  - intros Hin. exists (pluginKey name). split; [exact Hin|]. apply pluginKey_split.
Qed.

Lemma pluginOn_iff_key_configured_witness :
  pluginOn (Some ["log"; "echo"]) "echo/main" = true.
Proof.
  apply (pluginOn_iff_key_configured ["log"; "echo"] "echo/main").
  - repeat constructor; cbn; intros Hin;
      repeat (destruct Hin as [Hin|Hin]; [discriminate Hin|]); exact Hin.
  - cbn. right. left. reflexivity.
Defined.

End names_facts.

(* ===================================================================== *)
(** * The registry of plugins *)
(* ===================================================================== *)

Module registry_facts.
Import mup mup_ext.

Section Registry.

Context `{Externals}.

Implicit Types (reg : gmap string PluginSpec) (sp : PluginSpec) (sps : list PluginSpec).

(** X5. A sequence of registrations goes through exactly when the names
    are not empty, distinct and not registered before; every specification
    is then found under its name and every other entry of the registry is
    as it was.  Otherwise it panics: an entry is never replaced. *)
Theorem registrations_never_replace reg sps :
  match RegisterPlugins reg sps with
  | Ok reg' =>
      NoDup (spec_Name <$> sps)
      /\ Forall (fun sp => spec_Name sp <> EmptyString /\ reg !! spec_Name sp = None) sps
      /\ (forall sp, sp ∈ sps -> reg' !! spec_Name sp = Some sp)
      /\ (forall name, name ∉ spec_Name <$> sps -> reg' !! name = reg !! name)
  | Err _ => False
  | Panic _ =>
      ~ (NoDup (spec_Name <$> sps)
         /\ Forall (fun sp => spec_Name sp <> EmptyString /\ reg !! spec_Name sp = None) sps)
  end.
Proof.
  revert reg. induction sps as [|sp sps IH]; intros reg.
  - cbn. repeat split; [constructor|constructor|intros sp Hin; inversion Hin].
  - cbn [RegisterPlugins]. unfold RegisterPlugin.
    destruct (String.eqb (spec_Name sp) EmptyString) eqn:He.
    { apply String.eqb_eq in He. intros [_ Hall]. apply Forall_cons in Hall as [[Hne _] _].
      exact (Hne He). }
    apply String.eqb_neq in He.
    destruct (reg !! spec_Name sp) as [old|] eqn:Hold.
    { intros [_ Hall]. apply Forall_cons in Hall as [[_ Hnew] _]. congruence. }
    specialize (IH (<[ spec_Name sp := sp ]> reg)).
    destruct (RegisterPlugins (<[ spec_Name sp := sp ]> reg) sps) as [reg'|e|reason].
    + destruct IH as (Hnd & Hall & Hin & Hout).
      assert (Hfresh : spec_Name sp ∉ spec_Name <$> sps).
      { intros Hm. apply list_elem_of_fmap in Hm as (sp' & Heq & Hsp').
        rewrite Forall_forall in Hall. destruct (Hall sp' Hsp') as [_ Hnone].
        rewrite <- Heq, lookup_insert_eq in Hnone. discriminate. }
      split; [rewrite fmap_cons; apply NoDup_cons; split; assumption|].
      split; [|split].
      * constructor; [split; assumption|].
        apply Forall_forall. intros sp' Hsp'. rewrite Forall_forall in Hall.
        destruct (Hall sp' Hsp') as [Hne' Hnone]. split; [exact Hne'|].
        apply lookup_insert_None in Hnone. tauto.
      * intros sp' Hsp'. apply elem_of_cons in Hsp' as [-> | Hsp']; [|exact (Hin _ Hsp')].
        rewrite (Hout _ Hfresh). apply lookup_insert_eq.
      * intros name Hname. rewrite fmap_cons in Hname.
        apply not_elem_of_cons in Hname as [Hne' Hname].
        rewrite (Hout _ Hname). apply lookup_insert_ne. congruence.
    + exact IH.
    + intros [Hnd Hall]. apply IH.
      rewrite fmap_cons in Hnd. apply NoDup_cons in Hnd as [Hfresh Hnd].
      apply Forall_cons in Hall as [_ Hall]. split; [exact Hnd|].
      apply Forall_forall. intros sp' Hsp'. rewrite Forall_forall in Hall.
      destruct (Hall sp' Hsp') as [Hne' Hnone]. split; [exact Hne'|].
      apply lookup_insert_None. split; [exact Hnone|].
      intros Heq. apply Hfresh. rewrite Heq. apply list_elem_of_fmap_2. exact Hsp'.
Qed.

End Registry.

End registry_facts.

(* ===================================================================== *)
(** * The refresh pass, plugin by plugin *)
(* ===================================================================== *)

Module refresh_facts.
Import mup mup_ext mup_facts.

Section Pass.

Context `{Externals}.
Variable registeredPlugins : gmap string PluginSpec.

Implicit Types (m : pluginManager) (env : RefreshEnv) (v w : refreshVars)
  (i j : pluginInfo) (infos l : list pluginInfo) (n : string)
  (Plugins : option (list string)).

(** The variables of the pass before its first document. *)
Local Abbreviation vars0 m :=
  {| r_plugins := plugins m; r_seen := ∅; r_found := 0;
     r_rollbackId := EmptyString; r_trace := [] |}.

Local Abbreviation step Plugins env := (refresh_info registeredPlugins Plugins env).

(** *** One document *)

(** The events of one document are events of its plugin. *)
Lemma refresh_info_tagged Plugins env v i :
  exists post,
    r_trace (step Plugins env v i) = r_trace v ++ post
    /\ Forall (fun e => event_plugin e = Some (Name i)) post.
Proof.
  unfold refresh_info.
  destruct (pluginOn Plugins (Name i)); cbn [negb];
    [|exists []; rewrite app_nil_r; split; [reflexivity|constructor]].
  destruct (r_plugins v !! Name i) as [st|];
    [destruct (pluginChanged (info st) i); cbn [negb]|];
    try destruct (startPlugin registeredPlugins (clock env (Name i)) i); cbn [r_trace];
    rewrite <- ?app_assoc;
    eexists; (split; [try reflexivity; symmetry; apply app_nil_r|]);
    repeat constructor.
Qed.

Lemma refresh_info_seen_iff Plugins env v i n :
  n ∈ r_seen (step Plugins env v i)
  <-> n ∈ r_seen v \/ (n = Name i /\ pluginOn Plugins (Name i) = true).
Proof.
  unfold refresh_info.
  destruct (pluginOn Plugins (Name i)); cbn [negb]; [|intuition discriminate].
  destruct (r_plugins v !! Name i) as [st|];
    [destruct (pluginChanged (info st) i); cbn [negb]|];
    try destruct (startPlugin registeredPlugins (clock env (Name i)) i); cbn [r_seen];
    set_solver.
Qed.

Lemma refresh_info_found Plugins env v i :
  r_found (step Plugins env v i)
  = (r_found v
     + if pluginOn Plugins (Name i) && bool_decide (is_Some (r_plugins v !! Name i))
       then 1 else 0)%nat.
Proof.
  unfold refresh_info.
  destruct (pluginOn Plugins (Name i)); cbn [negb andb]; [|lia].
  destruct (r_plugins v !! Name i) as [st|].
  - rewrite bool_decide_true by eauto.
    destruct (pluginChanged (info st) i); cbn [negb];
      try destruct (startPlugin registeredPlugins (clock env (Name i)) i); cbn [r_found]; lia.
  - rewrite bool_decide_false by (intros [? ?]; discriminate).
    destruct (startPlugin registeredPlugins (clock env (Name i)) i); cbn [r_found]; lia.
Qed.

(** What a document does to its plugin depends on the variables only
    through the plugin's entry. *)
Lemma refresh_info_local Plugins env v w i :
  r_plugins v !! Name i = r_plugins w !! Name i ->
  r_plugins (step Plugins env v i) !! Name i = r_plugins (step Plugins env w i) !! Name i
  /\ exists post,
       r_trace (step Plugins env v i) = r_trace v ++ post
       /\ r_trace (step Plugins env w i) = r_trace w ++ post.
Proof.
  intros Hl. unfold refresh_info.
  destruct (pluginOn Plugins (Name i)); cbn [negb];
    [|split; [exact Hl|exists []; rewrite !app_nil_r; split; reflexivity]].
  rewrite <- Hl.
  destruct (r_plugins v !! Name i) as [st|] eqn:Hv.
  - destruct (pluginChanged (info st) i); cbn [negb].
    + destruct (startPlugin registeredPlugins (clock env (Name i)) i) as [st'|];
        cbn [r_plugins r_trace]; rewrite ?lookup_insert_eq, ?lookup_delete_eq, <- ?app_assoc;
        (split; [reflexivity|]); eexists; split; reflexivity.
    + cbn [r_plugins r_trace]. split; [congruence|].
      exists []. rewrite !app_nil_r. split; reflexivity.
  - destruct (startPlugin registeredPlugins (clock env (Name i)) i) as [st'|];
      cbn [r_plugins r_trace]; rewrite ?lookup_insert_eq.
    + split; [reflexivity|]. eexists; split; reflexivity.
    + split; [congruence|]. exists []. rewrite !app_nil_r. split; reflexivity.
Qed.

(** *** The loop over the documents *)

Lemma fold_events_other Plugins env l :
  forall v n,
    n ∉ Name <$> l ->
    events_of n (r_trace (foldl (step Plugins env) v l)) = events_of n (r_trace v).
Proof.
  induction l as [|i l IH]; intros v n Hn; [reflexivity|].
  rewrite fmap_cons in Hn. apply not_elem_of_cons in Hn as [Hi Hn].
  cbn [foldl]. rewrite (IH _ _ Hn).
  destruct (refresh_info_tagged Plugins env v i) as (post & -> & Hpost).
  rewrite events_of_app, (events_of_none n (Name i) post), app_nil_r; auto.
Qed.

Lemma fold_seen_iff Plugins env l :
  forall v n,
    n ∈ r_seen (foldl (step Plugins env) v l)
    <-> n ∈ r_seen v \/ exists i, i ∈ l /\ Name i = n /\ pluginOn Plugins n = true.
Proof.
  induction l as [|i l IH]; intros v n; cbn [foldl].
  - split; [auto|]. intros [Hn | (i & Hi & _)]; [exact Hn|inversion Hi].
  - rewrite IH, refresh_info_seen_iff. split.
    + intros [[Hn | [-> Hon]] | (j & Hj & Hjn & Hon)]; [auto| |].
      * right. exists i. split; [left|auto].
      * right. exists j. split; [right; exact Hj|auto].
    + intros [Hn | (j & Hj & Hjn & Hon)]; [auto|].
      apply elem_of_cons in Hj as [-> | Hj].
      * left. right. subst n. auto.
      * right. exists j. auto.
Qed.

(** The entry and the events of the plugin of a document after the loop are
    those the document alone gives from the start of the pass. *)
Lemma fold_at_document m env l :
  forall v i,
    NoDup (Name <$> l) ->
    i ∈ l ->
    (forall j, j ∈ l -> r_plugins v !! Name j = plugins m !! Name j) ->
    r_plugins (foldl (step (config_Plugins m) env) v l) !! Name i
    = r_plugins (step (config_Plugins m) env (vars0 m) i) !! Name i
    /\ events_of (Name i) (r_trace (foldl (step (config_Plugins m) env) v l))
       = events_of (Name i) (r_trace v)
         ++ events_of (Name i) (r_trace (step (config_Plugins m) env (vars0 m) i)).
Proof.
  induction l as [|i0 l IH]; intros v i Hnd Hin Hv; [inversion Hin|].
  rewrite fmap_cons in Hnd. apply NoDup_cons in Hnd as [Hi0 Hnd]. cbn [foldl].
  apply elem_of_cons in Hin as [-> | Hin].
  - rewrite refresh_fold_other by exact Hi0.
    rewrite fold_events_other by exact Hi0.
    destruct (refresh_info_local (config_Plugins m) env v (vars0 m) i0) as (Hp & post & Ht & Ht0).
    { apply Hv. left. }
    split; [exact Hp|]. rewrite Ht, Ht0. cbn [r_trace app].
    apply events_of_app.
  - destruct (IH (step (config_Plugins m) env v i0) i Hnd Hin) as [Hp He].
    { exact (refresh_info_keeps registeredPlugins m env v i0 l Hi0 Hv). }
    split; [exact Hp|]. rewrite He. f_equal.
    destruct (refresh_info_tagged (config_Plugins m) env v i0) as (post & -> & Hpost).
    rewrite events_of_app, (events_of_none (Name i) (Name i0) post), app_nil_r; auto.
    intros Heq. apply Hi0. rewrite Heq. apply list_elem_of_fmap_2. exact Hin.
Qed.

Lemma fold_found m env l :
  forall v,
    NoDup (Name <$> l) ->
    (forall j, j ∈ l -> r_plugins v !! Name j = plugins m !! Name j) ->
    r_found (foldl (step (config_Plugins m) env) v l)
    = (r_found v
       + length (List.filter
                   (fun j => pluginOn (config_Plugins m) (Name j)
                             && bool_decide (is_Some (plugins m !! Name j))) l))%nat.
Proof.
  induction l as [|i l IH]; intros v Hnd Hv; [cbn; lia|].
  rewrite fmap_cons in Hnd. apply NoDup_cons in Hnd as [Hi Hnd]. cbn [foldl List.filter].
  rewrite IH; [|exact Hnd|exact (refresh_info_keeps registeredPlugins m env v i l Hi Hv)].
  rewrite refresh_info_found, (Hv i) by left.
  destruct (_ && _); cbn [length]; lia.
Qed.

(** *** Counting the plugins found *)

Lemma NoDup_names_filter (g : pluginInfo -> bool) l :
  NoDup (Name <$> l) -> NoDup (Name <$> List.filter g l).
Proof.
  induction l as [|i l IH]; intros Hnd; [constructor|].
  rewrite fmap_cons in Hnd. apply NoDup_cons in Hnd as [Hi Hnd]. cbn [List.filter].
  destruct (g i); [|exact (IH Hnd)].
  rewrite fmap_cons. apply NoDup_cons. split; [|exact (IH Hnd)].
  intros Hin. apply Hi. apply list_elem_of_fmap in Hin as (j & -> & Hj).
  apply list_elem_of_fmap_2. apply list_elem_of_In, List.filter_In in Hj as [Hj _].
  apply list_elem_of_In. exact Hj.
Qed.

(** A running plugin without a document that counts leaves [found] below
    [known]. *)
Lemma found_below_known m l n :
  NoDup (Name <$> l) ->
  is_Some (plugins m !! n) ->
  (forall j, j ∈ l -> Name j = n -> pluginOn (config_Plugins m) n = false) ->
  (length (List.filter
             (fun j => pluginOn (config_Plugins m) (Name j)
                       && bool_decide (is_Some (plugins m !! Name j))) l)
   < size (plugins m))%nat.
Proof.
  intros Hnd Hn Hno.
  set (g := fun j => pluginOn (config_Plugins m) (Name j)
                     && bool_decide (is_Some (plugins m !! Name j))).
  rewrite <- (length_fmap Name).
  rewrite <- (size_list_to_set (C := gset string)) by exact (NoDup_names_filter g l Hnd).
  rewrite <- (size_dom (D := gset string)).
  apply subset_size. split.
  - intros k Hk. apply elem_of_list_to_set, list_elem_of_fmap in Hk as (j & -> & Hj).
    apply list_elem_of_In, List.filter_In in Hj as [_ Hg]. unfold g in Hg.
    apply andb_true_iff in Hg as [_ Hg]. apply bool_decide_eq_true in Hg.
    apply elem_of_dom. exact Hg.
  - intros Hsub. assert (Hin : n ∈ dom (plugins m)) by (apply elem_of_dom; exact Hn).
    apply Hsub, elem_of_list_to_set, list_elem_of_fmap in Hin as (j & Hjn & Hj).
    apply list_elem_of_In, List.filter_In in Hj as [Hj Hg]. unfold g in Hg.
    apply andb_true_iff in Hg as [Hon _]. apply list_elem_of_In in Hj.
    rewrite <- Hjn, (Hno j Hj (eq_sym Hjn)) in Hon. discriminate.
Qed.

(** *** Removal *)

Lemma stops_of_unseen (p : string * pluginState -> bool) (ps : list (string * pluginState)) n :
  NoDup ps.*1 ->
  events_of n ((fun ns => PluginStop (fst ns)) <$> List.filter p ps)
  = match list_to_map (M := gmap string pluginState) ps !! n with
    | Some st => if p (n, st) then [PluginStop n] else []
    | None => []
    end.
Proof.
  induction ps as [|[k st] ps IH]; intros Hnd; [reflexivity|].
  rewrite fmap_cons in Hnd. apply NoDup_cons in Hnd as [Hk Hnd]. cbn [fst] in Hk.
  apply (not_elem_of_list_to_map_1 (M := gmap string)) in Hk.
  cbn [List.filter list_to_map foldr uncurry fst snd].
  destruct (decide (k = n)) as [->|Hne].
  - rewrite lookup_insert_eq. destruct (p (n, st)).
    + rewrite fmap_cons. unfold events_of in *. cbn [List.filter fst].
      unfold of_plugin at 1. cbn [event_plugin]. rewrite String.eqb_refl.
      rewrite (IH Hnd), Hk. reflexivity.
    + rewrite (IH Hnd), Hk. reflexivity.
  - rewrite lookup_insert_ne by exact Hne. destruct (p (k, st)); [|exact (IH Hnd)].
    rewrite fmap_cons. unfold events_of in *. cbn [List.filter fst].
    unfold of_plugin at 1. cbn [event_plugin].
    apply String.eqb_neq in Hne. rewrite Hne. exact (IH Hnd).
Qed.

Lemma remove_seen (known : nat) v n :
  n ∈ r_seen v ->
  r_plugins (refresh_remove known v) !! n = r_plugins v !! n
  /\ events_of n (r_trace (refresh_remove known v)) = events_of n (r_trace v).
Proof.
  intros Hn. split; [apply refresh_remove_seen; exact Hn|].
  unfold refresh_remove. destruct (known =? r_found v)%nat; [reflexivity|].
  cbn [r_trace]. rewrite events_of_app, stops_of_unseen by apply NoDup_fst_map_to_list.
  rewrite list_to_map_to_list. destruct (r_plugins v !! n); [|apply app_nil_r].
  cbn [fst]. rewrite bool_decide_true by exact Hn. apply app_nil_r.
Qed.

Lemma remove_unseen (known : nat) v n :
  n ∉ r_seen v ->
  known <> r_found v ->
  r_plugins (refresh_remove known v) !! n = None
  /\ events_of n (r_trace (refresh_remove known v))
     = events_of n (r_trace v)
       ++ match r_plugins v !! n with Some _ => [PluginStop n] | None => [] end.
Proof.
  intros Hn Hk. unfold refresh_remove. apply Nat.eqb_neq in Hk. rewrite Hk.
  cbn [r_plugins r_trace]. split.
  - apply map_lookup_filter_None. right. intros st _. exact Hn.
  - rewrite events_of_app, stops_of_unseen by apply NoDup_fst_map_to_list.
    rewrite list_to_map_to_list. destruct (r_plugins v !! n); [|reflexivity].
    cbn [fst]. rewrite bool_decide_false by exact Hn. reflexivity.
Qed.

Lemma events_of_rollback env v n :
  events_of n (refresh_rollback env v) = events_of n (r_trace v).
Proof.
  unfold refresh_rollback.
  destruct (String.eqb _ _); [reflexivity|].
  destruct (negb _); [reflexivity|].
  destruct (rollback_taken env); rewrite events_of_app; apply app_nil_r.
Qed.

(** *** The pass as a whole, for one plugin *)

Lemma pass_shape m env infos n :
  fetched env = Some infos ->
  plugins (fst (refreshPlugins registeredPlugins m env)) !! n
  = r_plugins (refresh_remove (size (plugins m))
                 (foldl (step (config_Plugins m) env) (vars0 m) infos)) !! n
  /\ events_of n (snd (refreshPlugins registeredPlugins m env))
     = events_of n (r_trace (refresh_remove (size (plugins m))
                               (foldl (step (config_Plugins m) env) (vars0 m) infos))).
Proof.
  intros Hf. unfold refreshPlugins. rewrite Hf. cbn [fst snd plugins set_plugins].
  split; [reflexivity|]. apply events_of_rollback.
Qed.

(** The plugin of an enabled document is seen, and then the removal leaves
    it as the loop left it. *)
Lemma pass_at_document m env infos i :
  fetched env = Some infos ->
  NoDup (Name <$> infos) ->
  i ∈ infos ->
  pluginOn (config_Plugins m) (Name i) = true ->
  plugins (fst (refreshPlugins registeredPlugins m env)) !! Name i
  = r_plugins (step (config_Plugins m) env (vars0 m) i) !! Name i
  /\ events_of (Name i) (snd (refreshPlugins registeredPlugins m env))
     = events_of (Name i) (r_trace (step (config_Plugins m) env (vars0 m) i)).
Proof.
  intros Hf Hnd Hin Hon.
  destruct (pass_shape m env infos (Name i) Hf) as [-> ->].
  destruct (remove_seen (size (plugins m))
              (foldl (step (config_Plugins m) env) (vars0 m) infos) (Name i)) as [-> ->].
  { apply fold_seen_iff. right. exists i. auto. }
  destruct (fold_at_document m env infos (vars0 m) i Hnd Hin) as [-> ->];
    [intros j _; reflexivity|]. split; reflexivity.
Qed.

(** A running plugin without an enabled document is stopped and removed. *)
Lemma pass_without_document m env infos n st :
  fetched env = Some infos ->
  NoDup (Name <$> infos) ->
  plugins m !! n = Some st ->
  (forall j, j ∈ infos -> Name j = n -> pluginOn (config_Plugins m) n = false) ->
  plugins (fst (refreshPlugins registeredPlugins m env)) !! n = None
  /\ events_of n (snd (refreshPlugins registeredPlugins m env))
     = events_of n (r_trace (foldl (step (config_Plugins m) env) (vars0 m) infos))
       ++ match r_plugins (foldl (step (config_Plugins m) env) (vars0 m) infos) !! n with
          | Some _ => [PluginStop n]
          | None => []
          end.
Proof.
  intros Hf Hnd Hst Hno.
  destruct (pass_shape m env infos n Hf) as [-> ->].
  apply remove_unseen.
  - intros Hseen. apply fold_seen_iff in Hseen as [Hseen | (j & Hj & Hjn & Hon)].
    + cbn [r_seen] in Hseen. set_solver.
    + rewrite (Hno j Hj Hjn) in Hon. discriminate.
  - rewrite (fold_found m env infos (vars0 m) Hnd) by (intros j _; reflexivity).
    cbn [r_found]. pose proof (found_below_known m infos n Hnd (mk_is_Some _ _ Hst) Hno). lia.
Qed.

(** X6. A running plugin whose document is no longer among the fetched ones
    is stopped and removed by the pass, and that stop is the only event of
    the plugin. *)
Theorem vanished_plugin_is_stopped m env infos n st :
  fetched env = Some infos ->
  NoDup (Name <$> infos) ->
  plugins m !! n = Some st ->
  n ∉ Name <$> infos ->
  plugins (fst (refreshPlugins registeredPlugins m env)) !! n = None
  /\ events_of n (snd (refreshPlugins registeredPlugins m env)) = [PluginStop n].
Proof.
  intros Hf Hnd Hst Hn.
  destruct (pass_without_document m env infos n st Hf Hnd Hst) as [Hp He].
  { intros j Hj Hjn. exfalso. apply Hn. rewrite <- Hjn. apply list_elem_of_fmap_2. exact Hj. }
  split; [exact Hp|]. rewrite He.
  rewrite fold_events_other, refresh_fold_other by exact Hn.
  cbn [r_trace r_plugins]. rewrite Hst. reflexivity.
Qed.

(** X7. In every state the manager reaches, a running plugin whose document
    has the configuration and the targets it runs with is left alone by the
    pass: it keeps its state, its position included, and has no event. *)
Theorem unchanged_plugin_is_left_alone m env infos i st :
  reachable registeredPlugins m ->
  fetched env = Some infos ->
  NoDup (Name <$> infos) ->
  i ∈ infos ->
  plugins m !! Name i = Some st ->
  pluginChanged (info st) i = false ->
  plugins (fst (refreshPlugins registeredPlugins m env)) !! Name i = Some st
  /\ events_of (Name i) (snd (refreshPlugins registeredPlugins m env)) = [].
Proof.
  intros Hreach Hf Hnd Hin Hst Hch.
  destruct (reachable_ok registeredPlugins m Hreach _ _ Hst) as (Hon & _).
  destruct (pass_at_document m env infos i Hf Hnd Hin Hon) as [-> ->].
  unfold refresh_info. cbn [r_plugins]. rewrite Hon, Hst, Hch. cbn [negb r_plugins r_trace].
  split; [exact Hst|reflexivity].
Qed.

(** X8. An enabled document of a registered plugin that is not running
    starts the plugin: the pass calls [Start] and then writes the commands
    of the plugin, and the plugin runs with the document's configuration
    and targets at the position [startedLastId]. *)
Theorem new_plugin_is_started m env infos i sp :
  fetched env = Some infos ->
  NoDup (Name <$> infos) ->
  i ∈ infos ->
  pluginOn (config_Plugins m) (Name i) = true ->
  plugins m !! Name i = None ->
  registeredPlugins !! pluginKey (Name i) = Some sp ->
  plugins (fst (refreshPlugins registeredPlugins m env)) !! Name i
  = Some {| info := set_LastId (startedLastId (clock env (Name i)) i) i; spec := sp;
            plugger := {| plugger_name := Name i; plugger_config := Config i;
                          plugger_targets := Targets i |};
            plugin := spec_Start sp {| plugger_name := Name i; plugger_config := Config i;
                                       plugger_targets := Targets i |} |}
  /\ events_of (Name i) (snd (refreshPlugins registeredPlugins m env))
     = [PluginStart (Name i); UpdateCommands (Name i)].
Proof.
  intros Hf Hnd Hin Hon Hst Hr.
  destruct (pass_at_document m env infos i Hf Hnd Hin Hon) as [-> ->].
  unfold refresh_info. cbn [r_plugins]. rewrite Hon, Hst. cbn [negb].
  rewrite (startPlugin_registered _ _ _ _ Hr). cbn [r_plugins r_trace app].
  split; [apply lookup_insert_eq|].
  unfold events_of. cbn [List.filter]. unfold of_plugin. cbn [event_plugin].
  rewrite String.eqb_refl. reflexivity.
Qed.

(** X9. An enabled document of a plugin that is not registered is skipped:
    nothing is started and no event is made for it, and the plugin is not
    running after the pass. *)
Theorem unregistered_document_is_skipped m env infos i :
  fetched env = Some infos ->
  NoDup (Name <$> infos) ->
  i ∈ infos ->
  pluginOn (config_Plugins m) (Name i) = true ->
  plugins m !! Name i = None ->
  registeredPlugins !! pluginKey (Name i) = None ->
  plugins (fst (refreshPlugins registeredPlugins m env)) !! Name i = None
  /\ events_of (Name i) (snd (refreshPlugins registeredPlugins m env)) = [].
Proof.
  intros Hf Hnd Hin Hon Hst Hr.
  destruct (pass_at_document m env infos i Hf Hnd Hin Hon) as [-> ->].
  unfold refresh_info. cbn [r_plugins]. rewrite Hon, Hst. cbn [negb].
  rewrite (startPlugin_unregistered _ _ _ Hr). cbn [r_plugins r_trace].
  split; [exact Hst|reflexivity].
Qed.

(** *** Agreement with the documents *)

Lemma fold_unseen Plugins env l :
  forall v n,
    n ∉ r_seen (foldl (step Plugins env) v l) ->
    r_plugins (foldl (step Plugins env) v l) !! n = r_plugins v !! n.
Proof.
  induction l as [|i l IH]; intros v n Hn; cbn [foldl] in *; [reflexivity|].
  rewrite (IH _ _ Hn).
  destruct (pluginOn Plugins (Name i)) eqn:Hon.
  - apply refresh_info_other. intros <-. apply Hn, refresh_fold_seen.
    apply refresh_info_seen_iff. right. auto.
  - unfold refresh_info. rewrite Hon. reflexivity.
Qed.

Lemma remove_lookup_Some (known : nat) v n st :
  r_plugins (refresh_remove known v) !! n = Some st -> r_plugins v !! n = Some st.
Proof.
  unfold refresh_remove. destruct (known =? r_found v)%nat; [auto|].
  cbn [r_plugins]. intros Hl. apply map_lookup_filter_Some in Hl. tauto.
Qed.

Lemma dispatch_changed msg cmdName n (st : pluginState) i :
  pluginChanged (info (fst (dispatch msg cmdName n st))) i = pluginChanged (info st) i.
Proof. unfold dispatch. destruct (_ || _); reflexivity. Qed.

Lemma started_unchanged (now : Z) i st :
  startPlugin registeredPlugins now i = Some st -> pluginChanged (info st) i = false.
Proof.
  destruct (registeredPlugins !! pluginKey (Name i)) as [sp|] eqn:Hr.
  - rewrite (startPlugin_registered _ _ _ _ Hr). intros [= <-].
    unfold pluginChanged. cbn. rewrite !String.eqb_refl. reflexivity.
  - rewrite (startPlugin_unregistered _ _ _ Hr). discriminate.
Qed.

Lemma started_registered (now : Z) i :
  startPlugin registeredPlugins now i = None ->
  registeredPlugins !! pluginKey (Name i) = None.
Proof.
  destruct (registeredPlugins !! pluginKey (Name i)) as [sp|] eqn:Hr; [|reflexivity].
  rewrite (startPlugin_registered _ _ _ _ Hr). discriminate.
Qed.

(** What one enabled document leaves under its name. *)
Lemma step_at_document Plugins env v i :
  pluginOn Plugins (Name i) = true ->
  match r_plugins (step Plugins env v i) !! Name i with
  | Some st => pluginChanged (info st) i = false
  | None => registeredPlugins !! pluginKey (Name i) = None
  end.
Proof.
  intros Hon. unfold refresh_info. rewrite Hon. cbn [negb].
  destruct (r_plugins v !! Name i) as [st|] eqn:Hst.
  - destruct (pluginChanged (info st) i) eqn:Hch; cbn [negb r_plugins].
    + destruct (startPlugin _ _ _) as [st'|] eqn:Hs; cbn [r_plugins].
      * rewrite lookup_insert_eq. eapply started_unchanged, Hs.
      * rewrite lookup_delete_eq. eapply started_registered, Hs.
    + rewrite Hst. exact Hch.
  - destruct (startPlugin _ _ _) as [st'|] eqn:Hs; cbn [r_plugins].
    + rewrite lookup_insert_eq. eapply started_unchanged, Hs.
    + rewrite Hst. eapply started_registered, Hs.
Qed.

Lemma refresh_settles m env infos :
  fetched env = Some infos ->
  NoDup (Name <$> infos) ->
  settled registeredPlugins (fst (refreshPlugins registeredPlugins m env)) infos.
Proof.
  intros Hf Hnd.
  assert (Hrun : forall name st,
             plugins (fst (refreshPlugins registeredPlugins m env)) !! name = Some st ->
             pluginOn (config_Plugins m) name = true /\ name ∈ Name <$> infos).
  { intros name st Hl.
    destruct (decide (name ∈ r_seen (foldl (step (config_Plugins m) env) (vars0 m) infos)))
      as [Hseen | Hseen].
    - apply fold_seen_iff in Hseen as [Hseen | (j & Hj & Hjn & Hon)];
        [cbn [r_seen] in Hseen; set_solver|].
      split; [exact Hon|]. rewrite <- Hjn. apply list_elem_of_fmap_2, Hj.
    - exfalso. pose proof Hl as Hl'.
      rewrite (proj1 (pass_shape m env infos name Hf)) in Hl'.
      apply remove_lookup_Some in Hl'. rewrite (fold_unseen _ _ _ _ _ Hseen) in Hl'.
      cbn [r_plugins] in Hl'.
      destruct (pass_without_document m env infos name st Hf Hnd Hl') as [Hp _].
      + intros j Hj Hjn. destruct (pluginOn (config_Plugins m) name) eqn:Hon; [|reflexivity].
        exfalso. apply Hseen, fold_seen_iff. right. exists j. auto.
      + rewrite Hp in Hl. discriminate. }
  split.
  - intros name st Hl. destruct (Hrun name st Hl) as [Hon Hname].
    apply list_elem_of_fmap in Hname as (i & -> & Hi).
    exists i. rewrite refreshPlugins_config. repeat split; auto.
    rewrite (proj1 (pass_at_document m env infos i Hf Hnd Hi Hon)) in Hl.
    pose proof (step_at_document (config_Plugins m) env (vars0 m) i Hon) as Hd.
    rewrite Hl in Hd. exact Hd.
  - intros i Hi Hon Hl. rewrite refreshPlugins_config in Hon.
    rewrite (proj1 (pass_at_document m env infos i Hf Hnd Hi Hon)) in Hl.
    pose proof (step_at_document (config_Plugins m) env (vars0 m) i Hon) as Hd.
    rewrite Hl in Hd. exact Hd.
Qed.

Lemma loop_incoming_settled m msg infos :
  settled registeredPlugins m infos ->
  settled registeredPlugins (fst (loop_incoming m msg)) infos.
Proof.
  intros [Hrun Hoff]. unfold loop_incoming.
  destruct (String.eqb (Command msg) cmdPong); cbn [fst]; [split; assumption|].
  split; cbn [plugins set_plugins config_Plugins].
  - intros name st Hl. rewrite map_lookup_imap in Hl.
    destruct (plugins m !! name) as [st0|] eqn:H0; [|discriminate].
    cbn [mbind option_bind] in Hl. injection Hl as <-.
    destruct (Hrun _ _ H0) as (i & Hi & Hn & Hon & Hch).
    exists i. rewrite dispatch_changed. auto.
  - intros i Hi Hon Hl. apply Hoff; [exact Hi|exact Hon|].
    rewrite map_lookup_imap in Hl.
    destruct (plugins m !! Name i); [discriminate|reflexivity].
Qed.

Lemma loop_incomings_settled msgs :
  forall m infos,
    settled registeredPlugins m infos ->
    settled registeredPlugins (loop_incomings m msgs) infos.
Proof.
  induction msgs as [|msg msgs IH]; intros m infos Hs; [exact Hs|].
  apply IH, loop_incoming_settled, Hs.
Qed.

Lemma NoDup_names_inj l i j :
  NoDup (Name <$> l) -> i ∈ l -> j ∈ l -> Name i = Name j -> i = j.
Proof.
  induction l as [|a l IH]; intros Hnd Hi Hj Hn; [inversion Hi|].
  rewrite fmap_cons in Hnd. apply NoDup_cons in Hnd as [Ha Hnd].
  apply elem_of_cons in Hi as [-> | Hi]; apply elem_of_cons in Hj as [-> | Hj]; auto.
  - exfalso. apply Ha. rewrite Hn. apply list_elem_of_fmap_2, Hj.
  - exfalso. apply Ha. rewrite <- Hn. apply list_elem_of_fmap_2, Hi.
Qed.

(** A pass over documents the manager agrees with goes through the loop
    without a change. *)
Lemma settled_fold m env infos :
  settled registeredPlugins m infos ->
  NoDup (Name <$> infos) ->
  forall l v,
    l ⊆ infos ->
    r_plugins v = plugins m ->
    r_plugins (foldl (step (config_Plugins m) env) v l) = plugins m
    /\ r_trace (foldl (step (config_Plugins m) env) v l) = r_trace v
    /\ r_rollbackId (foldl (step (config_Plugins m) env) v l) = r_rollbackId v.
Proof.
  intros [Hrun Hoff] Hnd. induction l as [|i l IH]; intros v Hl Hv; cbn [foldl]; [auto|].
  assert (Hi : i ∈ infos) by (apply Hl; left).
  assert (Hstep : r_plugins (step (config_Plugins m) env v i) = plugins m
                  /\ r_trace (step (config_Plugins m) env v i) = r_trace v
                  /\ r_rollbackId (step (config_Plugins m) env v i) = r_rollbackId v).
  { unfold refresh_info.
    destruct (pluginOn (config_Plugins m) (Name i)) eqn:Hon; cbn [negb]; [|auto].
    rewrite Hv. destruct (plugins m !! Name i) as [st|] eqn:Hst.
    - destruct (Hrun _ _ Hst) as (j & Hj & Hjn & _ & Hch).
      assert (j = i) as ->.
      { apply (NoDup_names_inj infos); auto. }
      rewrite Hch. cbn [negb r_plugins r_trace r_rollbackId]. auto.
    - rewrite (startPlugin_unregistered _ _ _ (Hoff i Hi Hon Hst)).
      cbn [r_plugins r_trace r_rollbackId]. auto. }
  destruct Hstep as (Hp & Ht & Hr).
  destruct (IH (step (config_Plugins m) env v i)) as (Hp' & Ht' & Hr').
  - intros x Hx. apply Hl. right. exact Hx.
  - exact Hp.
  - rewrite Hp', Ht', Hr'. auto.
Qed.

Lemma filter_nothing {A} (q : A -> bool) (l : list A) :
  (forall a, a ∈ l -> q a = false) -> List.filter q l = [].
Proof.
  induction l as [|a l IH]; intros Hq; [reflexivity|]. cbn [List.filter].
  rewrite (Hq a) by left. apply IH. intros b Hb. apply Hq. right. exact Hb.
Qed.

Lemma settled_pass m env infos :
  settled registeredPlugins m infos ->
  NoDup (Name <$> infos) ->
  fetched env = Some infos ->
  refreshPlugins registeredPlugins m env = (m, []).
Proof.
  intros Hs Hnd Hf. unfold refreshPlugins. rewrite Hf.
  destruct (settled_fold m env infos Hs Hnd infos (vars0 m)) as (Hp & Ht & Hr);
    [set_solver|reflexivity|].
  cbn [r_trace r_rollbackId] in Ht, Hr.
  assert (Hm : set_plugins (plugins m) m = m) by (destruct m; reflexivity).
  unfold refresh_remove.
  destruct (_ =? _)%nat.
  - unfold refresh_rollback. rewrite Hr, Hp, Ht, Hm. reflexivity.
  - unfold refresh_rollback. cbn [r_plugins r_trace r_rollbackId]. rewrite Hr, Hp, Ht.
    cbn [String.eqb app].
    assert (Hseen : forall n st, plugins m !! n = Some st ->
              n ∈ r_seen (foldl (step (config_Plugins m) env) (vars0 m) infos)).
    { intros n st Hst. destruct Hs as [Hrun _].
      destruct (Hrun _ _ Hst) as (j & Hj & Hjn & Hon & _).
      apply fold_seen_iff. right. exists j. auto. }
    rewrite map_filter_id by (intros n st Hst; exact (Hseen n st Hst)).
    rewrite Hm. f_equal.
    assert (Hnone : List.filter
              (fun ns : string * pluginState =>
                 negb (bool_decide
                         (ns.1 ∈ r_seen (foldl (step (config_Plugins m) env) (vars0 m) infos))))
              (map_to_list (plugins m)) = []).
    { apply filter_nothing. intros [n st] Hin.
      apply elem_of_map_to_list in Hin. cbn [fst].
      rewrite bool_decide_eq_true_2 by (eapply Hseen, Hin). reflexivity. }
    rewrite Hnone. reflexivity.
Qed.

(** X10. After a pass the running plugins agree with the documents it
    read, and dispatching inbound records keeps it so: every running
    plugin is enabled and has a document, with that document's
    configuration and targets, and an enabled document without a running
    plugin names a plugin that is not registered. *)
Theorem pass_reconciles_plugins_with_documents m env infos msgs :
  fetched env = Some infos ->
  NoDup (Name <$> infos) ->
  settled registeredPlugins
    (loop_incomings (fst (refreshPlugins registeredPlugins m env)) msgs) infos.
Proof.
  intros Hf Hnd. apply loop_incomings_settled, refresh_settles; assumption.
Qed.

(** X11. A second pass that reads the same documents, with any inbound
    records dispatched in between, does nothing: it starts and stops no
    plugin, asks for no rollback, and leaves the manager as it is. *)
Theorem second_pass_does_nothing m env env' infos msgs :
  fetched env = Some infos ->
  fetched env' = Some infos ->
  NoDup (Name <$> infos) ->
  refreshPlugins registeredPlugins
    (loop_incomings (fst (refreshPlugins registeredPlugins m env)) msgs) env'
  = (loop_incomings (fst (refreshPlugins registeredPlugins m env)) msgs, []).
Proof.
  intros Hf Hf' Hnd. apply (settled_pass _ env' infos); [|exact Hnd|exact Hf'].
  apply loop_incomings_settled, refresh_settles; assumption.
Qed.

(** X12. A pass asks for a rollback only when it has started a plugin,
    the wake-up record was inserted and the rollback channel took the
    request; a pass that starts nothing, or whose wake-up record is not
    inserted, sends none. *)
Theorem rollback_only_after_a_start m env infos r :
  fetched env = Some infos ->
  NoDup (Name <$> infos) ->
  SendRollback r ∈ snd (refreshPlugins registeredPlugins m env) ->
  started registeredPlugins m infos <> []
  /\ wake_inserted env = true
  /\ rollback_taken env = true.
Proof.
  intros Hf Hnd Hin.
  destruct (refreshPlugins_trace registeredPlugins m env infos Hf Hnd) as (v & Htr & Hpl & Hrb).
  rewrite Htr in Hin. unfold refresh_rollback in Hin.
  assert (Hno : SendRollback r ∈ r_trace v -> False).
  { intros Hr. rewrite Forall_forall in Hpl. exact (Hpl _ Hr eq_refl). }
  destruct (String.eqb (r_rollbackId v) EmptyString) eqn:He; [destruct (Hno Hin)|].
  destruct (wake_inserted env); cbn [negb] in Hin; [|destruct (Hno Hin)].
  destruct (rollback_taken env).
  - split; [|auto]. intros Hs. rewrite Hs in Hrb. cbn in Hrb. rewrite Hrb in He. discriminate.
  - apply elem_of_app in Hin as [Hin | Hin]; [destruct (Hno Hin)|].
    apply list_elem_of_singleton in Hin. discriminate.
Qed.

End Pass.

End refresh_facts.

(** The passes of the concrete bus. *)
Module refresh_examples.
Import mup mup_ext examples examples_ext refresh_facts.

#[local] Existing Instance ext.

Lemma vanished_plugin_is_stopped_witness :
  plugins (fst (refreshPlugins registry m_running env_gone)) !! "echo" = None
  /\ events_of "echo" (snd (refreshPlugins registry m_running env_gone)) = [PluginStop "echo"].
Proof.
  apply (vanished_plugin_is_stopped registry m_running env_gone [] "echo" st_echo).
  - reflexivity.
  - apply NoDup_nil_2.
  - vm_compute. reflexivity.
  - apply not_elem_of_nil.
Defined.

Lemma unchanged_plugin_is_left_alone_witness :
  plugins (fst (refreshPlugins registry m_running env_first)) !! "echo" = Some st_echo
  /\ events_of "echo" (snd (refreshPlugins registry m_running env_first)) = [].
Proof.
  apply (unchanged_plugin_is_left_alone registry m_running env_first
           [echo_info "v1" (id_at 1000)] (echo_info "v1" (id_at 1000)) st_echo).
  - replace m_running with (fst (refreshPlugins registry m_start env_first))
      by (vm_compute; reflexivity).
    apply reach_refresh, reach_start.
  - reflexivity.
  - apply NoDup_singleton.
  - apply list_elem_of_singleton. reflexivity.
  - vm_compute. reflexivity.
  - reflexivity.
Defined.

Lemma new_plugin_is_started_witness :
  plugins (fst (refreshPlugins registry m_empty env_refresh)) !! "echo"
  = Some {| info := echo_info "v2" (id_at 990); spec := echo_spec;
            plugger := echo_plugger "v2"; plugin := echo_plugin |}
  /\ events_of "echo" (snd (refreshPlugins registry m_empty env_refresh))
     = [PluginStart "echo"; UpdateCommands "echo"].
Proof.
  apply (new_plugin_is_started registry m_empty env_refresh [info_v2] info_v2 echo_spec).
  - reflexivity.
  - apply NoDup_singleton.
  - apply list_elem_of_singleton. reflexivity.
  - reflexivity.
  - vm_compute. reflexivity.
  - vm_compute. reflexivity.
Defined.

Lemma unregistered_document_is_skipped_witness :
  plugins (fst (refreshPlugins registry m_running env_ghost)) !! "ghost/main" = None
  /\ events_of "ghost/main" (snd (refreshPlugins registry m_running env_ghost)) = [].
Proof.
  apply (unregistered_document_is_skipped registry m_running env_ghost [ghost_info] ghost_info).
  - reflexivity.
  - apply NoDup_singleton.
  - apply list_elem_of_singleton. reflexivity.
  - reflexivity.
  - vm_compute. reflexivity.
  - vm_compute. reflexivity.
Defined.

Lemma pass_reconciles_plugins_with_documents_witness :
  settled registry
    (loop_incomings (fst (refreshPlugins registry m_running env_refresh)) [hello_msg])
    [info_v2].
Proof.
  apply (pass_reconciles_plugins_with_documents registry m_running env_refresh [info_v2]
           [hello_msg]).
  - reflexivity.
  - apply NoDup_singleton.
Defined.

Lemma second_pass_does_nothing_witness :
  refreshPlugins registry
    (loop_incomings (fst (refreshPlugins registry m_start env_first)) [hello_msg; pong_msg])
    env_first
  = (loop_incomings (fst (refreshPlugins registry m_start env_first)) [hello_msg; pong_msg],
     []).
Proof.
  apply (second_pass_does_nothing registry m_start env_first env_first
           [echo_info "v1" (id_at 1000)] [hello_msg; pong_msg]).
  - reflexivity.
  - reflexivity.
  - apply NoDup_singleton.
Defined.

Lemma rollback_only_after_a_start_witness :
  started registry m_running [info_v2] <> []
  /\ wake_inserted env_refresh = true
  /\ rollback_taken env_refresh = true.
Proof.
  apply (rollback_only_after_a_start registry m_running env_refresh [info_v2] (id_at 990)).
  - reflexivity.
  - apply NoDup_singleton.
  - vm_compute. apply list_elem_of_In. cbn. auto 10.
Defined.

End refresh_examples.

(* ===================================================================== *)
(** * More on the LDAP package *)
(* ===================================================================== *)

Module escape_facts.
Import ldap ldap_ext ldap_facts.

Lemma escape_byte_safe (c : ascii) :
  Forall (fun b => mustEscape b = false \/ b = "\"%char) (escape_byte c).
Proof.
  unfold escape_byte.
  each_byte c; cbv [special N_of_ascii N.ltb N.eqb N.compare orb Pos.compare Pos.compare_cont
                    Pos.eqb N_of_digits N.add N.mul Pos.add Pos.mul Pos.succ];
    repeat (apply List.Forall_cons; [first [left; reflexivity | right; reflexivity]|]);
    apply List.Forall_nil.
Qed.

Lemma escaped_safe (s : string) :
  Forall (fun b => mustEscape b = false \/ b = "\"%char) (escaped s).
Proof.
  unfold escaped. induction s as [|c rest IH]; cbn [list_ascii_of_string flat_map].
  - constructor.
  - apply Forall_app. split; [apply escape_byte_safe|exact IH].
Qed.

Lemma escaped_app (s t : string) :
  escaped (String.append s t) = escaped s ++ escaped t.
Proof.
  unfold escaped. induction s as [|c rest IH].
  - reflexivity.
  - change (String.append (String c rest) t) with (String c (String.append rest t)).
    cbn [list_ascii_of_string flat_map]. rewrite IH, app_assoc. reflexivity.
Qed.

Lemma string_of_list_ascii_app (l k : list ascii) :
  string_of_list_ascii (l ++ k)
  = String.append (string_of_list_ascii l) (string_of_list_ascii k).
Proof.
  induction l as [|a l IH]; [reflexivity|].
  cbn [app string_of_list_ascii]. rewrite IH. reflexivity.
Qed.

Lemma special_byte (c d : ascii) :
  (N_of_ascii c / 16 = N_of_ascii d / 16)%N ->
  (N_of_ascii c mod 16 = N_of_ascii d mod 16)%N ->
  c = d.
Proof.
  intros Hh Hl.
  rewrite <- (ascii_N_embedding c), <- (ascii_N_embedding d). f_equal.
  rewrite (N.div_mod (N_of_ascii c) 16), (N.div_mod (N_of_ascii d) 16) by discriminate.
  rewrite Hh, Hl. reflexivity.
Qed.

Lemma special_backslash (c : ascii) : special c = false -> c <> "\"%char.
Proof. intros Hc ->. discriminate Hc. Qed.

Lemma escaped_inj (s : string) :
  forall t, escaped s = escaped t -> s = t.
Proof.
  unfold escaped. induction s as [|c s IH]; intros [|d t];
    cbn [list_ascii_of_string flat_map]; unfold escape_byte.
  - reflexivity.
  - destruct (special d); discriminate.
  - destruct (special c); discriminate.
  - destruct (special c) eqn:Hc, (special d) eqn:Hd; cbn [app]; intros Heq.
    + injection Heq as Hh Hl Hrest.
      assert (c = d) as ->.
      { apply special_byte.
        - pose proof (hex_value_high c) as H1. rewrite Hh, hex_value_high in H1. congruence.
        - pose proof (hex_value_low c) as H1. rewrite Hl, hex_value_low in H1. congruence. }
      f_equal. apply IH, Hrest.
    + injection Heq as Hb _. symmetry in Hb. destruct (special_backslash d Hd Hb).
    + injection Heq as Hb _. destruct (special_backslash c Hc Hb).
    + injection Heq as -> Hrest. f_equal. apply IH, Hrest.
Qed.

Lemma string_of_list_ascii_inj (l k : list ascii) :
  string_of_list_ascii l = string_of_list_ascii k -> l = k.
Proof.
  intros Heq. rewrite <- (list_ascii_of_string_of_list_ascii l),
    <- (list_ascii_of_string_of_list_ascii k), Heq. reflexivity.
Qed.

(** X13. [EscapeFilter] always returns, and what it returns holds none of
    the bytes [mustEscape] names but the backslash: no parenthesis, no
    asterisk, no NUL and no byte above 0x7f is left in a filter. *)
Theorem EscapeFilter_leaves_only_backslashes (s : string) :
  exists out,
    EscapeFilter s = Some out
    /\ Forall (fun b => mustEscape b = false \/ b = "\"%char) (list_ascii_of_string out).
Proof.
  exists (string_of_list_ascii (escaped s)). split; [apply EscapeFilter_escaped|].
  rewrite list_ascii_of_string_of_list_ascii. apply escaped_safe.
Qed.

(** X14. [EscapeFilter] loses nothing: two inputs with the same result are
    the same input. *)
Theorem EscapeFilter_is_injective (s t : string) :
  EscapeFilter s = EscapeFilter t -> s = t.
Proof.
  rewrite !EscapeFilter_escaped. intros [= Heq].
  apply escaped_inj, string_of_list_ascii_inj, Heq.
Qed.

Lemma EscapeFilter_is_injective_witness : "a*(b)" = "a*(b)".
Proof. apply (EscapeFilter_is_injective "a*(b)" "a*(b)"). reflexivity. Defined.

(** X15. Escaping goes through concatenation: the result for [s] followed
    by [t] is the result for [s] followed by the result for [t], so a
    filter can be put together from parts escaped one by one. *)
Theorem EscapeFilter_of_append (s t : string) :
  exists a b,
    EscapeFilter s = Some a
    /\ EscapeFilter t = Some b
    /\ EscapeFilter (String.append s t) = Some (String.append a b).
Proof.
  exists (string_of_list_ascii (escaped s)), (string_of_list_ascii (escaped t)).
  rewrite !EscapeFilter_escaped, escaped_app, string_of_list_ascii_app. auto.
Qed.

(** X16. [Values] returns the values of the first attribute of the name
    and [Value] the first of them; attributes of the name further down
    are never read. *)
Theorem Values_of_first_attribute (dn : string) (pre post : list Attr) (attr : Attr) :
  Forall (fun a => attr_Name a <> attr_Name attr) pre ->
  Values {| DN := dn; Attrs := pre ++ attr :: post |} (attr_Name attr) = attr_Values attr
  /\ Value {| DN := dn; Attrs := pre ++ attr :: post |} (attr_Name attr)
     = hd EmptyString (attr_Values attr).
Proof.
  intros Hpre.
  assert (Hv : Values {| DN := dn; Attrs := pre ++ attr :: post |} (attr_Name attr)
               = attr_Values attr).
  { unfold Values. cbn [Attrs]. induction Hpre as [|a pre Ha _ IH]; cbn [app Values_loop].
    - rewrite String.eqb_refl. reflexivity.
    - apply String.eqb_neq in Ha. rewrite Ha. exact IH. }
  split; [exact Hv|]. unfold Value. rewrite Hv. destruct (attr_Values attr); reflexivity.
Qed.

Lemma Values_of_first_attribute_witness :
  Values {| DN := "uid=joe"; Attrs := [ {| attr_Name := "cn"; attr_Values := ["Joe"] |} ]
              ++ {| attr_Name := "mail"; attr_Values := ["joe@a"; "joe@b"] |}
              :: [ {| attr_Name := "mail"; attr_Values := ["other"] |} ] |} "mail"
  = ["joe@a"; "joe@b"]
  /\ Value {| DN := "uid=joe"; Attrs := [ {| attr_Name := "cn"; attr_Values := ["Joe"] |} ]
              ++ {| attr_Name := "mail"; attr_Values := ["joe@a"; "joe@b"] |}
              :: [ {| attr_Name := "mail"; attr_Values := ["other"] |} ] |} "mail"
     = "joe@a".
Proof.
  apply (Values_of_first_attribute "uid=joe" [ {| attr_Name := "cn"; attr_Values := ["Joe"] |} ]
           [ {| attr_Name := "mail"; attr_Values := ["other"] |} ]
           {| attr_Name := "mail"; attr_Values := ["joe@a"; "joe@b"] |}).
  repeat constructor. cbn. discriminate.
Defined.

(** X17. An attribute that is missing has no values: [Values] is nil and
    [Value] the empty string exactly as for an attribute without values,
    so the two cannot be told apart through [Value]. *)
Theorem Values_of_missing_attribute (r : Result) (name : string) :
  Forall (fun a => attr_Name a <> name) (Attrs r) ->
  Values r name = [] /\ Value r name = EmptyString.
Proof.
  intros Hno.
  assert (Hv : Values r name = []).
  { unfold Values. induction Hno as [|a rest Ha _ IH]; cbn [Values_loop]; [reflexivity|].
    apply String.eqb_neq in Ha. rewrite Ha. exact IH. }
  split; [exact Hv|]. unfold Value. rewrite Hv. reflexivity.
Qed.

Lemma Values_of_missing_attribute_witness :
  Values {| DN := "uid=joe"; Attrs := [ {| attr_Name := "cn"; attr_Values := ["Joe"] |} ] |}
    "mail" = []
  /\ Value {| DN := "uid=joe"; Attrs := [ {| attr_Name := "cn"; attr_Values := ["Joe"] |} ] |}
       "mail" = EmptyString.
Proof.
  apply (Values_of_missing_attribute
           {| DN := "uid=joe"; Attrs := [ {| attr_Name := "cn"; attr_Values := ["Joe"] |} ] |}
           "mail").
  repeat constructor. cbn. discriminate.
Defined.

End escape_facts.

(* ===================================================================== *)
(** * More on the dispatch loop and on starting plugins *)
(* ===================================================================== *)

Module dispatch_facts.
Import mup mup_ext mup_facts.

Section Loop.

Context `{Externals}.
Variable registeredPlugins : gmap string PluginSpec.

Implicit Types (m : pluginManager) (msg : Message) (st : pluginState) (name : string).

Lemma loop_run_fst msgs :
  forall m, fst (loop_run m msgs) = loop_incomings m msgs.
Proof.
  induction msgs as [|msg msgs IH]; intros m; [reflexivity|].
  cbn [loop_run fst]. rewrite IH. reflexivity.
Qed.

Lemma set_plugins_same m : set_plugins (plugins m) m = m.
Proof. destruct m; reflexivity. Qed.

(** What the loop body leaves of a plugin. *)
Lemma dispatch_keeps msg cmdName name st :
  spec (fst (dispatch msg cmdName name st)) = spec st
  /\ plugger (fst (dispatch msg cmdName name st)) = plugger st
  /\ plugin (fst (dispatch msg cmdName name st)) = plugin st
  /\ set_LastId (LastId (info (fst (dispatch msg cmdName name st))))  (info st)
     = info (fst (dispatch msg cmdName name st))
  /\ (LastId (info (fst (dispatch msg cmdName name st))) = LastId (info st)
      \/ LastId (info (fst (dispatch msg cmdName name st))) = Id msg
         /\ String.ltb (LastId (info st)) (Id msg) = true).
Proof.
  unfold dispatch. destruct st as [[nm last cfg tg sta] sp pl p]. cbn [info LastId plugger].
  destruct (String.leb (Id msg) last) eqn:Hle; cbn [orb fst].
  - repeat split; auto.
  - rewrite order.leb_ltb in Hle. apply negb_false_iff in Hle.
    destruct (negb (Target pl msg)); cbn; repeat split; auto.
Qed.

Lemma dispatch_grows msg cmdName name st :
  String.leb (LastId (info st)) (LastId (info (fst (dispatch msg cmdName name st)))) = true.
Proof.
  destruct (dispatch_keeps msg cmdName name st) as (_ & _ & _ & _ & [-> | [-> Hlt]]).
  - apply order.leb_refl.
  - apply order.ltb_leb, Hlt.
Qed.

Lemma dispatch_then_skipped msg cmdName name st :
  String.leb (Id msg) (LastId (info (fst (dispatch msg cmdName name st))))
  || negb (Target (plugger (fst (dispatch msg cmdName name st))) msg) = true.
Proof.
  unfold dispatch.
  destruct (String.leb (Id msg) (LastId (info st)) || negb (Target (plugger st) msg)) eqn:Ht;
    cbn [fst]; [exact Ht|].
  destruct st as [[] ? ? ?]. cbn. rewrite order.leb_refl. reflexivity.
Qed.

Lemma loop_incoming_lookup m msg name :
  plugins (fst (loop_incoming m msg)) !! name
  = (fun st => if String.eqb (Command msg) cmdPong then st
               else fst (dispatch msg (CommandName (BotText msg)) name st)) <$> plugins m !! name.
Proof.
  unfold loop_incoming. destruct (String.eqb (Command msg) cmdPong); cbn [fst].
  - destruct (plugins m !! name); reflexivity.
  - cbn [plugins set_plugins]. rewrite map_lookup_imap.
    destruct (plugins m !! name); reflexivity.
Qed.

Lemma skipped_noop m msg :
  skipped_by_all m msg -> loop_incoming m msg = (m, []).
Proof.
  intros Hq. unfold loop_incoming.
  destruct (String.eqb (Command msg) cmdPong); [reflexivity|].
  apply pair_equal_spec. split.
  - transitivity (set_plugins (plugins m) m); [|apply set_plugins_same].
    apply (f_equal (fun ps => set_plugins ps m)).
    apply map_eq. intros name. rewrite map_lookup_imap.
    destruct (plugins m !! name) as [st|] eqn:Hst; [|reflexivity].
    cbn [mbind option_bind]. unfold dispatch. rewrite (Hq _ _ Hst). reflexivity.
  - assert (Hall : forall ns, ns ∈ map_to_list (plugins m) ->
              snd (dispatch msg (CommandName (BotText msg)) (fst ns) (snd ns)) = []).
    { intros [name st] Hin. apply elem_of_map_to_list in Hin.
      unfold dispatch. cbn [fst snd]. rewrite (Hq _ _ Hin). reflexivity. }
    induction (map_to_list (plugins m)) as [|ns l IH]; [reflexivity|].
    rewrite fmap_cons. cbn [concat]. rewrite (Hall ns) by left.
    apply IH. intros x Hx. apply Hall. right. exact Hx.
Qed.

Lemma skipped_after m msg : skipped_by_all (fst (loop_incoming m msg)) msg \/
                            String.eqb (Command msg) cmdPong = true.
Proof.
  destruct (String.eqb (Command msg) cmdPong) eqn:Hp; [right; reflexivity|left].
  intros name st Hl. rewrite loop_incoming_lookup, Hp in Hl.
  destruct (plugins m !! name) as [st0|]; [|discriminate].
  injection Hl as <-. apply dispatch_then_skipped.
Qed.

Lemma skipped_kept m msg msg' :
  skipped_by_all m msg -> skipped_by_all (fst (loop_incoming m msg')) msg.
Proof.
  intros Hq name st Hl. rewrite loop_incoming_lookup in Hl.
  destruct (plugins m !! name) as [st0|] eqn:Hst; [|discriminate].
  injection Hl as <-. specialize (Hq _ _ Hst).
  destruct (String.eqb (Command msg') cmdPong); [exact Hq|].
  destruct (dispatch_keeps msg' (CommandName (BotText msg')) name st0) as (_ & -> & _ & _ & _).
  apply orb_true_iff in Hq as [Hq | Hq]; [|rewrite Hq; apply orb_true_r].
  rewrite (order.leb_trans _ _ _ Hq (dispatch_grows _ _ _ _)). reflexivity.
Qed.

Lemma replay_noop m msg :
  skipped_by_all m msg \/ String.eqb (Command msg) cmdPong = true ->
  loop_incoming m msg = (m, []).
Proof.
  intros [Hq | Hp]; [apply skipped_noop, Hq|].
  unfold loop_incoming. rewrite Hp. reflexivity.
Qed.

Lemma loop_incomings_skipped msgs :
  forall m msg,
    skipped_by_all m msg \/ String.eqb (Command msg) cmdPong = true ->
    skipped_by_all (loop_incomings m msgs) msg \/ String.eqb (Command msg) cmdPong = true.
Proof.
  induction msgs as [|msg' msgs IH]; intros m msg Hq; [exact Hq|].
  apply IH. destruct Hq as [Hq | Hp]; [left; apply skipped_kept, Hq | right; exact Hp].
Qed.

Lemma loop_incomings_all_skipped msgs :
  forall m msg,
    msg ∈ msgs ->
    skipped_by_all (loop_incomings m msgs) msg \/ String.eqb (Command msg) cmdPong = true.
Proof.
  induction msgs as [|msg' msgs IH]; intros m msg Hin; [inversion Hin|].
  apply elem_of_cons in Hin as [-> | Hin].
  - apply (loop_incomings_skipped msgs (fst (loop_incoming m msg')) msg'), skipped_after.
  - apply (IH (fst (loop_incoming m msg')) msg Hin).
Qed.

Lemma loop_run_noop again :
  forall m,
    (forall msg, msg ∈ again ->
       skipped_by_all m msg \/ String.eqb (Command msg) cmdPong = true) ->
    loop_run m again = (m, []).
Proof.
  induction again as [|msg again IH]; intros m Hall; [reflexivity|].
  cbn [loop_run]. rewrite (replay_noop m msg) by (apply Hall; left). cbn [fst snd app].
  rewrite IH; [reflexivity|]. intros x Hx. apply Hall. right. exact Hx.
Qed.

(** X18. Records that went through the dispatch loop are skipped when they
    come again, in whatever order and however often: the replay after a
    rollback calls no handler for them, writes no position and leaves
    every plugin as it is. *)
Theorem replayed_records_reach_no_handler m (msgs again : list Message) :
  again ⊆ msgs ->
  loop_run (loop_incomings m msgs) again = (loop_incomings m msgs, []).
Proof.
  intros Hsub. apply loop_run_noop. intros msg Hin.
  apply loop_incomings_all_skipped, Hsub, Hin.
Qed.

(** X19. The dispatch loop only moves positions forward: a record leaves
    the set of running plugins, and of every plugin the spec, the plugger,
    the instance and the stored document but for [LastId], as they are;
    [LastId] stays or becomes the id of the record, which is then newer. *)
Theorem dispatch_only_advances_LastId m msg name :
  match plugins (fst (loop_incoming m msg)) !! name, plugins m !! name with
  | Some st', Some st =>
      spec st' = spec st /\ plugger st' = plugger st /\ plugin st' = plugin st
      /\ info st' = set_LastId (LastId (info st')) (info st)
      /\ (LastId (info st') = LastId (info st)
          \/ LastId (info st') = Id msg /\ String.ltb (LastId (info st)) (Id msg) = true)
  | None, None => True
  | _, _ => False
  end.
Proof.
  rewrite loop_incoming_lookup.
  destruct (plugins m !! name) as [st|]; cbn [fmap option_fmap option_map]; [|exact I].
  destruct (String.eqb (Command msg) cmdPong).
  - repeat split; auto. destruct (info st); reflexivity.
  - destruct (dispatch_keeps msg (CommandName (BotText msg)) name st)
      as (H1 & H2 & H3 & H4 & H5). auto.
Qed.

(** X20. [startPlugin] starts a registered plugin at a valid position that
    is neither before the rollback limit, ten seconds back from the time
    of the start, nor before the stored position when that one is a
    valid id; and it is one of these two. *)
Theorem started_position_is_bounded (now : Z) (i : pluginInfo) (st : pluginState) :
  startPlugin registeredPlugins now i = Some st ->
  Valid (LastId (info st)) = true
  /\ String.leb (NewObjectIdWithTime (now - rollbackLimit)) (LastId (info st)) = true
  /\ (Valid (LastId i) = true -> String.leb (LastId i) (LastId (info st)) = true)
  /\ (LastId (info st) = LastId i
      \/ LastId (info st) = NewObjectIdWithTime (now - rollbackLimit)).
Proof.
  intros Hs. pose proof (startPlugin_Some registeredPlugins now i st Hs) as (Hr & _ & _).
  rewrite (startPlugin_registered registeredPlugins now i _ Hr) in Hs.
  injection Hs as <-. cbn [info LastId].
  replace (LastId (set_LastId (startedLastId now i) i)) with (startedLastId now i)
    by (destruct i; reflexivity).
  split; [apply startedLastId_Valid|]. unfold startedLastId.
  destruct (Valid (LastId i)) eqn:Hv; cbn [andb].
  - destruct (String.leb (NewObjectIdWithTime (now - rollbackLimit)) (LastId i)) eqn:Hle.
    + repeat split; auto. intros _. apply order.leb_refl.
    + repeat split; auto; [apply order.leb_refl|]. intros _.
      rewrite order.leb_ltb in Hle. apply negb_false_iff in Hle.
      apply order.ltb_leb, Hle.
  - repeat split; auto; [apply order.leb_refl|discriminate].
Qed.

(** X21. In every state the manager reaches, through records, refresh
    passes and its death, each running plugin is enabled by the
    configuration, runs the spec registered under the key of its name,
    and is stored under the name of its document and of its plugger. *)
Theorem running_plugins_are_enabled_and_registered m name st :
  reachable registeredPlugins m ->
  plugins m !! name = Some st ->
  pluginOn (config_Plugins m) name = true
  /\ registeredPlugins !! pluginKey name = Some (spec st)
  /\ Name (info st) = name
  /\ plugger_name (plugger st) = name.
Proof. intros Hreach Hst. exact (reachable_ok registeredPlugins m Hreach name st Hst). Qed.

End Loop.

End dispatch_facts.

(** The dispatch loop of the concrete bus. *)
Module dispatch_examples.
Import mup mup_ext examples dispatch_facts.

#[local] Existing Instance ext.

Lemma replayed_records_reach_no_handler_witness :
  loop_run (loop_incomings m_running [hello_msg; echo_msg]) [echo_msg; hello_msg; echo_msg]
  = (loop_incomings m_running [hello_msg; echo_msg], []).
Proof.
  apply (replayed_records_reach_no_handler m_running [hello_msg; echo_msg]
           [echo_msg; hello_msg; echo_msg]).
  intros x Hx. apply list_elem_of_In in Hx. apply list_elem_of_In.
  cbn in *. tauto.
Defined.

Lemma started_position_is_bounded_witness :
  Valid (id_at 990) = true
  /\ String.leb (NewObjectIdWithTime (1000 - rollbackLimit)) (id_at 990) = true
  /\ (Valid (id_at 50) = true -> String.leb (id_at 50) (id_at 990) = true)
  /\ (id_at 990 = id_at 50 \/ id_at 990 = NewObjectIdWithTime (1000 - rollbackLimit)).
Proof.
  apply (started_position_is_bounded registry 1000 info_v2
           {| info := echo_info "v2" (id_at 990); spec := echo_spec;
              plugger := echo_plugger "v2"; plugin := echo_plugin |}).
  vm_compute. reflexivity.
Defined.

Lemma running_plugins_are_enabled_and_registered_witness :
  pluginOn (config_Plugins m_running) "echo" = true
  /\ registry !! pluginKey "echo" = Some (spec st_echo)
  /\ Name (info st_echo) = "echo"
  /\ plugger_name (plugger st_echo) = "echo".
Proof.
  apply (running_plugins_are_enabled_and_registered registry m_running "echo" st_echo).
  - replace m_running with (fst (refreshPlugins registry m_start env_first))
      by (vm_compute; reflexivity).
    apply reach_refresh, reach_start.
  - vm_compute. reflexivity.
Defined.

End dispatch_examples.

(* ===================================================================== *)
(** * More on the two tails *)
(* ===================================================================== *)

Module tail_facts.
Import mup mup_facts.

(** X22. A rollback request taken at the head of the tail loop makes the
    tail read the log again from the lowered position: as long as the
    dispatch loop takes them, it delivers every record newer than
    [min R lastId] in store order, those it had delivered before
    included, and its position ends at the id of the last one. *)
Theorem rollback_replays_the_log (incoming : list Message) (s : tailState) (R : ObjectId) :
  phase s = NextTail ->
  delivered (tail_run incoming s
               (Rollback R
                :: concat (replicate
                             (length (List.filter (newer (rollbackTo R (lastId s))) incoming))
                             [Next; Accept])))
  = delivered s ++ List.filter (newer (rollbackTo R (lastId s))) incoming
  /\ lastId (tail_run incoming s
               (Rollback R
                :: concat (replicate
                             (length (List.filter (newer (rollbackTo R (lastId s))) incoming))
                             [Next; Accept])))
     = List.last (Id <$> List.filter (newer (rollbackTo R (lastId s))) incoming)
         (rollbackTo R (lastId s)).
Proof.
  intros Hp. unfold tail_run. cbn [foldl]. unfold tail_step at 2 4. rewrite Hp.
  fold (rollbackTo R (lastId s)).
  apply (tail_delivers incoming (rollbackTo R (lastId s)) _ incoming
           (rollbackTo R (lastId s)) (delivered s)).
  reflexivity.
Qed.

Section Inbound.

Context `{Externals}.

(** X23. While the account loop goes on, its writes to the store going
    through, it appends every message that is no pong to the inbound log,
    in the order received, and no pong ever: the log grows by exactly
    these records. *)
Theorem account_loop_logs_all_but_pongs (msgs : list Message) :
  forall db db',
    account_loop db msgs = Continues db' ->
    incoming_log db'
    = incoming_log db
      ++ List.filter (fun msg => negb (String.eqb (Command msg) cmdPong)) msgs.
Proof.
  induction msgs as [|msg msgs IH]; intros db db' Hl; cbn [account_loop] in Hl.
  - injection Hl as <-. cbn. rewrite app_nil_r. reflexivity.
  - destruct (account_incoming db msg) as [db1| |] eqn:H1; try discriminate.
    rewrite (IH _ _ Hl). cbn [List.filter]. unfold account_incoming in H1.
    destruct (String.eqb (Command msg) cmdPong); cbn [negb].
    + destruct (String.prefix "sent:" (Text msg)); [|injection H1 as <-; reflexivity].
      destruct (ObjectIdHex _); [|discriminate].
      destruct (accounts db !! Account msg); [|discriminate].
      injection H1 as <-. reflexivity.
    + injection H1 as <-. cbn [incoming_log]. rewrite <- app_assoc. reflexivity.
Qed.

End Inbound.

End tail_facts.

(** The tails of the concrete bus. *)
Module tail_examples.
Import mup examples tail_facts.

#[local] Existing Instance ext.

Lemma rollback_replays_the_log_witness :
  delivered (tail_run [out1; hello_msg]
               {| lastId := id_at 3000; phase := NextTail; delivered := [hello_msg] |}
               [Rollback (id_at 1500); Next; Accept])
  = [hello_msg; hello_msg]
  /\ lastId (tail_run [out1; hello_msg]
               {| lastId := id_at 3000; phase := NextTail; delivered := [hello_msg] |}
               [Rollback (id_at 1500); Next; Accept])
     = id_at 2000.
Proof.
  apply (rollback_replays_the_log [out1; hello_msg]
           {| lastId := id_at 3000; phase := NextTail; delivered := [hello_msg] |}
           (id_at 1500)).
  reflexivity.
Defined.

Lemma account_loop_logs_all_but_pongs_witness :
  incoming_log {| accounts := accounts db0; incoming_log := [hello_msg; echo_msg] |}
  = incoming_log db0
    ++ List.filter (fun msg => negb (String.eqb (Command msg) cmdPong))
         [hello_msg; pong_msg; echo_msg].
Proof.
  apply (account_loop_logs_all_but_pongs [hello_msg; pong_msg; echo_msg] db0
           {| accounts := accounts db0; incoming_log := [hello_msg; echo_msg] |}).
  vm_compute. reflexivity.
Defined.

End tail_examples.

(* ===================================================================== *)
(** * The LDAP connections of the plugin manager *)
(* ===================================================================== *)

Module ldaps_facts.
Import mup ldaps.

Section Pass.

Context `{Externals}.

Implicit Types (env : LdapEnv) (v : ldapVars) (raw : Raw) (info : ldapInfo)
  (n : string) (l : list (Raw * ldapInfo)) (ls : gmap string ldapState).

Local Abbreviation doc env := (fun v (ri : Raw * ldapInfo) => ldap_document env v ri.1 ri.2).
Local Abbreviation names l := (ldap_Name <$> l.*2).
Local Abbreviation vars0 ls :=
  {| l_ldaps := ls; l_infos := []; l_found := 0; l_changed := false; l_trace := [] |}.

(** *** Reading a trace *)

Lemma ldap_events_of_app n (tr1 tr2 : list LdapEvent) :
  ldap_events_of n (tr1 ++ tr2) = ldap_events_of n tr1 ++ ldap_events_of n tr2.
Proof. apply List.filter_app. Qed.

Lemma ldap_events_of_same n (tr : list LdapEvent) :
  Forall (fun e => ldap_event_name e = n) tr -> ldap_events_of n tr = tr.
Proof.
  induction 1 as [|e tr He _ IH]; [reflexivity|].
  unfold ldap_events_of in *. cbn [List.filter]. rewrite He, String.eqb_refl, IH. reflexivity.
Qed.

Lemma ldap_events_of_other n k (tr : list LdapEvent) :
  k <> n -> Forall (fun e => ldap_event_name e = k) tr -> ldap_events_of n tr = [].
Proof.
  intros Hk. induction 1 as [|e tr He _ IH]; [reflexivity|].
  unfold ldap_events_of in *. cbn [List.filter]. rewrite He.
  apply String.eqb_neq in Hk. rewrite Hk. exact IH.
Qed.

Lemma events_of_document_named (old : option ldapState) raw info :
  Forall (fun e => ldap_event_name e = ldap_Name info) (events_of_document old raw info).
Proof.
  unfold events_of_document. destruct old as [st|]; [destruct (String.eqb _ _)|];
    repeat constructor.
Qed.

(** *** One document *)

Lemma ldap_document_spec env v raw info :
  l_ldaps (ldap_document env v raw info)
  = <[ ldap_Name info := after_document env (l_ldaps v !! ldap_Name info) raw info ]> (l_ldaps v)
  /\ l_trace (ldap_document env v raw info)
     = l_trace v ++ events_of_document (l_ldaps v !! ldap_Name info) raw info
  /\ l_infos (ldap_document env v raw info) = l_infos v ++ [info]
  /\ l_found (ldap_document env v raw info)
     = (l_found v + if bool_decide (is_Some (l_ldaps v !! ldap_Name info)) then 1 else 0)%nat.
Proof.
  unfold ldap_document, after_document, events_of_document.
  destruct (l_ldaps v !! ldap_Name info) as [st|] eqn:Hst.
  - rewrite bool_decide_true by eauto.
    destruct (String.eqb (ldap_raw st) raw);
      cbn [l_ldaps l_trace l_infos l_found]; repeat split; try lia.
    + symmetry. apply insert_id. exact Hst.
    + symmetry. apply app_nil_r.
    + apply insert_delete_eq.
    + rewrite <- app_assoc. reflexivity.
  - rewrite bool_decide_false by (intros [? ?]; discriminate).
    cbn [l_ldaps l_trace l_infos l_found]. repeat split. lia.
Qed.

Lemma ldap_document_changed env v raw info :
  (l_changed v = true -> l_changed (ldap_document env v raw info) = true)
  /\ (l_changed (ldap_document env v raw info) = false ->
      l_ldaps (ldap_document env v raw info) = l_ldaps v).
Proof.
  unfold ldap_document.
  destruct (l_ldaps v !! ldap_Name info) as [st|]; [destruct (String.eqb _ _)|];
    cbn [l_changed l_ldaps]; split; auto; discriminate.
Qed.

(** *** The loop over the documents *)

Lemma fold_decoded env v :
  foldl (ldap_next env) v (ldap_docs env) = foldl (doc env) v (ldap_decoded env).
Proof.
  unfold ldap_decoded. revert v.
  induction (ldap_docs env) as [|raw docs IH]; intros v; [reflexivity|].
  cbn [foldl omap list_omap]. unfold ldap_next at 2.
  destruct (ldap_unmarshal env raw) as [info|]; cbn [fmap option_fmap option_map foldl];
    apply IH.
Qed.

Lemma elem_of_decoded env raw info :
  raw ∈ ldap_docs env ->
  ldap_unmarshal env raw = Some info ->
  (raw, info) ∈ ldap_decoded env.
Proof.
  intros Hin Hu. apply list_elem_of_omap. exists raw. rewrite Hu. auto.
Qed.

Lemma fold_infos env l :
  forall v, l_infos (foldl (doc env) v l) = l_infos v ++ l.*2.
Proof.
  induction l as [|[raw info] l IH]; intros v; cbn [foldl fst snd]; [symmetry; apply app_nil_r|].
  rewrite fmap_cons. cbn [snd].
  rewrite IH. destruct (ldap_document_spec env v raw info) as (_ & _ & -> & _).
  rewrite <- app_assoc. reflexivity.
Qed.

Lemma fold_other env l :
  forall v n,
    n ∉ names l ->
    l_ldaps (foldl (doc env) v l) !! n = l_ldaps v !! n
    /\ ldap_events_of n (l_trace (foldl (doc env) v l)) = ldap_events_of n (l_trace v).
Proof.
  induction l as [|[raw info] l IH]; intros v n Hn; cbn [foldl fst snd]; [auto|].
  rewrite !fmap_cons in Hn. apply not_elem_of_cons in Hn as [Hne Hn]. cbn [snd] in Hne.
  destruct (IH (ldap_document env v raw info) n Hn) as [-> ->].
  destruct (ldap_document_spec env v raw info) as (-> & -> & _ & _).
  rewrite lookup_insert_ne by congruence. split; [reflexivity|].
  rewrite ldap_events_of_app,
    (ldap_events_of_other n (ldap_Name info) _ (not_eq_sym Hne)
       (events_of_document_named _ raw info)).
  apply app_nil_r.
Qed.

(** The entry and the events of the name of a document after the loop are
    those the document gives. *)
Lemma fold_at env l :
  forall v raw info,
    NoDup (names l) ->
    (raw, info) ∈ l ->
    l_ldaps (foldl (doc env) v l) !! ldap_Name info
    = Some (after_document env (l_ldaps v !! ldap_Name info) raw info)
    /\ ldap_events_of (ldap_Name info) (l_trace (foldl (doc env) v l))
       = ldap_events_of (ldap_Name info) (l_trace v)
         ++ events_of_document (l_ldaps v !! ldap_Name info) raw info.
Proof.
  induction l as [|[raw0 info0] l IH]; intros v raw info Hnd Hin; [inversion Hin|].
  rewrite !fmap_cons in Hnd. apply NoDup_cons in Hnd as [Hfresh Hnd]. cbn [snd] in Hfresh.
  cbn [foldl fst snd]. apply elem_of_cons in Hin as [[= -> ->] | Hin].
  - destruct (fold_other env l (ldap_document env v raw0 info0) _ Hfresh) as [-> ->].
    destruct (ldap_document_spec env v raw0 info0) as (-> & -> & _ & _).
    rewrite lookup_insert_eq, ldap_events_of_app,
      (ldap_events_of_same _ _ (events_of_document_named _ raw0 info0)).
    auto.
  - assert (Hne : ldap_Name info0 <> ldap_Name info).
    { intros Heq. apply Hfresh. rewrite Heq.
      apply (list_elem_of_fmap_2 (fun ri : Raw * ldapInfo => ldap_Name ri.2) _ (raw, info)) in Hin.
      rewrite <- list_fmap_compose. exact Hin. }
    destruct (IH (ldap_document env v raw0 info0) raw info Hnd Hin) as [-> ->].
    destruct (ldap_document_spec env v raw0 info0) as (-> & -> & _ & _).
    rewrite lookup_insert_ne by exact Hne. split; [reflexivity|]. f_equal.
    rewrite ldap_events_of_app,
      (ldap_events_of_other _ _ _ Hne (events_of_document_named _ raw0 info0)).
    apply app_nil_r.
Qed.

Lemma ldap_fold_found env ls l :
  forall v,
    NoDup (names l) ->
    (forall n, n ∈ names l -> l_ldaps v !! n = ls !! n) ->
    l_found (foldl (doc env) v l)
    = (l_found v
       + length (List.filter (fun k => bool_decide (is_Some (ls !! k))) (names l)))%nat.
Proof.
  induction l as [|[raw info] l IH]; intros v Hnd Hv; [cbn; lia|].
  rewrite !fmap_cons in Hnd |- *. apply NoDup_cons in Hnd as [Hfresh Hnd]. cbn [snd] in *.
  cbn [foldl List.filter fst snd]. rewrite IH; [|exact Hnd|].
  - destruct (ldap_document_spec env v raw info) as (_ & _ & _ & ->).
    rewrite (Hv (ldap_Name info)) by (rewrite !fmap_cons; left).
    destruct (bool_decide _); cbn [length]; lia.
  - intros n Hn. destruct (ldap_document_spec env v raw info) as (-> & _ & _ & _).
    rewrite lookup_insert_ne by (intros <-; exact (Hfresh Hn)).
    apply Hv. rewrite !fmap_cons. right. exact Hn.
Qed.

Lemma fold_changed env l :
  forall v,
    (l_changed v = true -> l_changed (foldl (doc env) v l) = true)
    /\ (l_changed (foldl (doc env) v l) = false ->
        l_ldaps (foldl (doc env) v l) = l_ldaps v /\ l_changed v = false).
Proof.
  induction l as [|[raw info] l IH]; intros v; cbn [foldl fst snd]; [auto|].
  destruct (IH (ldap_document env v raw info)) as [Hup Hsame].
  destruct (ldap_document_changed env v raw info) as [Hup1 Hsame1].
  split.
  - intros Hc. apply Hup, Hup1, Hc.
  - intros Hc. destruct (Hsame Hc) as [-> Hc1]. split; [apply Hsame1, Hc1|].
    destruct (l_changed v); [rewrite Hup1 in Hc1 by reflexivity; discriminate|reflexivity].
Qed.

(** *** Counting the connections found *)

Lemma NoDup_filter_names (g : string -> bool) (ks : list string) :
  NoDup ks -> NoDup (List.filter g ks).
Proof.
  induction 1 as [|k ks Hk _ IH]; [constructor|]. cbn [List.filter].
  destruct (g k); [|exact IH]. constructor; [|exact IH].
  intros Hin. apply Hk. apply list_elem_of_In, List.filter_In in Hin as [Hin _].
  apply list_elem_of_In, Hin.
Qed.

Lemma ldap_found_below_known ls (ks : list string) n :
  NoDup ks ->
  is_Some (ls !! n) ->
  n ∉ ks ->
  (length (List.filter (fun k => bool_decide (is_Some (ls !! k))) ks) < size ls)%nat.
Proof.
  intros Hnd Hn Hno.
  rewrite <- (size_list_to_set (C := gset string)) by exact (NoDup_filter_names _ ks Hnd).
  rewrite <- (size_dom (D := gset string)).
  apply subset_size. split.
  - intros k Hk. apply elem_of_list_to_set, list_elem_of_In, List.filter_In in Hk as [_ Hk].
    apply bool_decide_eq_true in Hk. apply elem_of_dom. exact Hk.
  - intros Hsub. assert (Hin : n ∈ dom ls) by (apply elem_of_dom; exact Hn).
    apply Hsub, elem_of_list_to_set, list_elem_of_In, List.filter_In in Hin as [Hin _].
    apply Hno, list_elem_of_In, Hin.
Qed.

(** *** Removal *)

Lemma closes_of_gone (p : string * ldapState -> bool) (ps : list (string * ldapState)) n :
  NoDup ps.*1 ->
  ldap_events_of n ((fun ns => LdapClose ns.1 (ldap_conn ns.2)) <$> List.filter p ps)
  = match list_to_map (M := gmap string ldapState) ps !! n with
    | Some st => if p (n, st) then [LdapClose n (ldap_conn st)] else []
    | None => []
    end.
Proof.
  induction ps as [|[k st] ps IH]; intros Hnd; [reflexivity|].
  rewrite fmap_cons in Hnd. apply NoDup_cons in Hnd as [Hk Hnd]. cbn [fst] in Hk.
  apply (not_elem_of_list_to_map_1 (M := gmap string)) in Hk.
  cbn [List.filter list_to_map foldr uncurry fst snd].
  destruct (decide (k = n)) as [->|Hne].
  - rewrite lookup_insert_eq. destruct (p (n, st)).
    + rewrite fmap_cons. unfold ldap_events_of in *. cbn [List.filter fst snd ldap_event_name].
      rewrite String.eqb_refl, (IH Hnd), Hk. reflexivity.
    + rewrite (IH Hnd), Hk. reflexivity.
  - rewrite lookup_insert_ne by exact Hne. destruct (p (k, st)); [|exact (IH Hnd)].
    rewrite fmap_cons. unfold ldap_events_of in *. cbn [List.filter fst snd ldap_event_name].
    apply String.eqb_neq in Hne. rewrite Hne. exact (IH Hnd).
Qed.

Lemma remove_named (known : nat) v n :
  n ∈ ldap_Name <$> l_infos v ->
  l_ldaps (ldap_remove known v) !! n = l_ldaps v !! n
  /\ ldap_events_of n (l_trace (ldap_remove known v)) = ldap_events_of n (l_trace v).
Proof.
  intros Hn. unfold ldap_remove. destruct (known =? l_found v)%nat; [auto|].
  cbn [l_ldaps l_trace]. split.
  - destruct (l_ldaps v !! n) as [st|] eqn:Hst.
    + apply map_lookup_filter_Some. auto.
    + apply map_lookup_filter_None. left. exact Hst.
  - rewrite ldap_events_of_app, closes_of_gone by apply NoDup_fst_map_to_list.
    rewrite list_to_map_to_list. destruct (l_ldaps v !! n); [|apply app_nil_r].
    cbn [fst]. rewrite bool_decide_true by exact Hn. apply app_nil_r.
Qed.

Lemma remove_unnamed (known : nat) v n :
  n ∉ ldap_Name <$> l_infos v ->
  known <> l_found v ->
  l_ldaps (ldap_remove known v) !! n = None
  /\ ldap_events_of n (l_trace (ldap_remove known v))
     = ldap_events_of n (l_trace v)
       ++ match l_ldaps v !! n with
          | Some st => [LdapClose n (ldap_conn st)]
          | None => []
          end.
Proof.
  intros Hn Hk. unfold ldap_remove. apply Nat.eqb_neq in Hk. rewrite Hk.
  cbn [l_ldaps l_trace]. split.
  - apply map_lookup_filter_None. right. intros st _. exact Hn.
  - rewrite ldap_events_of_app, closes_of_gone by apply NoDup_fst_map_to_list.
    rewrite list_to_map_to_list. destruct (l_ldaps v !! n); [|reflexivity].
    cbn [fst]. rewrite bool_decide_false by exact Hn. reflexivity.
Qed.

Lemma remove_changed (known : nat) v :
  l_changed (ldap_remove known v) = false ->
  l_ldaps (ldap_remove known v) = l_ldaps v /\ l_changed v = false.
Proof.
  unfold ldap_remove. destruct (known =? l_found v)%nat; [auto|].
  cbn [l_changed l_ldaps].
  destruct (List.filter _ (map_to_list (l_ldaps v))) as [|ns gone] eqn:Hgone; [|discriminate].
  intros Hc. split; [|exact Hc].
  apply map_filter_id. intros k st Hst.
  destruct (decide (k ∈ ldap_Name <$> l_infos v)) as [Hin|Hout]; [exact Hin|].
  exfalso. assert (Hk : (k, st) ∈ List.filter
             (fun ns : string * ldapState =>
                negb (bool_decide (ns.1 ∈ ldap_Name <$> l_infos v)))
             (map_to_list (l_ldaps v))).
  { apply list_elem_of_In, List.filter_In. split.
    - apply list_elem_of_In, elem_of_map_to_list, Hst.
    - cbn [fst]. rewrite bool_decide_false by exact Hout. reflexivity. }
  rewrite Hgone in Hk. inversion Hk.
Qed.

(** *** The pass *)

Lemma ldap_pass_at_document ls m env raw info :
  NoDup (names (ldap_decoded env)) ->
  raw ∈ ldap_docs env ->
  ldap_unmarshal env raw = Some info ->
  (refreshLdaps ls m env).1.1 !! ldap_Name info
  = Some (after_document env (ls !! ldap_Name info) raw info)
  /\ ldap_events_of (ldap_Name info) (refreshLdaps ls m env).2
     = events_of_document (ls !! ldap_Name info) raw info.
Proof.
  intros Hnd Hin Hu. pose proof (elem_of_decoded env raw info Hin Hu) as Hd.
  unfold refreshLdaps. cbn [fst snd]. rewrite fold_decoded.
  destruct (fold_at env (ldap_decoded env) (vars0 ls) raw info Hnd Hd) as [Hl He].
  cbn [l_ldaps l_trace] in Hl, He.
  destruct (ldap_iter_err env); [auto|].
  destruct (remove_named (size ls) (foldl (doc env) (vars0 ls) (ldap_decoded env))
              (ldap_Name info)) as [-> ->]; [|auto].
  rewrite fold_infos. cbn [l_infos app].
  apply (list_elem_of_fmap_2 (fun ri : Raw * ldapInfo => ldap_Name ri.2) _ (raw, info)) in Hd.
  rewrite <- list_fmap_compose. exact Hd.
Qed.

(** X24. A document whose bytes are those the connection of its name was
    dialled with leaves the connection alone: it is neither closed nor
    dialled again, and stays in the table with its state, whether or not
    the iteration ends with an error. *)
Theorem unchanged_ldap_connection_is_kept ls m env raw info st :
  NoDup (names (ldap_decoded env)) ->
  raw ∈ ldap_docs env ->
  ldap_unmarshal env raw = Some info ->
  ls !! ldap_Name info = Some st ->
  ldap_raw st = raw ->
  (refreshLdaps ls m env).1.1 !! ldap_Name info = Some st
  /\ ldap_events_of (ldap_Name info) (refreshLdaps ls m env).2 = [].
Proof.
  intros Hnd Hin Hu Hst Hraw.
  destruct (ldap_pass_at_document ls m env raw info Hnd Hin Hu) as [-> ->].
  unfold after_document, events_of_document. rewrite Hst, Hraw, String.eqb_refl. auto.
Qed.

(** X25. A document of a name without a connection dials one, and a
    document whose bytes differ from those the connection of its name was
    dialled with closes that connection and then dials a new one.  The new
    connection is in the table under the name, with the bytes and the
    decoded document, and it is the one plugins get from then on. *)
Theorem changed_ldap_connection_is_redialled ls m env raw info :
  NoDup (names (ldap_decoded env)) ->
  raw ∈ ldap_docs env ->
  ldap_unmarshal env raw = Some info ->
  (forall st, ls !! ldap_Name info = Some st -> ldap_raw st <> raw) ->
  (refreshLdaps ls m env).1.1 !! ldap_Name info
  = Some {| ldap_raw := raw; ldap_info := info; ldap_conn := DialManaged env info |}
  /\ ldap_events_of (ldap_Name info) (refreshLdaps ls m env).2
     = match ls !! ldap_Name info with
       | Some st => [LdapClose (ldap_Name info) (ldap_conn st); LdapDial info]
       | None => [LdapDial info]
       end
  /\ ldapConns (refreshLdaps ls m env).1.2 !! ldap_Name info = Some (DialManaged env info).
Proof.
  intros Hnd Hin Hu Hold.
  destruct (ldap_pass_at_document ls m env raw info Hnd Hin Hu) as [Hl He].
  assert (Hafter : after_document env (ls !! ldap_Name info) raw info
                   = {| ldap_raw := raw; ldap_info := info; ldap_conn := DialManaged env info |}
                   /\ events_of_document (ls !! ldap_Name info) raw info
                      = match ls !! ldap_Name info with
                        | Some st => [LdapClose (ldap_Name info) (ldap_conn st); LdapDial info]
                        | None => [LdapDial info]
                        end).
  { unfold after_document, events_of_document.
    destruct (ls !! ldap_Name info) as [st|]; [|auto].
    specialize (Hold st eq_refl). apply String.eqb_neq in Hold. rewrite Hold. auto. }
  destruct Hafter as [Ha Hb]. rewrite Ha in Hl. rewrite Hb in He.
  split; [exact Hl|]. split; [exact He|].
  unfold refreshLdaps in *. cbn [fst snd] in *.
  set (v2 := if ldap_iter_err env then _ else _) in *.
  destruct (l_changed v2) eqn:Hc.
  - cbn [ldapConns set_ldapConns]. rewrite lookup_fmap, Hl. reflexivity.
  - exfalso.
    assert (Hsame : l_ldaps v2 = ls).
    { unfold v2 in *. destruct (ldap_iter_err env).
      - destruct (fold_changed env (ldap_decoded env) (vars0 ls)) as [_ Hs].
        rewrite fold_decoded in Hc |- *. exact (proj1 (Hs Hc)).
      - destruct (remove_changed _ _ Hc) as [-> Hc1].
        destruct (fold_changed env (ldap_decoded env) (vars0 ls)) as [_ Hs].
        rewrite fold_decoded in Hc1 |- *. exact (proj1 (Hs Hc1)). }
    rewrite Hsame in Hl. exact (Hold _ Hl eq_refl).
Qed.

(** X26. A connection that no decoded document names is closed and removed
    by a pass whose iteration ends without an error, and plugins cannot get
    it any more; when the iteration ends with an error the connection is
    left as it is. *)
Theorem unnamed_ldap_connection_is_closed ls m env n st :
  NoDup (names (ldap_decoded env)) ->
  ls !! n = Some st ->
  n ∉ names (ldap_decoded env) ->
  if ldap_iter_err env
  then (refreshLdaps ls m env).1.1 !! n = Some st
       /\ ldap_events_of n (refreshLdaps ls m env).2 = []
  else (refreshLdaps ls m env).1.1 !! n = None
       /\ ldap_events_of n (refreshLdaps ls m env).2 = [LdapClose n (ldap_conn st)]
       /\ ldapConns (refreshLdaps ls m env).1.2 !! n = None.
Proof.
  intros Hnd Hst Hn. unfold refreshLdaps. cbn [fst snd]. rewrite fold_decoded.
  destruct (fold_other env (ldap_decoded env) (vars0 ls) n Hn) as [Hl He].
  cbn [l_ldaps l_trace] in Hl, He.
  destruct (ldap_iter_err env); [rewrite Hl, He; auto|].
  destruct (remove_unnamed (size ls) (foldl (doc env) (vars0 ls) (ldap_decoded env)) n)
    as [Hl2 He2].
  - rewrite fold_infos. exact Hn.
  - rewrite (ldap_fold_found env ls) by (try exact Hnd; intros k _; reflexivity).
    cbn [l_found]. pose proof (ldap_found_below_known ls _ n Hnd (mk_is_Some _ _ Hst) Hn). lia.
  - rewrite Hl2, He2, He, Hl, Hst. split; [reflexivity|]. split; [reflexivity|].
    assert (Hc : l_changed (ldap_remove (size ls)
                   (foldl (doc env) (vars0 ls) (ldap_decoded env))) = true).
    { destruct (l_changed _) eqn:Hc; [reflexivity|].
      destruct (remove_changed _ _ Hc) as [Hsame _].
      rewrite Hsame, Hl, Hst in Hl2. discriminate. }
    rewrite Hc. cbn [ldapConns set_ldapConns]. rewrite lookup_fmap, Hl2. reflexivity.
Qed.

(** X27. The table plugins read their connections from follows the table
    of the manager: when it holds the connections of [m.ldaps] before a
    pass it holds those of [m.ldaps] after it, however the pass ends, and
    the pass touches nothing else of the manager. *)
Theorem ldapConns_follow_ldaps ls m env :
  ldapConns m = ldap_conn <$> ls ->
  ldapConns (refreshLdaps ls m env).1.2 = ldap_conn <$> (refreshLdaps ls m env).1.1
  /\ plugins (refreshLdaps ls m env).1.2 = plugins m
  /\ config_Plugins (refreshLdaps ls m env).1.2 = config_Plugins m
  /\ alive (refreshLdaps ls m env).1.2 = alive m.
Proof.
  intros Hm. unfold refreshLdaps. cbn [fst snd].
  set (v2 := if ldap_iter_err env then _ else _).
  destruct (l_changed v2) eqn:Hc; [cbn; auto|].
  repeat split. rewrite Hm. f_equal. symmetry.
  unfold v2 in *. destruct (ldap_iter_err env).
  - destruct (fold_changed env (ldap_decoded env) (vars0 ls)) as [_ Hs].
    rewrite fold_decoded in Hc |- *. exact (proj1 (Hs Hc)).
  - destruct (remove_changed _ _ Hc) as [-> Hc1].
    destruct (fold_changed env (ldap_decoded env) (vars0 ls)) as [_ Hs].
    rewrite fold_decoded in Hc1 |- *. exact (proj1 (Hs Hc1)).
Qed.

End Pass.

End ldaps_facts.

(** The passes over the LDAP documents of the concrete bus. *)
Module ldaps_witnesses.
Import mup ldaps examples ldaps_examples ldaps_facts.

#[local] Existing Instance ext.

Lemma env_ldap_names : NoDup (ldap_Name <$> (ldap_decoded env_ldap).*2).
Proof.
  change (NoDup ["corp"; "lab"]). apply NoDup_cons. split; [|apply NoDup_singleton].
  intros Hin. apply list_elem_of_singleton in Hin. discriminate Hin.
Qed.

Lemma unchanged_ldap_connection_is_kept_witness :
  (refreshLdaps {[ "corp" := st_corp ]} m_running env_ldap).1.1 !! "corp" = Some st_corp
  /\ ldap_events_of "corp" (refreshLdaps {[ "corp" := st_corp ]} m_running env_ldap).2 = [].
Proof.
  apply (unchanged_ldap_connection_is_kept {[ "corp" := st_corp ]} m_running env_ldap
           "corp-v1" corp_info st_corp).
  - exact env_ldap_names.
  - apply list_elem_of_In. cbn. auto.
  - reflexivity.
  - vm_compute. reflexivity.
  - reflexivity.
Defined.

Lemma changed_ldap_connection_is_redialled_witness :
  (refreshLdaps {[ "corp" := st_corp ]} m_running env_ldap).1.1 !! "lab"
  = Some {| ldap_raw := "lab-v1"; ldap_info := lab_info; ldap_conn := "ldap://lab" |}
  /\ ldap_events_of "lab" (refreshLdaps {[ "corp" := st_corp ]} m_running env_ldap).2
     = [LdapDial lab_info]
  /\ ldapConns (refreshLdaps {[ "corp" := st_corp ]} m_running env_ldap).1.2 !! "lab"
     = Some "ldap://lab".
Proof.
  refine (changed_ldap_connection_is_redialled {[ "corp" := st_corp ]} m_running env_ldap
            "lab-v1" lab_info _ _ _ _).
  - exact env_ldap_names.
  - apply list_elem_of_In. cbn. auto.
  - reflexivity.
  - intros st Hst. vm_compute in Hst. discriminate Hst.
Defined.

Lemma unnamed_ldap_connection_is_closed_witness :
  (refreshLdaps {[ "corp" := st_corp; "old" := st_old ]} m_running env_ldap).1.1 !! "old" = None
  /\ ldap_events_of "old"
       (refreshLdaps {[ "corp" := st_corp; "old" := st_old ]} m_running env_ldap).2
     = [LdapClose "old" "ldap://old"]
  /\ ldapConns (refreshLdaps {[ "corp" := st_corp; "old" := st_old ]} m_running env_ldap).1.2
       !! "old" = None.
Proof.
  refine (unnamed_ldap_connection_is_closed {[ "corp" := st_corp; "old" := st_old ]}
            m_running env_ldap "old" st_old _ _ _).
  - exact env_ldap_names.
  - vm_compute. reflexivity.
  - change ("old" ∉ ["corp"; "lab"]). intros Hin.
    apply list_elem_of_In in Hin. cbn in Hin. intuition discriminate.
Defined.

Lemma ldapConns_follow_ldaps_witness :
  ldapConns (refreshLdaps {[ "corp" := st_corp ]} m_running env_ldap).1.2
  = ldap_conn <$> (refreshLdaps {[ "corp" := st_corp ]} m_running env_ldap).1.1
  /\ plugins (refreshLdaps {[ "corp" := st_corp ]} m_running env_ldap).1.2 = plugins m_running
  /\ config_Plugins (refreshLdaps {[ "corp" := st_corp ]} m_running env_ldap).1.2
     = config_Plugins m_running
  /\ alive (refreshLdaps {[ "corp" := st_corp ]} m_running env_ldap).1.2 = alive m_running.
Proof.
  apply (ldapConns_follow_ldaps {[ "corp" := st_corp ]} m_running env_ldap).
  vm_compute. reflexivity.
Defined.

End ldaps_witnesses.

(* ===================================================================== *)
(** * Shutdown *)
(* ===================================================================== *)

Module shutdown_facts.
Import mup ldaps mup_facts.

Section Die.

Context `{Externals}.

Lemma filter_everything {A} (l : list A) : List.filter (fun _ => true) l = l.
Proof. induction l as [|a l IH]; [reflexivity|]. cbn [List.filter]. rewrite IH. reflexivity. Qed.

(** X28. [die] stops every running plugin, each one once, closes every
    connection of [m.ldaps], each one once, and does nothing else to a
    plugin or a connection; it clears the table plugins read and kills the
    tomb, so that from then on a request for an LDAP connection panics,
    whatever the name. *)
Theorem die_stops_every_plugin_once (ls : gmap string ldapState) (m : pluginManager)
    (n : string) :
  events_of n (die ls m).1.2
  = match plugins m !! n with Some _ => [PluginStop n] | None => [] end
  /\ ldap_events_of n (die ls m).2
     = match ls !! n with Some st => [LdapClose n (ldap_conn st)] | None => [] end
  /\ Forall (fun e => exists k, e = PluginStop k /\ is_Some (plugins m !! k)) (die ls m).1.2
  /\ Forall (fun e => exists k st, e = LdapClose k (ldap_conn st) /\ ls !! k = Some st)
       (die ls m).2
  /\ ldapConns (die ls m).1.1 = ∅
  /\ alive (die ls m).1.1 = false
  /\ plugins (die ls m).1.1 = plugins m
  /\ forall name,
       ldapConn (die ls m).1.1 name
       = Panic "plugin requested an LDAP connection after its Stop method returned".
Proof.
  unfold die, die_plugins. cbn [fst snd].
  split; [|split; [|split; [|split]]].
  - rewrite <- (filter_everything (map_to_list (plugins m))) at 1.
    rewrite (refresh_facts.stops_of_unseen (fun _ => true)) by apply NoDup_fst_map_to_list.
    rewrite list_to_map_to_list. reflexivity.
  - rewrite <- (filter_everything (map_to_list ls)) at 1.
    rewrite (ldaps_facts.closes_of_gone (fun _ => true)) by apply NoDup_fst_map_to_list.
    rewrite list_to_map_to_list. reflexivity.
  - apply Forall_fmap, Forall_forall. intros [k st] Hin. cbn [fst].
    apply elem_of_map_to_list in Hin. exists k. split; [reflexivity|eauto].
  - apply Forall_fmap, Forall_forall. intros [k st] Hin. cbn [fst snd].
    apply elem_of_map_to_list in Hin. exists k, st. auto.
  - repeat split.
Qed.

End Die.

End shutdown_facts.

(* ===================================================================== *)
(** * The Launchpad plugin *)
(* ===================================================================== *)

Module launchpad_facts.
Import launchpad.

Lemma announce_nil_old (newBugs : list Z) :
  announce [] newBugs = (fun b => (PrefixNew, b)) <$> newBugs.
Proof. induction newBugs as [|n l IH]; [reflexivity|]. cbn; f_equal; auto. Qed.

Lemma announce_nil_new (oldBugs : list Z) :
  announce oldBugs [] = (fun b => (PrefixOld, b)) <$> oldBugs.
Proof. induction oldBugs as [|o l IH]; [reflexivity|]. cbn; f_equal; auto. Qed.

Lemma announce_cons (o n : Z) (oldBugs newBugs : list Z) :
  announce (o :: oldBugs) (n :: newBugs)
  = if (n <? o)%Z then (PrefixNew, n) :: announce (o :: oldBugs) newBugs
    else if (o <? n)%Z then (PrefixOld, o) :: announce oldBugs (n :: newBugs)
    else announce oldBugs newBugs.
Proof. reflexivity. Qed.

Lemma sorted_head_below (a : Z) (l : list Z) (b : Z) :
  StronglySorted Z.lt (a :: l) -> b ∈ l -> (a < b)%Z.
Proof.
  intros Hs Hb. apply StronglySorted_inv in Hs as [_ Hall].
  rewrite List.Forall_forall in Hall. apply Hall, list_elem_of_In, Hb.
Qed.

(** X29. Over two lists of bug numbers in strictly increasing order,
    [pollBugs] announces exactly the difference: with the prefix for new
    bugs those of the new list that are not in the old one, with the
    prefix for old bugs those of the old list that are not in the new
    one, and a bug of both lists not at all. *)
Theorem pollBugs_announces_the_difference (oldBugs newBugs : list Z) (b : Z) :
  StronglySorted Z.lt oldBugs ->
  StronglySorted Z.lt newBugs ->
  ((PrefixNew, b) ∈ announce oldBugs newBugs <-> b ∈ newBugs /\ b ∉ oldBugs)
  /\ ((PrefixOld, b) ∈ announce oldBugs newBugs <-> b ∈ oldBugs /\ b ∉ newBugs).
Proof.
  revert newBugs. induction oldBugs as [|o oldBugs IHo]; intros newBugs Ho Hn.
  - rewrite announce_nil_old. split.
    + rewrite list_elem_of_fmap. split.
      * intros (x & [= ->] & Hx). split; [exact Hx|apply not_elem_of_nil].
      * intros [Hb _]. exists b. auto.
    + rewrite list_elem_of_fmap. split.
      * intros (x & [=] & _).
      * intros [Hb _]. inversion Hb.
  - induction newBugs as [|n newBugs IHn].
    + rewrite announce_nil_new. split.
      * rewrite list_elem_of_fmap. split.
        -- intros (x & [=] & _).
        -- intros [Hb _]. inversion Hb.
      * rewrite list_elem_of_fmap. split.
        -- intros (x & [= ->] & Hx). split; [exact Hx|apply not_elem_of_nil].
        -- intros [Hb _]. exists b. auto.
    + pose proof (StronglySorted_inv Ho) as [Ho' _].
      pose proof (StronglySorted_inv Hn) as [Hn' _].
      pose proof (sorted_head_below o oldBugs b Ho) as Hob.
      pose proof (sorted_head_below n newBugs b Hn) as Hnb.
      rewrite announce_cons.
      destruct (Z.ltb_spec n o) as [Hlt|Hge]; [|destruct (Z.ltb_spec o n) as [Hlt|Hge']].
      * destruct (IHn Hn') as [IH1 IH2].
        rewrite !elem_of_cons, IH1, IH2, !elem_of_cons. clear IH1 IH2 IHn IHo.
        split; split; naive_solver lia.
      * destruct (IHo (n :: newBugs) Ho' Hn) as [IH1 IH2].
        rewrite !elem_of_cons, IH1, IH2, !elem_of_cons. clear IH1 IH2 IHn IHo.
        split; split; naive_solver lia.
      * assert (o = n) as -> by lia.
        destruct (IHo newBugs Ho' Hn') as [IH1 IH2].
        rewrite IH1, IH2, !elem_of_cons. clear IH1 IH2 IHn IHo.
        split; split; naive_solver lia.
Qed.

Lemma pollBugs_announces_the_difference_witness :
  ((PrefixNew, 7%Z) ∈ announce [3; 5; 9]%Z [5; 7; 9]%Z
   <-> 7%Z ∈ [5; 7; 9]%Z /\ 7%Z ∉ [3; 5; 9]%Z)
  /\ ((PrefixOld, 7%Z) ∈ announce [3; 5; 9]%Z [5; 7; 9]%Z
      <-> 7%Z ∈ [3; 5; 9]%Z /\ 7%Z ∉ [5; 7; 9]%Z).
Proof.
  apply (pollBugs_announces_the_difference [3; 5; 9]%Z [5; 7; 9]%Z 7%Z).
  - repeat (constructor; [|repeat (constructor; [lia|]); constructor]). constructor.
  - repeat (constructor; [|repeat (constructor; [lia|]); constructor]). constructor.
Defined.

End launchpad_facts.

(* ===================================================================== *)
(** * What a plugin receives *)
(* ===================================================================== *)

Module delivery_facts.
Import mup mup_ext mup_facts.

Section Delivery.

Context `{Externals}.

Implicit Types (m : pluginManager) (msg : Message) (st : pluginState) (name : string).

Lemma dispatch_received msg name st :
  String.eqb (Command msg) cmdPong = false ->
  dispatch msg (CommandName (BotText msg)) name st
  = if received st msg
    then (set_info (set_LastId (Id msg) (info st)) st, delivery name st msg)
    else (st, []).
Proof.
  intros Hp. unfold dispatch, received, delivery. rewrite Hp, order.leb_ltb. cbn [negb andb].
  destruct (String.ltb (LastId (info st)) (Id msg)); cbn [negb orb andb]; [|reflexivity].
  destruct (Target (plugger st) msg); reflexivity.
Qed.

(** The loop body for one record, for one plugin. *)
Lemma loop_incoming_received m msg name st :
  plugins m !! name = Some st ->
  events_of name (snd (loop_incoming m msg))
  = (if received st msg then delivery name st msg else [])
  /\ plugins (fst (loop_incoming m msg)) !! name
     = Some (if received st msg then set_info (set_LastId (Id msg) (info st)) st else st).
Proof.
  intros Hst. destruct (String.eqb (Command msg) cmdPong) eqn:Hp.
  - unfold loop_incoming, received. rewrite Hp. cbn [negb andb fst snd]. auto.
  - rewrite (loop_incoming_events m msg name Hp), (loop_incoming_plugins m msg name Hp), Hst.
    cbn [fmap option_fmap option_map]. rewrite (dispatch_received msg name st Hp).
    destruct (received st msg); auto.
Qed.

(** A plugin that has moved to an older record receives of the later ones
    what it would have received before. *)
Lemma received_later msg msg' name st :
  String.ltb (Id msg) (Id msg') = true ->
  received st msg = true ->
  received (set_info (set_LastId (Id msg) (info st)) st) msg' = received st msg'
  /\ delivery name (set_info (set_LastId (Id msg) (info st)) st) msg' = delivery name st msg'.
Proof.
  intros Hlt Hr. split; [|destruct st as [[] ? ? ?]; reflexivity].
  unfold received in *. destruct st as [[nm last cfg tg sta] sp pl p]. cbn in *.
  rewrite Hlt. apply andb_true_iff in Hr as [Hr _]. apply andb_true_iff in Hr as [_ Hr].
  rewrite (order.ltb_trans _ _ _ Hr Hlt). reflexivity.
Qed.

Lemma last_of_cons {A} (l : list A) :
  forall a d, List.last (a :: l) d = List.last l a.
Proof.
  induction l as [|b l IH]; intros a d; [reflexivity|].
  change (List.last (a :: b :: l) d) with (List.last (b :: l) d).
  rewrite !IH. reflexivity.
Qed.

Lemma fmap_ext_elem {A B} (f g : A -> B) (l : list A) :
  (forall a, a ∈ l -> f a = g a) -> f <$> l = g <$> l.
Proof.
  induction l as [|a l IH]; intros Hfg; [reflexivity|].
  rewrite !fmap_cons, (Hfg a) by left. f_equal. apply IH.
  intros b Hb. apply Hfg. right. exact Hb.
Qed.

(** X30. Over records in the order of their ids, a running plugin is
    handed exactly the records that are newer than its position and that
    it has a target for, pongs apart: each of them once, in order, the
    handlers first and then the write of the position; and its position
    ends at the id of the last of them. *)
Theorem plugin_receives_each_newer_record_once (msgs : list Message) :
  forall m name st,
    sorted_by_id msgs ->
    plugins m !! name = Some st ->
    events_of name (snd (loop_run m msgs))
    = concat (delivery name st <$> List.filter (received st) msgs)
    /\ plugins (fst (loop_run m msgs)) !! name
       = Some (set_info
                 (set_LastId
                    (List.last (Id <$> List.filter (received st) msgs) (LastId (info st)))
                    (info st)) st).
Proof.
  induction msgs as [|msg msgs IH]; intros m name st Hs Hst.
  - cbn. rewrite Hst. destruct st as [[] ? ? ?]. auto.
  - apply StronglySorted_inv in Hs as [Hs Hall]. cbn [loop_run fst snd List.filter].
    destruct (loop_incoming_received m msg name st Hst) as [He Hp].
    rewrite events_of_app, He.
    destruct (received st msg) eqn:Hr.
    + destruct (IH _ name _ Hs Hp) as [-> ->].
      assert (Hf : List.filter (received (set_info (set_LastId (Id msg) (info st)) st)) msgs
                   = List.filter (received st) msgs).
      { apply List.filter_ext_in. intros msg' Hin. rewrite List.Forall_forall in Hall.
        exact (proj1 (received_later msg msg' name st (Hall _ Hin) Hr)). }
      rewrite Hf, !fmap_cons, last_of_cons. cbn [concat]. split.
      * rewrite (fmap_ext_elem (delivery name (set_info (set_LastId (Id msg) (info st)) st))
                   (delivery name st)); [reflexivity|].
        intros msg' Hin. apply list_elem_of_In, List.filter_In in Hin as [Hin _].
        rewrite List.Forall_forall in Hall.
        exact (proj2 (received_later msg msg' name st (Hall _ Hin) Hr)).
      * destruct st as [[] ? ? ?]. reflexivity.
    + destruct (IH _ name _ Hs Hp) as [-> ->]. auto.
Qed.

End Delivery.

End delivery_facts.

(** What the plugin of the concrete bus receives. *)
Module delivery_examples.
Import mup mup_ext examples delivery_facts.

#[local] Existing Instance ext.

Lemma plugin_receives_each_newer_record_once_witness :
  events_of "echo" (snd (loop_run m_running [out1; hello_msg]))
  = concat (delivery "echo" st_echo <$> List.filter (received st_echo) [out1; hello_msg])
  /\ plugins (fst (loop_run m_running [out1; hello_msg])) !! "echo"
     = Some (set_info
               (set_LastId
                  (List.last (Id <$> List.filter (received st_echo) [out1; hello_msg])
                     (LastId (info st_echo)))
                  (info st_echo)) st_echo).
Proof.
  apply (plugin_receives_each_newer_record_once [out1; hello_msg] m_running "echo" st_echo).
  - repeat constructor.
  - vm_compute. reflexivity.
Defined.

End delivery_examples.
